(** * CIDR labels (pkg/labels/cidr/cidr.go)

    A shallow embedding of the CIDR label library: the label codec
    [maskedIPToLabel], the parser [IPStringToLabel] and the expansion
    [GetCIDRLabels] with its partial-result cache, together with the
    parts of Go's [strings], [strconv], [net/netip] and of
    [hashicorp/golang-lru/v2/simplelru] that the package calls.

    Go strings are byte strings: [string] with one [ascii] per byte.
    Go [int], [uint8], [uint16] and the 128-bit address are [Z]; every
    place where the width matters carries its mask.  A Go map is a
    [gmap]; the package-level cache is threaded through the functions
    that touch it.  The functions are calls that run one after the
    other.  Calls that overlap are taken apart into the stretches of
    code that run under the mutex ([steps.step]): a state is the
    cache and the calls in progress, and any call may take the next
    step.  The [sync.Once] that builds the cache is the empty cache
    of the first state. *)

From Stdlib Require Import ZArith Ascii String List Lia.
From stdpp Require Import base tactics option list gmap strings pretty.

Local Open Scope Z_scope.

(** ** Bytes and strings *)

Module bytes.

Definition code (c : ascii) : Z := Z.of_N (N_of_ascii c).

Definition chr (n : Z) : ascii := ascii_of_N (Z.to_N n).

(** [s[i]] for an index in range. *)
Fixpoint at_ (s : string) (i : nat) : option ascii :=
  match s, i with
  | EmptyString, _ => None
  | String c _, O => Some c
  | String _ s', S i' => at_ s' i'
  end.

Definition first (s : string) : option ascii := at_ s 0.

Fixpoint last (s : string) : option ascii :=
  match s with
  | EmptyString => None
  | String c EmptyString => Some c
  | String _ s' => last s'
  end.

(** [c] occurs in [s]. *)
Fixpoint mem (c : ascii) (s : string) : bool :=
  match s with
  | EmptyString => false
  | String d s' => bool_decide (d = c) || mem c s'
  end.

(** [s[:n]] and [s[n:]] for [0 <= n <= len(s)]. *)
Fixpoint take (n : nat) (s : string) : string :=
  match n, s with
  | S n', String c s' => String c (take n' s')
  | _, _ => EmptyString
  end.

Fixpoint drop (n : nat) (s : string) : string :=
  match n, s with
  | S n', String _ s' => drop n' s'
  | _, _ => s
  end.

Fixpoint prefix (p s : string) : bool :=
  match p, s with
  | EmptyString, _ => true
  | String a p', String b s' => bool_decide (a = b) && prefix p' s'
  | String _ _, EmptyString => false
  end.

Definition len (s : string) : Z := Z.of_nat (String.length s).

Definition isDigit (c : ascii) : bool :=
  (code "0" <=? code c) && (code c <=? code "9").

End bytes.

Module strings.

(** [strings.Replace(s, old, new, -1)] for one-byte [old] and [new]:
    every occurrence is replaced. *)
Fixpoint Replace (s : string) (old new : ascii) : string :=
  match s with
  | EmptyString => EmptyString
  | String c s' =>
      String (if bool_decide (c = old) then new else c) (Replace s' old new)
  end.

(** [strings.LastIndexByte(s, c)]: the index of the last [c] in [s],
    or [-1]. *)
Fixpoint LastIndexByte (s : string) (c : ascii) : Z :=
  match s with
  | EmptyString => -1
  | String d s' =>
      let r := LastIndexByte s' c in
      if 0 <=? r then r + 1
      else if bool_decide (d = c) then 0 else -1
  end.

(** [strings.IndexByte(s, c)]: the index of the first [c], or [-1]. *)
Fixpoint IndexByte (s : string) (c : ascii) : Z :=
  match s with
  | EmptyString => -1
  | String d s' =>
      if bool_decide (d = c) then 0
      else let r := IndexByte s' c in if 0 <=? r then r + 1 else -1
  end.

(** [strings.Contains(s, substr)]. *)
Fixpoint Contains (s substr : string) : bool :=
  bytes.prefix substr s ||
  match s with
  | EmptyString => false
  | String _ s' => Contains s' substr
  end.

End strings.

Module strconv.

(** [strconv.Itoa]: decimal digits, a leading ["-"] for a negative
    number. *)
Definition Itoa (i : Z) : string := pretty i.

Definition lowerhex (n : Z) : ascii :=
  if n <? 10 then bytes.chr (bytes.code "0" + n)
  else bytes.chr (bytes.code "a" + (n - 10)).

(** One byte of [strconv.Quote]'s output.  The printable ASCII bytes
    stand for themselves, the quote and the backslash get a
    backslash, the control bytes their escape.  A byte from 0x80 on
    is written as a hex escape, which is Go's output for a byte that
    is not part of a valid UTF-8 encoding (runes are not decoded
    here). *)
Definition quoteByte (c : ascii) : string :=
  let n := bytes.code c in
  if bool_decide (c = "034"%char) then String "\" (String c "")
  else if bool_decide (c = "\"%char) then String "\" (String c "")
  else if (32 <=? n) && (n <? 127) then String c ""
  else if n =? 7 then "\a"
  else if n =? 8 then "\b"
  else if n =? 12 then "\f"
  else if n =? 10 then "\n"
  else if n =? 13 then "\r"
  else if n =? 9 then "\t"
  else if n =? 11 then "\v"
  else String "\" (String "x" (String (lowerhex (Z.shiftr n 4))
                                (String (lowerhex (Z.land n 15)) ""))).

Fixpoint quoteBody (s : string) : string :=
  match s with
  | EmptyString => EmptyString
  | String c s' => quoteByte c +:+ quoteBody s'
  end.

(** [strconv.Quote(s)], also what the verb [%q] prints. *)
Definition Quote (s : string) : string :=
  String "034" (quoteBody s +:+ String "034" "").

Fixpoint digitsVal (s : string) (acc : Z) : option Z :=
  match s with
  | EmptyString => Some acc
  | String c s' =>
      if bytes.isDigit c
      then digitsVal s' (acc * 10 + (bytes.code c - bytes.code "0"))
      else None
  end.

(** [strconv.Atoi] on a 64-bit platform: an optional sign, then one
    or more decimal digits; [None] for a syntax or a range error. *)
Definition Atoi (s : string) : option Z :=
  let '(neg, body) :=
    match s with
    | String "+" s' => (false, s')
    | String "-" s' => (true, s')
    | _ => (false, s)
    end in
  match body with
  | EmptyString => None
  | _ =>
      match digitsVal body 0 with
      | None => None
      | Some v =>
          let v := if neg then - v else v in
          if (- 2 ^ 63 <=? v) && (v <? 2 ^ 63) then Some v else None
      end
  end.

End strconv.


(** ** net/netip

  The address type and the functions of Go's [net/netip] that the
  package calls, after the library's source (Go 1.22).  An [Addr] is
  a 128-bit value with a family tag; an IPv4 address is stored in
  its IPv4-mapped form.  A function that returns [(T, error)] in Go
  returns a sum here: [inl] for a nil error. *)

Module netip.

(** The tag [z]: [z0] for the zero [Addr], [z4] for IPv4, [z6noz] for
    IPv6 without a zone, or the (non-empty) zone of an IPv6
    address. *)
Inductive zoneT : Type :=
| z0
| z4
| z6noz
| z6zone (zone : string).

Record Addr : Type := mkAddr { addr : Z; z : zoneT }.

#[global] Instance zoneT_eq_dec : EqDecision zoneT.
Proof. solve_decision. Defined.

#[global] Instance Addr_eq_dec : EqDecision Addr.
Proof. solve_decision. Defined.

Definition uint8 (n : Z) : Z := Z.land n 255.
Definition uint16 (n : Z) : Z := Z.land n 65535.
Definition uint128 (n : Z) : Z := Z.land n (2 ^ 128 - 1).

Definition isZero (ip : Addr) : bool := bool_decide (z ip = z0).

Definition Addr_Is4 (ip : Addr) : bool := bool_decide (z ip = z4).

Definition Addr_Is6 (ip : Addr) : bool :=
  negb (bool_decide (z ip = z0)) && negb (bool_decide (z ip = z4)).

Definition Addr_BitLen (ip : Addr) : Z :=
  match z ip with
  | z0 => 0
  | z4 => 32
  | _ => 128
  end.

Definition Addr_Zone (ip : Addr) : string :=
  match z ip with
  | z6zone zone => zone
  | _ => EmptyString
  end.

Definition withoutZone (ip : Addr) : Addr :=
  if negb (Addr_Is6 ip) then ip else mkAddr (addr ip) z6noz.

Definition Addr_WithZone (ip : Addr) (zone : string) : Addr :=
  if negb (Addr_Is6 ip) then ip
  else if bool_decide (zone = EmptyString) then mkAddr (addr ip) z6noz
  else mkAddr (addr ip) (z6zone zone).

Definition Addr_Is4In6 (ip : Addr) : bool :=
  Addr_Is6 ip && (Z.shiftr (addr ip) 32 =? 65535).

Definition Addr_Unmap (ip : Addr) : Addr :=
  if Addr_Is4In6 ip then mkAddr (addr ip) z4 else ip.

Definition AddrFrom4 (a b c d : Z) : Addr :=
  mkAddr (Z.lor 281470681743360
            (Z.lor (Z.lor (Z.shiftl a 24) (Z.shiftl b 16))
                   (Z.lor (Z.shiftl c 8) d)))
         z4.

(** Sixteen bytes, the most significant first. *)
Definition beUint (bs : list Z) : Z :=
  foldl (fun acc b => Z.lor (Z.shiftl acc 8) b) 0 bs.

Definition AddrFrom16 (bs : list Z) : Addr := mkAddr (beUint bs) z6noz.

Definition IPv6Unspecified : Addr := mkAddr 0 z6noz.

(** The [i]th byte of an IPv4 address and the [i]th 16-bit group of
    an IPv6 address. *)
Definition v4 (ip : Addr) (i : Z) : Z :=
  uint8 (Z.shiftr (addr ip) ((3 - i) * 8)).

Definition v6u16 (ip : Addr) (i : Z) : Z :=
  uint16 (Z.shiftr (addr ip) ((7 - i) * 16)).

Definition digits (n : Z) : string :=
  String (strconv.lowerhex n) EmptyString.

Definition appendDecimal (b : string) (x : Z) : string :=
  let b := if 100 <=? x then b +:+ digits (x / 100) else b in
  let b := if 10 <=? x then b +:+ digits (x / 10 mod 10) else b in
  b +:+ digits (x mod 10).

Definition appendHex (b : string) (x : Z) : string :=
  let b := if 4096 <=? x then b +:+ digits (Z.shiftr x 12) else b in
  let b := if 256 <=? x
           then b +:+ digits (Z.land (Z.shiftr x 8) 15) else b in
  let b := if 16 <=? x
           then b +:+ digits (Z.land (Z.shiftr x 4) 15) else b in
  b +:+ digits (Z.land x 15).

Definition string4 (ip : Addr) : string :=
  let ret := appendDecimal EmptyString (v4 ip 0) in
  let ret := appendDecimal (ret +:+ ".") (v4 ip 1) in
  let ret := appendDecimal (ret +:+ ".") (v4 ip 2) in
  appendDecimal (ret +:+ ".") (v4 ip 3).

(** The index after the run of zero groups that starts at [i]
    ([j := i; for j < 8 && ip.v6u16(j) == 0 { j++ }]). *)
Fixpoint zeroRun (fuel : nat) (ip : Addr) (j : Z) : Z :=
  match fuel with
  | O => j
  | S fuel' =>
      if (j <? 8) && (v6u16 ip j =? 0) then zeroRun fuel' ip (j + 1) else j
  end.

(** The longest run of at least two zero groups, the first of the
    longest ones; [(255, 255)] when there is none. *)
Definition zeroSpan (ip : Addr) : Z * Z :=
  foldl (fun '(zeroStart, zeroEnd) i =>
           let j := zeroRun 8 ip i in
           let l := j - i in
           if (2 <=? l) && (zeroEnd - zeroStart <? l)
           then (i, j) else (zeroStart, zeroEnd))
        (255, 255) (seqZ 0 8).

Fixpoint appendGroups (fuel : nat) (ip : Addr) (zeroStart zeroEnd : Z)
    (i : Z) (ret : string) : string :=
  match fuel with
  | O => ret
  | S fuel' =>
      if 8 <=? i then ret
      else if i =? zeroStart then
        let ret := ret +:+ "::" in
        let i := zeroEnd in
        if 8 <=? i then ret
        else appendGroups fuel' ip zeroStart zeroEnd (i + 1)
               (appendHex ret (v6u16 ip i))
      else
        let ret := if 0 <? i then ret +:+ ":" else ret in
        appendGroups fuel' ip zeroStart zeroEnd (i + 1)
          (appendHex ret (v6u16 ip i))
  end.

Definition string6 (ip : Addr) : string :=
  let '(zeroStart, zeroEnd) := zeroSpan ip in
  let ret := appendGroups 8 ip zeroStart zeroEnd 0 EmptyString in
  if bool_decide (z ip = z6noz) then ret
  else ret +:+ "%" +:+ Addr_Zone ip.

Definition string4In6 (ip : Addr) : string :=
  let ret := "::ffff:" +:+ string4 (Addr_Unmap ip) in
  if bool_decide (z ip = z6noz) then ret
  else ret +:+ "%" +:+ Addr_Zone ip.

Definition Addr_String (ip : Addr) : string :=
  match z ip with
  | z0 => "invalid IP"
  | z4 => string4 ip
  | _ => if Addr_Is4In6 ip then string4In6 ip else string6 ip
  end.

(** *** Prefixes *)

Record Prefix : Type := mkPrefix { ip : Addr; bitsPlusOne : Z }.

#[global] Instance Prefix_eq_dec : EqDecision Prefix.
Proof. solve_decision. Defined.

(** [PrefixFrom] keeps the host bits of the address and drops its
    zone; a length out of range gives the invalid prefix, whose
    [Bits] is [-1]. *)
Definition PrefixFrom (ip : Addr) (bits : Z) : Prefix :=
  let bitsPlusOne :=
    if negb (isZero ip) && (0 <=? bits) && (bits <=? Addr_BitLen ip)
    then bits + 1 else 0 in
  mkPrefix (withoutZone ip) bitsPlusOne.

Definition Prefix_Addr (p : Prefix) : Addr := ip p.

Definition Prefix_Bits (p : Prefix) : Z := bitsPlusOne p - 1.

(** The 128-bit mask with the [n] most significant bits set. *)
Definition mask6 (n : Z) : Z :=
  uint128 (Z.shiftl (2 ^ 128 - 1) (128 - n)).

(** [Addr.Prefix(b)]: the address with all but its first [b] bits
    cleared, as a prefix; the zero prefix when [b] is out of
    range. *)
Definition Addr_Prefix (ip : Addr) (b : Z) : Prefix + string :=
  if b <? 0 then inr "negative Prefix bits"
  else
    match z ip with
    | z0 => inl (mkPrefix (mkAddr 0 z0) 0)
    | z4 =>
        if 32 <? b
        then inr ("prefix length " +:+ strconv.Itoa b +:+ " too large for IPv4")
        else inl (PrefixFrom
                    (mkAddr (Z.land (addr ip) (mask6 (b + 96))) (z ip)) b)
    | _ =>
        if 128 <? b
        then inr ("prefix length " +:+ strconv.Itoa b +:+ " too large for IPv6")
        else inl (PrefixFrom
                    (mkAddr (Z.land (addr ip) (mask6 b)) (z ip)) b)
    end.

Definition Prefix_Masked (p : Prefix) : Prefix :=
  match Addr_Prefix (ip p) (Prefix_Bits p) with
  | inl m => m
  | inr _ => mkPrefix (mkAddr 0 z0) 0
  end.

(** *** Parsing *)

Record parseAddrError : Type :=
  mkParseAddrError { pae_in : string; pae_msg : string; pae_at : string }.

Definition parseAddrError_Error (err : parseAddrError) : string :=
  if bool_decide (pae_at err = EmptyString)
  then "ParseAddr(" +:+ strconv.Quote (pae_in err) +:+ "): " +:+ pae_msg err
  else "ParseAddr(" +:+ strconv.Quote (pae_in err) +:+ "): " +:+ pae_msg err
         +:+ " (at " +:+ strconv.Quote (pae_at err) +:+ ")".

(** The loop of [parseIPv4Fields] over [s]: [rest] is [s[i:]], [n]
    is [len(s)] and [prev] is [s[i-1]]. *)
Fixpoint parseIPv4Fields_loop (in_ : string) (n : Z) (rest : string)
    (i : Z) (prev : option ascii) (val pos digLen : Z) (fields : list Z)
    : list Z + parseAddrError :=
  match rest with
  | EmptyString =>
      if pos <? 3
      then inr (mkParseAddrError in_ "IPv4 address too short" EmptyString)
      else inl (<[3%nat := uint8 val]> fields)
  | String c rest' =>
      if bytes.isDigit c then
        if (digLen =? 1) && (val =? 0)
        then inr (mkParseAddrError in_
                    "IPv4 field has octet with leading zero" EmptyString)
        else
          let val := val * 10 + (bytes.code c - bytes.code "0") in
          let digLen := digLen + 1 in
          if 255 <? val
          then inr (mkParseAddrError in_
                      "IPv4 field has value >255" EmptyString)
          else parseIPv4Fields_loop in_ n rest' (i + 1) (Some c)
                 val pos digLen fields
      else if bool_decide (c = "."%char) then
        if (i =? 0) || (i =? n - 1) || bool_decide (prev = Some "."%char)
        then inr (mkParseAddrError in_
                    "IPv4 field must have at least one digit" rest)
        else if pos =? 3
        then inr (mkParseAddrError in_ "IPv4 address too long" EmptyString)
        else parseIPv4Fields_loop in_ n rest' (i + 1) (Some c)
               0 (pos + 1) 0 (<[Z.to_nat pos := uint8 val]> fields)
      else inr (mkParseAddrError in_ "unexpected character" rest)
  end.

(** [parseIPv4Fields(in, off, end, fields)] with [s = in[off:end]]
    and [fields] four zero bytes. *)
Definition parseIPv4Fields (in_ s : string) : list Z + parseAddrError :=
  parseIPv4Fields_loop in_ (bytes.len s) s 0 None 0 0 0 [0; 0; 0; 0].

Definition parseIPv4 (s : string) : Addr + parseAddrError :=
  match parseIPv4Fields s s with
  | inl [a; b; c; d] => inl (AddrFrom4 a b c d)
  | inl _ => inr (mkParseAddrError s "unable to parse IP" EmptyString)
  | inr err => inr err
  end.

Definition hexVal (c : ascii) : option Z :=
  let n := bytes.code c in
  if bytes.isDigit c then Some (n - bytes.code "0")
  else if (bytes.code "a" <=? n) && (n <=? bytes.code "f")
  then Some (n - bytes.code "a" + 10)
  else if (bytes.code "A" <=? n) && (n <=? bytes.code "F")
  then Some (n - bytes.code "A" + 10)
  else None.

(** The hex digits at the head of a group: [s] is the group, [rest]
    is [s[off:]].  Returns [off], the value and [s[off:]] where the
    scan stopped. *)
Fixpoint hexGroup (in_ s rest : string) (off acc : Z)
    : (Z * Z * string) + parseAddrError :=
  match rest with
  | EmptyString => inl (off, acc, rest)
  | String c rest' =>
      match hexVal c with
      | None => inl (off, acc, rest)
      | Some d =>
          let acc := Z.land (Z.shiftl acc 4 + d) (2 ^ 32 - 1) in
          if 3 <? off
          then inr (mkParseAddrError in_
                      "each group must have 4 or less digits" s)
          else if 65535 <? acc
          then inr (mkParseAddrError in_ "IPv6 field has value >=2^16" s)
          else hexGroup in_ s rest' (off + 1) acc
      end
  end.

(** The state of [parseIPv6] when its loop is left: the rest of the
    string, the number of bytes written, the place of the ellipsis
    and the bytes. *)
Definition v6state : Type := (string * Z * Z * list Z)%type.

Fixpoint parseIPv6_loop (fuel : nat) (in_ : string) (s : string)
    (i ellipsis : Z) (ip : list Z) : v6state + parseAddrError :=
  if 16 <=? i then inl (s, i, ellipsis, ip)
  else
    match fuel with
    | O => inl (s, i, ellipsis, ip)
    | S fuel' =>
        match hexGroup in_ s s 0 0 with
        | inr err => inr err
        | inl (off, acc, rest) =>
            if off =? 0
            then inr (mkParseAddrError in_
                   "each colon-separated field must have at least one digit"
                   s)
            else if bool_decide (bytes.first rest = Some "."%char) then
              if (ellipsis <? 0) && negb (i =? 12)
              then inr (mkParseAddrError in_
                "embedded IPv4 address must replace the final 2 fields of the address"
                s)
              else if 16 <? i + 4
              then inr (mkParseAddrError in_
                "too many hex fields to fit an embedded IPv4 at the end of the address"
                s)
              else
                match parseIPv4Fields in_ s with
                | inr err => inr err
                | inl fields =>
                    inl (EmptyString, i + 4, ellipsis,
                         take (Z.to_nat i) ip ++ fields
                           ++ drop (Z.to_nat (i + 4)) ip)
                end
            else
              let ip := <[Z.to_nat i := uint8 (Z.shiftr acc 8)]> ip in
              let ip := <[Z.to_nat (i + 1) := uint8 acc]> ip in
              let i := i + 2 in
              let s := rest in
              match s with
              | EmptyString => inl (s, i, ellipsis, ip)
              | String c s1 =>
                  if negb (bool_decide (c = ":"%char))
                  then inr (mkParseAddrError in_
                              "unexpected character, want colon" s)
                  else
                    match s1 with
                    | EmptyString =>
                        inr (mkParseAddrError in_
                               "colon must be followed by more characters" s)
                    | String c1 s2 =>
                        if bool_decide (c1 = ":"%char) then
                          if 0 <=? ellipsis
                          then inr (mkParseAddrError in_
                                      "multiple :: in address" s1)
                          else
                            match s2 with
                            | EmptyString => inl (s2, i, i, ip)
                            | _ => parseIPv6_loop fuel' in_ s2 i i ip
                            end
                        else parseIPv6_loop fuel' in_ s1 i ellipsis ip
                    end
              end
        end
    end.

(** The expansion of the ellipsis: the bytes from [ellipsis] to [i]
    move up by [n] and leave zeros behind. *)
Definition expandEllipsis (ip : list Z) (i ellipsis : Z) : list Z :=
  let n := 16 - i in
  let moved :=
    foldl (fun ip j => <[Z.to_nat (j + n) := default 0 (ip !! Z.to_nat j)]> ip)
          ip (reverse (seqZ ellipsis (i - ellipsis))) in
  foldl (fun ip j => <[Z.to_nat j := 0]> ip) moved (seqZ ellipsis n).

Definition parseIPv6 (in_ : string) : Addr + parseAddrError :=
  let i := strings.IndexByte in_ "%" in
  let s := if 0 <=? i then bytes.take (Z.to_nat i) in_ else in_ in
  let zone :=
    if 0 <=? i then bytes.drop (Z.to_nat (i + 1)) in_ else EmptyString in
  if (0 <=? i) && bool_decide (zone = EmptyString)
  then inr (mkParseAddrError in_ "zone must be a non-empty string" EmptyString)
  else
    let leading := bytes.prefix "::" s in
    let ellipsis := if leading then 0 else -1 in
    let s := if leading then bytes.drop 2 s else s in
    if leading && bool_decide (s = EmptyString)
    then inl (Addr_WithZone IPv6Unspecified zone)
    else
      match parseIPv6_loop 8 in_ s 0 ellipsis (replicate 16 0) with
      | inr err => inr err
      | inl (s, i, ellipsis, ip) =>
          if negb (bool_decide (s = EmptyString))
          then inr (mkParseAddrError in_ "trailing garbage after address" s)
          else if i <? 16 then
            if ellipsis <? 0
            then inr (mkParseAddrError in_
                        "address string too short" EmptyString)
            else inl (Addr_WithZone
                        (AddrFrom16 (expandEllipsis ip i ellipsis)) zone)
          else if 0 <=? ellipsis
          then inr (mkParseAddrError in_
                 "the :: must expand to at least one field of zeros"
                 EmptyString)
          else inl (Addr_WithZone (AddrFrom16 ip) zone)
      end.

(** The first of ['.'], [':'] and ['%'] in the string decides the
    family. *)
Fixpoint ParseAddr_scan (s rest : string) : Addr + parseAddrError :=
  match rest with
  | EmptyString => inr (mkParseAddrError s "unable to parse IP" EmptyString)
  | String c rest' =>
      if bool_decide (c = "."%char) then parseIPv4 s
      else if bool_decide (c = ":"%char) then parseIPv6 s
      else if bool_decide (c = "%"%char)
      then inr (mkParseAddrError s "missing IPv6 address" EmptyString)
      else ParseAddr_scan s rest'
  end.

Definition ParseAddr (s : string) : Addr + parseAddrError :=
  ParseAddr_scan s s.

Record parsePrefixError : Type :=
  mkParsePrefixError { ppe_in : string; ppe_msg : string }.

Definition parsePrefixError_Error (err : parsePrefixError) : string :=
  "netip.ParsePrefix(" +:+ strconv.Quote (ppe_in err) +:+ "): "
    +:+ ppe_msg err.

Definition ParsePrefix (s : string) : Prefix + parsePrefixError :=
  let i := strings.LastIndexByte s "/" in
  if i <? 0 then inr (mkParsePrefixError s "no '/'")
  else
    match ParseAddr (bytes.take (Z.to_nat i) s) with
    | inr err => inr (mkParsePrefixError s (parseAddrError_Error err))
    | inl ip =>
        if Addr_Is6 ip && negb (bool_decide (z ip = z6noz))
        then inr (mkParsePrefixError s
                    "IPv6 zones cannot be present in a prefix")
        else
          let bitsStr := bytes.drop (Z.to_nat (i + 1)) s in
          let badBits :=
            mkParsePrefixError s
              ("bad bits after slash: " +:+ strconv.Quote bitsStr) in
          if (1 <? bytes.len bitsStr)
             && match bytes.first bitsStr with
                | Some c => (bytes.code c <? bytes.code "1")
                            || (bytes.code "9" <? bytes.code c)
                | None => false
                end
          then inr badBits
          else
            match strconv.Atoi bitsStr with
            | None => inr badBits
            | Some bits =>
                let maxBits := if Addr_Is6 ip then 128 else 32 in
                if (bits <? 0) || (maxBits <? bits)
                then inr (mkParsePrefixError s "prefix length out of range")
                else inl (PrefixFrom ip bits)
            end
    end.

End netip.

(** ** fmt: errors *)

Module fmt.

(** The Go [error] values the package meets: the two error types of
    [net/netip] and the wrapping error of [fmt.Errorf] with [%w],
    which stores its message and the wrapped error. *)
Inductive error : Type :=
| ParseAddrError (err : netip.parseAddrError)
| ParsePrefixError (err : netip.parsePrefixError)
| wrapError (msg : string) (err : error).

Definition Error (e : error) : string :=
  match e with
  | ParseAddrError err => netip.parseAddrError_Error err
  | ParsePrefixError err => netip.parsePrefixError_Error err
  | wrapError msg _ => msg
  end.

Definition Unwrap (e : error) : option error :=
  match e with
  | wrapError _ err => Some err
  | _ => None
  end.

(** [fmt.Errorf("%q" + text + "%w", s, err)]. *)
Definition Errorf_q_w (text : string) (s : string) (err : error) : error :=
  wrapError (strconv.Quote s +:+ text +:+ Error err) err.

End fmt.

(** ** simplelru: the least-recently-used cache

  [evictList] holds the entries, the most recently used first; the
  Go type keeps a hash map beside the list to find an entry by its
  key, which [find] does on the list. *)

Module simplelru.

Section LRU.

Context {K V : Type} `{EqDecision K}.

Record LRU : Type := mkLRU { size : Z; evictList : list (K * V) }.

Definition NewLRU (size : Z) : LRU := mkLRU size [].

Fixpoint find (key : K) (l : list (K * V)) : option V :=
  match l with
  | [] => None
  | (k, v) :: l' => if decide (k = key) then Some v else find key l'
  end.

Fixpoint remove (key : K) (l : list (K * V)) : list (K * V) :=
  match l with
  | [] => []
  | (k, v) :: l' =>
      if decide (k = key) then remove key l' else (k, v) :: remove key l'
  end.

(** [Get]: a hit moves the entry to the front. *)
Definition Get (c : LRU) (key : K) : LRU * option V :=
  match find key (evictList c) with
  | Some v =>
      (mkLRU (size c) ((key, v) :: remove key (evictList c)), Some v)
  | None => (c, None)
  end.

(** [Add]: an entry that exists is moved to the front with the new
    value; a new one is pushed at the front, and the oldest entry
    is removed when the list is longer than [size]. *)
Definition Add (c : LRU) (key : K) (value : V) : LRU :=
  match find key (evictList c) with
  | Some _ => mkLRU (size c) ((key, value) :: remove key (evictList c))
  | None =>
      let l := (key, value) :: evictList c in
      if size c <? Z.of_nat (length l)
      then mkLRU (size c) (removelast l)
      else mkLRU (size c) l
  end.

End LRU.

Global Arguments LRU : clear implicits.

End simplelru.

(** ** pkg/labels *)

Module labels.

(** Modelled from the spec: the label record of [pkg/labels], which
    is not part of the sources at hand; the spec (sections 3 and 6)
    gives it a key and a source. *)
Record Label : Type := mkLabel { Key : string; Source : string }.

#[global] Instance Label_eq_dec : EqDecision Label.
Proof. solve_decision. Defined.

(** Modelled from the spec: the two label sources and the three
    world keys, constants of [pkg/labels] (spec, section 3). *)
Definition LabelSourceCIDR : string := "cidr".
Definition LabelSourceReserved : string := "reserved".
Definition IDNameWorld : string := "world".
Definition IDNameWorldIPv4 : string := "world-ipv4".
Definition IDNameWorldIPv6 : string := "world-ipv6".

(** [type Labels map[string]Label] *)
Abbreviation Labels := (gmap string Label).

End labels.

(** ** pkg/labels/cidr *)

Module cidr.

Import labels.

Abbreviation Cache := (simplelru.LRU netip.Prefix (list Label)).

(** [maskedIPToLabel].  [ipNoColons[0]] and
    [ipNoColons[len(ipNoColons)-1]] are in range because
    [Addr.String] is never empty ([Addr_String_nonempty] below). *)
Definition maskedIPToLabel (ip : netip.Addr) (prefix : Z) : Label :=
  let ipStr := netip.Addr_String ip in
  let ipNoColons := strings.Replace ipStr ":" "-" in
  let preZero :=
    if bool_decide (bytes.first ipNoColons = Some "-"%char)
    then "0" else EmptyString in
  let postZero :=
    if bool_decide (bytes.last ipNoColons = Some "-"%char)
    then "0" else EmptyString in
  let str := preZero in
  let str := str +:+ ipNoColons in
  let str := str +:+ postZero in
  let str := str +:+ "/" in
  let str := str +:+ strconv.Itoa prefix in
  mkLabel str LabelSourceCIDR.

Definition IPStringToLabel (ip : string) : Label * option fmt.error :=
  let i := strings.LastIndexByte ip "/" in
  if i <? 0 then
    match netip.ParseAddr ip with
    | inr err =>
        (mkLabel EmptyString EmptyString,
         Some (fmt.Errorf_q_w " is not an IP address: " ip
                 (fmt.ParseAddrError err)))
    | inl parsedIP =>
        (maskedIPToLabel parsedIP (netip.Addr_BitLen parsedIP), None)
    end
  else
    match netip.ParsePrefix ip with
    | inr err =>
        (mkLabel EmptyString EmptyString,
         Some (fmt.Errorf_q_w " is not a CIDR: " ip
                 (fmt.ParsePrefixError err)))
    | inl parsedPrefix =>
        (maskedIPToLabel
           (netip.Prefix_Addr (netip.Prefix_Masked parsedPrefix))
           (netip.Prefix_Bits parsedPrefix), None)
    end.

Definition cidrLabelsCacheMaxSize : Z := 16384.

Definition worldLabelNonDualStack : Label :=
  mkLabel IDNameWorld LabelSourceReserved.
Definition worldLabelV4 : Label :=
  mkLabel IDNameWorldIPv4 LabelSourceReserved.
Definition worldLabelV6 : Label :=
  mkLabel IDNameWorldIPv6 LabelSourceReserved.

(** [addWorldLabel]; [dualStack] is what
    [option.Config.IsDualStack()] answers at this call. *)
Definition addWorldLabel (dualStack : bool) (addr : netip.Addr)
    (lbls : Labels) : Labels :=
  if negb dualStack
  then <[Key worldLabelNonDualStack := worldLabelNonDualStack]> lbls
  else if netip.Addr_Is4 addr
  then <[Key worldLabelV4 := worldLabelV4]> lbls
  else <[Key worldLabelV6 := worldLabelV6]> lbls.

(** [for _, lbl := range cachedLbls { lbls[lbl.Key] = lbl }] *)
Definition addLabels (lbls : Labels) (cachedLbls : list Label) : Labels :=
  foldl (fun lbls lbl => <[Key lbl := lbl]> lbls) lbls cachedLbls.

(** [computeCIDRLabels].  The map [lbls] and the cache are updated
    in place in Go and are returned here with the resulting slice.
    [results] is [nil] exactly when it is empty (it is [nil] at the
    first call and an [append] of a label after it).  [results[i:]]
    is in range: at level [i] the slice holds [i] labels, and the
    inner call returns at least the [i + 1] labels it is given
    ([computeCIDRLabels_rec_length] below).  The recursion stops at
    [i > ones]; [fuel] counts the levels that are left. *)
Fixpoint computeCIDRLabels_rec (fuel : nat) (cache : Cache) (lbls : Labels)
    (results : list Label) (addr : netip.Addr) (ones i : Z)
    : Cache * Labels * list Label :=
  if ones <? i then (cache, lbls, results)
  else
    match fuel with
    | O => (cache, lbls, results)
    | S fuel' =>
        let prefix := netip.PrefixFrom addr i in
        let '(cache, cached) := simplelru.Get cache prefix in
        match cached with
        | Some cachedLbls =>
            let lbls := addLabels lbls cachedLbls in
            match results with
            | [] => (cache, lbls, cachedLbls)
            | _ => (cache, lbls, results ++ cachedLbls)
            end
        | None =>
            let prefixLabel :=
              maskedIPToLabel
                (netip.Prefix_Addr (netip.Prefix_Masked prefix)) i in
            let lbls := <[Key prefixLabel := prefixLabel]> lbls in
            let '(cache, lbls, results) :=
              computeCIDRLabels_rec fuel' cache lbls
                (results ++ [prefixLabel]) addr ones (i + 1) in
            let cache :=
              simplelru.Add cache prefix (drop (Z.to_nat i) results) in
            (cache, lbls, results)
        end
    end.

Definition computeCIDRLabels (cache : Cache) (lbls : Labels)
    (results : list Label) (addr : netip.Addr) (ones i : Z)
    : Cache * Labels * list Label :=
  computeCIDRLabels_rec (Z.to_nat (ones + 1 - i)) cache lbls results
    addr ones i.

(** [GetCIDRLabels].  The package variable [cidrLabelsCache] is
    [None] until [once.Do] has built the cache; the function returns
    its new value beside the labels. *)
Definition GetCIDRLabels (dualStack : bool) (cidrLabelsCache : option Cache)
    (prefix : netip.Prefix) : option Cache * Labels :=
  let cache :=
    match cidrLabelsCache with
    | Some cache => cache
    | None => simplelru.NewLRU cidrLabelsCacheMaxSize
    end in
  let addr := netip.Prefix_Addr prefix in
  let ones := netip.Prefix_Bits prefix in
  let lbls : Labels := ∅ in
  if ones =? 0 then (Some cache, addWorldLabel dualStack addr lbls)
  else
    let '(cache, lbls, _) :=
      computeCIDRLabels cache lbls [] addr ones 0 in
    (Some cache, addWorldLabel dualStack addr lbls).

End cidr.

(** ** Calls that overlap

    [GetCIDRLabels] takes the mutex for one [cache.Get] or one
    [cache.Add] at a time, so calls made by several goroutines
    interleave at these operations.  A call in progress is kept as
    the place it has reached, with its own [lbls] and [results]; one
    step runs it up to and through its next operation on the cache. *)

Module steps.

Import netip labels cidr.

(** Where a call stands: before the body of [computeCIDRLabels] at
    level [i]; or at level [i] after the inner call has returned,
    before [cache.Add]; or after the return of the outermost
    level. *)
Inductive place : Type :=
| Lookup (i : Z)
| Insert (i : Z)
| Returned.

(** A call of [GetCIDRLabels]: the flag [option.Config.IsDualStack]
    answers, [addr] and [ones], the place, the map [lbls], the slice
    [results], and the level of the lookup of this call that found
    an entry, if one did. *)
Record call : Type := mkCall {
  call_dualStack : bool;
  call_addr : Addr;
  call_ones : Z;
  call_place : place;
  call_lbls : Labels;
  call_results : list Label;
  call_hit : option Z
}.

(** The return to the level below [i + 1]: the frame of level [i]
    goes on with its [cache.Add]; below level 0 is the return to
    [GetCIDRLabels]. *)
Definition back (i : Z) : place := if i <? 0 then Returned else Insert i.

(** The start of [GetCIDRLabels]: with [ones == 0] nothing is
    computed. *)
Definition start (dualStack : bool) (prefix : Prefix) : call :=
  let addr := Prefix_Addr prefix in
  let ones := Prefix_Bits prefix in
  mkCall dualStack addr ones (if ones =? 0 then Returned else Lookup 0)
    ∅ [] None.

(** One step of a call on the cache.  At [Lookup i] these are lines
    154 to 184 of [computeCIDRLabels]: the test [i > ones], the
    lookup under the mutex, and on a hit the return, on a miss the
    label of the level and the call of level [i + 1].  At [Insert i]
    these are lines 186 to 191: [cache.Add(prefix, results[i:])]
    under the mutex and the return.  What a step does beside its
    one operation on the cache touches the call's own [lbls] and
    [results] only.  The slice [results[i:]] is in range in every
    state that calls lead to ([callOK] and [running_OK] below). *)
Definition step (cache : Cache) (c : call) : Cache * call :=
  let '(mkCall dualStack addr ones pl lbls results hit) := c in
  match pl with
  | Lookup i =>
      if ones <? i
      then (cache, mkCall dualStack addr ones (back (i - 1)) lbls results hit)
      else
        let prefix := PrefixFrom addr i in
        let '(cache, cached) := simplelru.Get cache prefix in
        match cached with
        | Some cachedLbls =>
            let lbls := addLabels lbls cachedLbls in
            let results :=
              match results with
              | [] => cachedLbls
              | _ => results ++ cachedLbls
              end in
            (cache,
             mkCall dualStack addr ones (back (i - 1)) lbls results (Some i))
        | None =>
            let prefixLabel :=
              maskedIPToLabel (Prefix_Addr (Prefix_Masked prefix)) i in
            let lbls := <[Key prefixLabel := prefixLabel]> lbls in
            (cache,
             mkCall dualStack addr ones (Lookup (i + 1)) lbls
               (results ++ [prefixLabel]) hit)
        end
  | Insert i =>
      let prefix := PrefixFrom addr i in
      (simplelru.Add cache prefix (drop (Z.to_nat i) results),
       mkCall dualStack addr ones (back (i - 1)) lbls results hit)
  | Returned => (cache, c)
  end.

(** What [GetCIDRLabels] returns when the call has returned. *)
Definition result (c : call) : Labels :=
  addWorldLabel (call_dualStack c) (call_addr c) (call_lbls c).

(** [k] steps of one call with no other call in between. *)
Fixpoint run (k : nat) (cache : Cache) (c : call) : Cache * call :=
  match k with
  | O => (cache, c)
  | S k' => let '(cache, c) := step cache c in run k' cache c
  end.

(** The cache and the calls in progress or returned; a step of the
    call at place [j] of the list, and the steps of a schedule, which
    names the call that moves next. *)
Definition pool : Type := (Cache * list call)%type.

Definition step_at (j : nat) (s : pool) : pool :=
  match s.2 !! j with
  | Some c => let '(cache, c') := step s.1 c in (cache, <[j := c']> s.2)
  | None => s
  end.

Definition schedule (js : list nat) (s : pool) : pool :=
  foldl (fun s j => step_at j s) s js.

End steps.

(** * Definitions for the statements *)

Section statements.

Import netip labels cidr simplelru.

Implicit Types (cache : Cache) (lbls : Labels) (st : option Cache).
Implicit Types (l : list (Prefix * list Label)) (seen : list Prefix).
Implicit Types (a : Addr) (n i j : Z) (k p : Prefix).

Fixpoint digitsOnly (s : string) : bool :=
  match s with
  | EmptyString => true
  | String c s' => bytes.isDigit c && digitsOnly s'
  end.

(** The text before the ['/'] of a key. *)
Definition keyBody (ip : Addr) : string :=
  let ipNoColons := strings.Replace (Addr_String ip) ":" "-" in
  (if bool_decide (bytes.first ipNoColons = Some "-"%char)
   then "0" else EmptyString)
    +:+ ipNoColons
    +:+ (if bool_decide (bytes.last ipNoColons = Some "-"%char)
         then "0" else EmptyString).

(** An address a valid prefix can hold: not the zero address, and
    without a zone. *)
Definition addrOK (a : Addr) : Prop := z a = z4 ∨ z a = z6noz.

(** The prefixes [PrefixFrom] returns: the values of the Go type. *)
Definition wfPrefix (p : Prefix) : Prop :=
  p = PrefixFrom (Prefix_Addr p) (Prefix_Bits p).

#[global] Instance wfPrefix_dec p : Decision (wfPrefix p).
Proof. unfold wfPrefix. apply _. Defined.

(** The label of the address masked to length [j], and the labels of
    the lengths [i] to [n]. *)
Definition chainLabel a j : Label :=
  maskedIPToLabel (Prefix_Addr (Prefix_Masked (PrefixFrom a j))) j.

Definition chain a i n : list Label :=
  chainLabel a <$> seqZ i (n - i + 1).

(** The cache entries a run from level [i] to level [n] adds. *)
Definition newEntries a i n : list (Prefix * list Label) :=
  (fun j => (PrefixFrom a j, chain a j n)) <$> seqZ i (n - i + 1).

(** An entry holds, under the prefix of an address and a length [j],
    the labels of the lengths [j] to [n] of one expansion. *)
Definition entryOK (e : Prefix * list Label) : Prop :=
  ∃ a j n, addrOK a ∧ 0 ≤ j ≤ n ∧ n ≤ Addr_BitLen a ∧
           e = (PrefixFrom a j, chain a j n).

(** The key one bit shorter, on the same address. *)
Definition shorter k : Prefix :=
  PrefixFrom (Prefix_Addr k) (Prefix_Bits k - 1).

(** Every entry of a length above zero comes after the entry one
    bit shorter: among the entries of one address the shorter ones
    are the more recently used. *)
Fixpoint predClosedFrom seen l : Prop :=
  match l with
  | [] => True
  | e :: l' =>
      (0 < Prefix_Bits e.1 → shorter e.1 ∈ seen)
      ∧ predClosedFrom (e.1 :: seen) l'
  end.

Definition cacheInv cache : Prop :=
  size cache = cidrLabelsCacheMaxSize
  ∧ Z.of_nat (length (evictList cache)) ≤ size cache
  ∧ Forall entryOK (evictList cache)
  ∧ predClosedFrom [] (evictList cache).

(** The cache a call works on, and its entries. *)
Definition cacheOf st : Cache :=
  match st with
  | Some cache => cache
  | None => NewLRU cidrLabelsCacheMaxSize
  end.

Definition entries st : list (Prefix * list Label) := evictList (cacheOf st).

(** The states of the package variable that calls of [GetCIDRLabels]
    on prefixes lead to when every call returns before the next one
    starts.  The states of calls that overlap are those of [running]
    below. *)
Inductive reachable : option Cache → Prop :=
| reachable_init : reachable None
| reachable_step ds st p :
    reachable st → wfPrefix p → reachable (GetCIDRLabels ds st p).1.

(** What a call returns, by the length of the prefix and by what the
    cache holds under its address: the world label alone; or the
    labels of the entry of length zero, which moves to the front of
    the cache; or the labels of every length, with one new entry per
    length at the front of the cache. *)
Inductive expansion ds st p : option Cache * Labels → Prop :=
| expansion_world :
    Prefix_Bits p ≤ 0 →
    expansion ds st p
      (Some (cacheOf st), addWorldLabel ds (Prefix_Addr p) ∅)
| expansion_cached v :
    0 < Prefix_Bits p →
    find (PrefixFrom (Prefix_Addr p) 0) (entries st) = Some v →
    expansion ds st p
      (Some (mkLRU (size (cacheOf st))
               ((PrefixFrom (Prefix_Addr p) 0, v)
                  :: remove (PrefixFrom (Prefix_Addr p) 0) (entries st))),
       addWorldLabel ds (Prefix_Addr p) (addLabels ∅ v))
| expansion_computed :
    0 < Prefix_Bits p →
    find (PrefixFrom (Prefix_Addr p) 0) (entries st) = None →
    expansion ds st p
      (Some (mkLRU (size (cacheOf st))
               (take (Z.to_nat (size (cacheOf st)))
                  (newEntries (Prefix_Addr p) 0 (Prefix_Bits p)
                     ++ entries st))),
       addWorldLabel ds (Prefix_Addr p)
         (addLabels ∅ (chain (Prefix_Addr p) 0 (Prefix_Bits p)))).

(** The keys of a label set all hold a ['/']: the set has labels of
    prefixes only. *)
Definition cidrOnly lbls : Prop :=
  ∀ (key : string) lbl, lbls !! key = Some lbl → bytes.mem "/" key = true.

(** The address 10.0.0.0 and two of its prefixes. *)
Definition addr10 : Addr := AddrFrom4 10 0 0 0.
Definition slash8 : Prefix := PrefixFrom addr10 8.
Definition slash16 : Prefix := PrefixFrom addr10 16.

(** The state after one expansion of 10.0.0.0/8, and after one of
    10.0.0.0/16, from the start. *)
Definition after8 : option Cache := (GetCIDRLabels false None slash8).1.
Definition after16 : option Cache := (GetCIDRLabels false None slash16).1.

(** Expansions one after the other, dual-stack off. *)
Definition expandAll st ps : option Cache :=
  foldl (fun st p => (GetCIDRLabels false st p).1) st ps.

(** The entries that computed expansions of [ps] add, the last
    expansion first. *)
Definition allEntries ps : list (Prefix * list Label) :=
  mjoin (reverse ((fun p => newEntries (Prefix_Addr p) 0 (Prefix_Bits p))
                    <$> ps)).

(** The 128 host prefixes [::1/128] to [::80/128]. *)
Definition hosts6 : list Prefix :=
  (fun j => PrefixFrom (mkAddr j z6noz) 128) <$> seqZ 1 128.

(** The cache after the expansions of 10.0.0.0/16, of 10.0.0.0/8 and
    of the 128 host prefixes. *)
Definition flushed : option Cache :=
  expandAll (GetCIDRLabels false after16 slash8).1 hosts6.

(** The input has a ['/']. *)
Definition hasSlash (s : string) : bool := bytes.mem "/" s.

(** The two errors of [IPStringToLabel] for the input [s]: the
    message is the quoted input, the text of the kind and the
    message of the parser's error, which the error wraps. *)
Definition NotAnAddress (s : string) (e : fmt.error) : Prop :=
  ∃ err, ParseAddr s = inr err
         ∧ e = fmt.wrapError
                 (strconv.Quote s +:+ " is not an IP address: "
                    +:+ parseAddrError_Error err)
                 (fmt.ParseAddrError err).

Definition NotACIDR (s : string) (e : fmt.error) : Prop :=
  ∃ err, ParsePrefix s = inr err
         ∧ e = fmt.wrapError
                 (strconv.Quote s +:+ " is not a CIDR: "
                    +:+ parsePrefixError_Error err)
                 (fmt.ParsePrefixError err).

(** The bytes [strconv.Quote] copies: printable ASCII but the quote
    and the backslash. *)
Definition plainByte (c : ascii) : bool :=
  (32 <=? bytes.code c) && (bytes.code c <? 127)
  && negb (bool_decide (c = "034"%char))
  && negb (bool_decide (c = "\"%char)).

Fixpoint plain (s : string) : bool :=
  match s with
  | EmptyString => true
  | String c s' => plainByte c && plain s'
  end.

(** The three bytes [a], the quote and [b]. *)
Definition quoted_input : string := String "a" (String "034" (String "b" EmptyString)).

(** Entries of one address agree: the labels under the longer prefix
    are the tail of the labels under the shorter one. *)
Definition coherent l : Prop :=
  ∀ e1 e2, e1 ∈ l → e2 ∈ l →
    Prefix_Addr e1.1 = Prefix_Addr e2.1 → Prefix_Bits e1.1 ≤ Prefix_Bits e2.1 →
    e2.2 = drop (Z.to_nat (Prefix_Bits e2.1 - Prefix_Bits e1.1)) e1.2.

(** The world label [addWorldLabel] chooses. *)
Definition worldLabelFor (ds : bool) (a : Addr) : Label :=
  if negb ds then worldLabelNonDualStack
  else if Addr_Is4 a then worldLabelV4 else worldLabelV6.

(** The decimal text of one byte of an IPv4 address. *)
Definition decimal (x : Z) : string := appendDecimal EmptyString x.

(** The bytes of the text of an IPv4 address: digits and dots. *)
Definition dotDigit (c : ascii) : bool :=
  bytes.isDigit c || bool_decide (c = "."%char).

Fixpoint dotDigits (s : string) : bool :=
  match s with
  | EmptyString => true
  | String c s' => dotDigit c && dotDigits s'
  end.

Import steps.

(** The states that calls of [GetCIDRLabels] on prefixes lead to
    when they may overlap: a new call may start and any call may
    take its next step at any time. *)
Inductive running : pool → Prop :=
| running_init : running (simplelru.NewLRU cidrLabelsCacheMaxSize, [])
| running_start ds p s :
    running s → wfPrefix p → running (s.1, s.2 ++ [start ds p])
| running_step (j : nat) s : running s → running (step_at j s).

(** The label of the address of a call masked to the length [i]. *)
Definition call_label (c : call) (i : Z) : Label :=
  maskedIPToLabel
    (Prefix_Addr (Prefix_Masked (PrefixFrom (call_addr c) i))) i.

(** The world label of a call. *)
Definition call_world (c : call) : Label :=
  if negb (call_dualStack c) then worldLabelNonDualStack
  else if Addr_Is4 (call_addr c) then worldLabelV4 else worldLabelV6.

(** The entries of a cache are those of expansions: each holds under
    the key of an address and a length the labels of that address
    from that length on; and the cache has its capacity and distinct
    keys. *)
Definition cacheOK (cache : Cache) : Prop :=
  simplelru.size cache = cidrLabelsCacheMaxSize
  ∧ Z.of_nat (length (simplelru.evictList cache)) ≤ simplelru.size cache
  ∧ Forall entryOK (simplelru.evictList cache)
  ∧ NoDup (simplelru.evictList cache).*1.

(** What a call in progress holds, by its place: the labels of the
    lengths below [i] before the lookup of level [i]; after a
    return the labels of the lengths zero to some [m], which is
    [ones] unless a lookup found an entry; and the insertions are
    those of the levels up to [ones]. *)
Definition callOK (c : call) : Prop :=
  let a := call_addr c in
  let n := call_ones c in
  call_lbls c = addLabels ∅ (call_results c)
  ∧ match call_place c with
    | Lookup i =>
        call_hit c = None ∧ call_results c = chain a 0 (i - 1)
        ∧ ((n < 0 ∧ i = 0) ∨ (addrOK a ∧ 0 < n ≤ Addr_BitLen a ∧ 0 ≤ i ≤ n + 1))
    | Insert i =>
        addrOK a ∧ 0 < n ≤ Addr_BitLen a ∧ i ≤ n
        ∧ ∃ m, 0 ≤ i ≤ m ∧ m ≤ Addr_BitLen a
               ∧ call_results c = chain a 0 m
               ∧ (call_hit c = None → m = n)
    | Returned =>
        (n ≤ 0 ∧ call_results c = [] ∧ call_hit c = None)
        ∨ (addrOK a ∧ 0 < n ≤ Addr_BitLen a
           ∧ ∃ m, 0 ≤ m ≤ Addr_BitLen a
                  ∧ call_results c = chain a 0 m
                  ∧ (call_hit c = None → m = n))
    end.

(** A bound on the steps a call has left: before the lookup of level
    [i] the lookups of the levels [i] to [ones], the test that ends
    them and the insertions of the levels [ones] to 0; before the
    insertion of level [i] the insertions of the levels [i] to 0. *)
Definition steps_left (c : call) : Z :=
  match call_place c with
  | Lookup i =>
      Z.max 0 (call_ones c + 1 - i) + Z.max 0 (call_ones c + 1) + 1
  | Insert i => i + 1
  | Returned => 0
  end.

(** One call for 10.0.0.0/8 from the start, run to its return. *)
Definition alone8 : pool :=
  schedule (replicate 19 0%nat)
    (simplelru.NewLRU cidrLabelsCacheMaxSize, [start false slash8]).

(** Two calls that overlap, for 10.0.0.0/8 and for 10.0.0.0/16: the
    first call misses at every level and has stored the entries of
    the lengths 8, 7 and 6 when the second call starts; the second
    one misses at the levels 0 to 5 and finds the entry of length
    6.  It is about to store the entry of length 5. *)
Definition overlap : pool :=
  schedule (replicate 13 0%nat ++ replicate 7 1%nat)
    (simplelru.NewLRU cidrLabelsCacheMaxSize,
     [start false slash8; start false slash16]).

(** The second call has returned. *)
Definition overlap_returned : pool := schedule (replicate 6 1%nat) overlap.

(** The call for 10.0.0.0/8 that ran alone; the same call after 15
    steps, about to store the entry of length 3; and the second of
    the overlapping calls, before it stores the entry of length 5 and
    after its return. *)
Definition returned8 : call := default (start false slash8) (alone8.2 !! 0%nat).



Definition overlap16 : call :=
  default (start false slash16) (overlap.2 !! 1%nat).

Definition returned16 : call :=
  default (start false slash16) (overlap_returned.2 !! 1%nat).

End statements.

(** * Properties *)

(** ** Strings *)

Section string_facts.

Implicit Types (s t d : string) (c : ascii).

Lemma app_nil_l_s s : EmptyString +:+ s = s.
Proof. reflexivity. Qed.

Lemma app_cons_s c s t : String c s +:+ t = String c (s +:+ t).
Proof. reflexivity. Qed.

Lemma app_nil_r_s s : s +:+ EmptyString = s.
Proof. induction s as [|c s IH]; [done|]. by rewrite app_cons_s, IH. Qed.

Lemma app_assoc_s s t d : (s +:+ t) +:+ d = s +:+ t +:+ d.
Proof.
  induction s as [|c s IH]; [done|]. by rewrite !app_cons_s, IH.
Qed.

Lemma mem_app_s c s t : bytes.mem c (s +:+ t) = bytes.mem c s || bytes.mem c t.
Proof.
  induction s as [|a s IH]; [done|].
  rewrite app_cons_s. simpl. rewrite IH. by rewrite orb_assoc.
Qed.

Lemma first_app_s s t :
  s ≠ EmptyString → bytes.first (s +:+ t) = bytes.first s.
Proof. by destruct s. Qed.

Lemma last_cons_s c s :
  s ≠ EmptyString → bytes.last (String c s) = bytes.last s.
Proof. by destruct s. Qed.

Lemma app_nonempty_r_s s t : t ≠ EmptyString → s +:+ t ≠ EmptyString.
Proof. by destruct s, t. Qed.

Lemma last_app_s s t :
  t ≠ EmptyString → bytes.last (s +:+ t) = bytes.last t.
Proof.
  intros Ht. induction s as [|c s IH]; [done|].
  rewrite app_cons_s, last_cons_s; [done|]. by apply app_nonempty_r_s.
Qed.

Lemma mem_app_mid_s c s t : bytes.mem c (s +:+ String c t) = true.
Proof.
  rewrite mem_app_s. simpl. rewrite bool_decide_eq_true_2 by done.
  apply orb_true_r.
Qed.

(** A string is cut in one way only at its last ['/']. *)
Lemma app_slash_inj s t d1 d2 :
  bytes.mem "/" d1 = false → bytes.mem "/" d2 = false →
  s +:+ "/" +:+ d1 = t +:+ "/" +:+ d2 → s = t ∧ d1 = d2.
Proof.
  intros H1 H2. revert t.
  induction s as [|c s IH]; intros [|c' t]; rewrite ?app_cons_s, ?app_nil_l_s.
  - by intros [= ->].
  - intros [= <- ->]. by rewrite mem_app_mid_s in H1.
  - intros [= -> <-]. by rewrite mem_app_mid_s in H2.
  - intros [= -> Heq]. destruct (IH _ Heq) as [-> ->]. done.
Qed.

Lemma Replace_nonempty s a b :
  s ≠ EmptyString → strings.Replace s a b ≠ EmptyString.
Proof. by destruct s. Qed.

Lemma LastIndexByte_ge c s : -1 ≤ strings.LastIndexByte s c.
Proof.
  induction s as [|d s IH]; simpl; [lia|].
  repeat case_match; lia.
Qed.

(** [LastIndexByte] is negative exactly when the byte does not
    occur. *)
Lemma LastIndexByte_neg c s :
  strings.LastIndexByte s c < 0 ↔ bytes.mem c s = false.
Proof.
  induction s as [|d s [IH1 IH2]]; simpl; [done|].
  pose proof (LastIndexByte_ge c s).
  destruct (Z.leb_spec 0 (strings.LastIndexByte s c)) as [Hle|Hlt].
  - destruct (bytes.mem c s) eqn:Hm.
    + rewrite orb_true_r. split; [lia|done].
    + specialize (IH2 eq_refl). lia.
  - rewrite (IH1 Hlt), orb_false_r.
    case_bool_decide; split; (done || lia).
Qed.

End string_facts.

(** ** Decimal numbers *)

Section Itoa_facts.

Lemma pretty_N_char_digit x : bytes.isDigit (pretty_N_char x) = true.
Proof. unfold pretty_N_char. by repeat case_match. Qed.

Lemma pretty_N_go_digits x s :
  digitsOnly s = true → digitsOnly (pretty_N_go x s) = true.
Proof.
  revert s. induction (N.lt_wf_0 x) as [x _ IH]; intros s Hs.
  destruct (decide (x = 0)%N) as [->|Hx]; [done|].
  rewrite pretty_N_go_step by lia. apply IH.
  - apply N.div_lt; lia.
  - simpl. by rewrite pretty_N_char_digit.
Qed.

Lemma pretty_N_go_nonempty x s :
  s ≠ EmptyString → pretty_N_go x s ≠ EmptyString.
Proof.
  revert s. induction (N.lt_wf_0 x) as [x _ IH]; intros s Hs.
  destruct (decide (x = 0)%N) as [->|Hx]; [done|].
  rewrite pretty_N_go_step by lia. apply IH; [|done].
  apply N.div_lt; lia.
Qed.

Lemma pretty_N_digits (x : N) :
  digitsOnly (pretty x) = true ∧ pretty x ≠ EmptyString.
Proof.
  unfold pretty, pretty_N. case_decide as Hx; [done|]. split.
  - by apply pretty_N_go_digits.
  - rewrite pretty_N_go_step by lia. by apply pretty_N_go_nonempty.
Qed.

(** [Itoa] writes digits, after a ["-"] for a negative number. *)
Lemma Itoa_shape i :
  ∃ d, digitsOnly d = true ∧ d ≠ EmptyString ∧
       (strconv.Itoa i = d ∨ strconv.Itoa i = "-" +:+ d).
Proof.
  unfold strconv.Itoa, pretty. destruct i as [|p|p]; simpl.
  - exists "0". by auto.
  - destruct (pretty_N_digits (N.pos p)) as [? ?].
    exists (pretty (N.pos p)). by auto.
  - destruct (pretty_N_digits (N.pos p)) as [? ?].
    exists (pretty (N.pos p)). by auto.
Qed.

Lemma digitsOnly_mem c d :
  digitsOnly d = true → bytes.isDigit c = false → bytes.mem c d = false.
Proof.
  intros Hd Hc. induction d as [|a d IH]; [done|]. simpl in *.
  apply andb_true_iff in Hd as [Ha Hd]. rewrite IH by done.
  case_bool_decide; [congruence|done].
Qed.

Lemma digitsOnly_last d c :
  digitsOnly d = true → bytes.last d = Some c → bytes.isDigit c = true.
Proof.
  induction d as [|a d IH]; [done|]. simpl. intros Hd.
  apply andb_true_iff in Hd as [Ha Hd]. destruct d; [by intros [= <-]|].
  by apply IH.
Qed.

Lemma Itoa_no_slash i : bytes.mem "/" (strconv.Itoa i) = false.
Proof.
  destruct (Itoa_shape i) as (d & Hd & _ & [-> | ->]).
  - by apply digitsOnly_mem.
  - rewrite mem_app_s. simpl. by apply digitsOnly_mem.
Qed.

Lemma Itoa_nonempty i : strconv.Itoa i ≠ EmptyString.
Proof. destruct (Itoa_shape i) as (d & _ & Hne & [-> | ->]); done. Qed.

Lemma Itoa_last i c :
  bytes.last (strconv.Itoa i) = Some c → bytes.isDigit c = true.
Proof.
  destruct (Itoa_shape i) as (d & Hd & Hne & [-> | ->]).
  - by apply digitsOnly_last.
  - rewrite last_app_s by done. by apply digitsOnly_last.
Qed.

Lemma Itoa_inj i j : strconv.Itoa i = strconv.Itoa j → i = j.
Proof. apply pretty_Z_inj. Qed.

End Itoa_facts.

(** ** Addresses and label keys *)

Section key_facts.

Import netip labels cidr.

Lemma appendDecimal_nonempty b x : appendDecimal b x ≠ EmptyString.
Proof. unfold appendDecimal. by apply app_nonempty_r_s. Qed.

Lemma appendHex_nonempty b x : appendHex b x ≠ EmptyString.
Proof. unfold appendHex. by apply app_nonempty_r_s. Qed.

Lemma appendGroups_nonempty fuel ip zs ze i ret :
  ret ≠ EmptyString → appendGroups fuel ip zs ze i ret ≠ EmptyString.
Proof.
  revert i ret. induction fuel as [|fuel IH]; intros i ret Hret; [done|].
  simpl. repeat case_match; try done.
  - by apply app_nonempty_r_s.
  - apply IH, appendHex_nonempty.
  - apply IH, appendHex_nonempty.
  - apply IH, appendHex_nonempty.
Qed.

Lemma appendGroups_first fuel ip zs ze :
  appendGroups (S fuel) ip zs ze 0 EmptyString ≠ EmptyString.
Proof.
  simpl. repeat case_match; try done;
    apply appendGroups_nonempty, appendHex_nonempty.
Qed.

Lemma string6_nonempty ip : string6 ip ≠ EmptyString.
Proof.
  unfold string6. destruct (zeroSpan ip) as [zs ze].
  pose proof (appendGroups_first 7 ip zs ze) as Hg.
  case_bool_decide; [done|].
  destruct (appendGroups 8 ip zs ze 0 EmptyString); done.
Qed.

(** [Addr.String] never returns the empty string, so the two index
    expressions of [maskedIPToLabel] are in range. *)
Lemma Addr_String_nonempty ip : Addr_String ip ≠ EmptyString.
Proof.
  unfold Addr_String. destruct (z ip); try done.
  - apply appendDecimal_nonempty.
  - case_match; [|apply string6_nonempty].
    unfold string4In6. by case_bool_decide.
  - case_match; [|apply string6_nonempty].
    unfold string4In6. by case_bool_decide.
Qed.

Lemma maskedIPToLabel_Key ip prefix :
  Key (maskedIPToLabel ip prefix)
  = keyBody ip +:+ "/" +:+ strconv.Itoa prefix.
Proof.
  unfold maskedIPToLabel, keyBody. simpl. by rewrite !app_assoc_s.
Qed.

Lemma maskedIPToLabel_Key_slash ip prefix :
  bytes.mem "/" (Key (maskedIPToLabel ip prefix)) = true.
Proof. rewrite maskedIPToLabel_Key. apply mem_app_mid_s. Qed.

(** Keys of different mask lengths differ. *)
Lemma maskedIPToLabel_Key_inj ip1 ip2 n1 n2 :
  Key (maskedIPToLabel ip1 n1) = Key (maskedIPToLabel ip2 n2) → n1 = n2.
Proof.
  rewrite !maskedIPToLabel_Key. intros Heq.
  apply app_slash_inj in Heq as [_ Heq]; auto using Itoa_no_slash.
  by apply Itoa_inj.
Qed.

Lemma keyBody_first ip : bytes.first (keyBody ip) ≠ Some "-"%char.
Proof.
  unfold keyBody.
  pose proof (Replace_nonempty _ ":" "-" (Addr_String_nonempty ip)) as Hne.
  case_bool_decide as Hf; [done|].
  rewrite app_nil_l_s, first_app_s; done.
Qed.

Lemma keyBody_nonempty ip : keyBody ip ≠ EmptyString.
Proof.
  unfold keyBody.
  pose proof (Replace_nonempty _ ":" "-" (Addr_String_nonempty ip)) as Hne.
  destruct (strings.Replace (Addr_String ip) ":" "-"); [done|].
  by case_bool_decide.
Qed.

End key_facts.

(** ** The cache *)

Section lru_facts.

Context {K V : Type} `{EqDecision K}.

Implicit Types (l : list (K * V)) (k : K) (v : V).

Import simplelru.

Lemma find_None k l : find k l = None ↔ k ∉ l.*1.
Proof.
  induction l as [|[k' v'] l IH]; simpl.
  - split; [intros _; apply not_elem_of_nil|done].
  - rewrite not_elem_of_cons, <-IH.
    case_decide; intuition (subst; congruence).
Qed.

Lemma find_Some k v l : find k l = Some v → (k, v) ∈ l.
Proof.
  induction l as [|[k' v'] l IH]; simpl; [done|].
  case_decide; [intros [= ->]; subst; left|right; auto].
Qed.

Lemma elem_of_remove k e l : e ∈ remove k l ↔ e ∈ l ∧ e.1 ≠ k.
Proof.
  induction l as [|[k' v'] l IH]; simpl.
  - rewrite elem_of_nil. tauto.
  - case_decide; rewrite ?elem_of_cons, IH;
      intuition (subst; simpl in *; congruence).
Qed.

Lemma length_remove k l : (length (remove k l) ≤ length l)%nat.
Proof.
  induction l as [|[k' v'] l IH]; simpl; [done|]. case_decide; simpl; lia.
Qed.

Lemma length_remove_lt k l :
  k ∈ l.*1 → (length (remove k l) < length l)%nat.
Proof.
  induction l as [|[k' v'] l IH]; simpl; [by intros ?%elem_of_nil|].
  pose proof (length_remove k l).
  case_decide; simpl; [lia|]. intros [?|?]%elem_of_cons; [done|].
  specialize (IH ltac:(done)). lia.
Qed.

(** Pushing an entry at the front of a list that fits and removing
    the oldest entry when the list has become too long keeps the
    first [size] entries. *)
Lemma push_front_take (n : Z) (e : K * V) l :
  0 ≤ n → (Z.of_nat (length l) ≤ n) →
  (if n <? Z.of_nat (length (e :: l)) then removelast (e :: l) else e :: l)
  = take (Z.to_nat n) (e :: l).
Proof.
  intros Hn Hl. destruct (Z.ltb_spec n (Z.of_nat (length (e :: l)))) as [Hlt|Hge].
  - simpl length in Hlt.
    assert (Z.to_nat n = length l) as -> by lia.
    clear. revert e. induction l as [|e' l IH]; intros e; [done|].
    change (removelast (e :: e' :: l)) with (e :: removelast (e' :: l)).
    rewrite IH. done.
  - rewrite take_ge; [done|]. simpl length in *. lia.
Qed.

Lemma Add_absent (c : LRU K V) k v :
  0 ≤ size c → Z.of_nat (length (evictList c)) ≤ size c →
  k ∉ (evictList c).*1 →
  Add c k v
  = mkLRU (size c) (take (Z.to_nat (size c)) ((k, v) :: evictList c)).
Proof.
  intros Hn Hl Hk. unfold Add. apply find_None in Hk. rewrite Hk.
  rewrite <-(push_front_take (size c) (k, v)) by done.
  by case_match.
Qed.

Lemma Get_absent (c : LRU K V) k :
  k ∉ (evictList c).*1 → Get c k = (c, None).
Proof. intros Hk. unfold Get. apply find_None in Hk. by rewrite Hk. Qed.

End lru_facts.

(** ** Prefixes *)

Section prefix_facts.

Import netip.

Lemma withoutZone_idemp a : withoutZone (withoutZone a) = withoutZone a.
Proof. by destruct a as [n []]. Qed.

Lemma withoutZone_isZero a : isZero (withoutZone a) = isZero a.
Proof. by destruct a as [n []]. Qed.

Lemma withoutZone_BitLen a : Addr_BitLen (withoutZone a) = Addr_BitLen a.
Proof. by destruct a as [n []]. Qed.

Lemma PrefixFrom_wf a bits : wfPrefix (PrefixFrom a bits).
Proof.
  unfold wfPrefix, PrefixFrom, Prefix_Addr, Prefix_Bits. simpl.
  rewrite withoutZone_idemp, withoutZone_isZero, withoutZone_BitLen.
  f_equal.
  destruct (negb (isZero a) && (0 <=? bits) && (bits <=? Addr_BitLen a))
    eqn:Hc.
  - replace (bits + 1 - 1) with bits by lia. by rewrite Hc.
  - replace (0 - 1) with (-1) by lia.
    by rewrite andb_false_r.
Qed.

Lemma PrefixFrom_ok a j :
  addrOK a → 0 ≤ j ≤ Addr_BitLen a → PrefixFrom a j = mkPrefix a (j + 1).
Proof.
  intros Ha [Hj1 Hj2]. unfold PrefixFrom.
  rewrite (proj2 (Z.leb_le 0 j)), (proj2 (Z.leb_le j _)) by done.
  destruct a as [n zz]. by destruct Ha as [Hz|Hz]; simpl in Hz; subst zz.
Qed.

Lemma wfPrefix_valid p :
  wfPrefix p → 0 ≤ Prefix_Bits p →
  addrOK (Prefix_Addr p) ∧ Prefix_Bits p ≤ Addr_BitLen (Prefix_Addr p).
Proof.
  destruct p as [a b]. unfold wfPrefix, PrefixFrom, Prefix_Addr, Prefix_Bits.
  simpl. intros Heq Hb.
  injection Heq as Ha Hbits.
  destruct (negb (isZero a)) eqn:Hz; simpl in Hbits; [|lia].
  destruct (0 <=? b - 1) eqn:H0; simpl in Hbits; [|lia].
  destruct (Z.leb_spec (b - 1) (Addr_BitLen a)); [|lia].
  split; [|done].
  destruct a as [n []]; unfold addrOK; simpl in *; auto; done.
Qed.

End prefix_facts.

(** ** The recursion of [computeCIDRLabels] *)

Section compute_facts.

Import netip labels cidr simplelru.

Implicit Types (cache : Cache) (lbls : Labels) (results : list Label).
Implicit Types (a : Addr) (n i j : Z).

(** The recursive equation of the source: the fuel of the model
    never runs out before [i > ones]. *)
Lemma computeCIDRLabels_eq cache lbls results a ones i :
  computeCIDRLabels cache lbls results a ones i
  = if ones <? i then (cache, lbls, results)
    else
      let prefix := PrefixFrom a i in
      let '(cache, cached) := Get cache prefix in
      match cached with
      | Some cachedLbls =>
          let lbls := addLabels lbls cachedLbls in
          match results with
          | [] => (cache, lbls, cachedLbls)
          | _ => (cache, lbls, results ++ cachedLbls)
          end
      | None =>
          let prefixLabel :=
            maskedIPToLabel (Prefix_Addr (Prefix_Masked prefix)) i in
          let lbls := <[Key prefixLabel := prefixLabel]> lbls in
          let '(cache, lbls, results) :=
            computeCIDRLabels cache lbls (results ++ [prefixLabel])
              a ones (i + 1) in
          let cache := Add cache prefix (drop (Z.to_nat i) results) in
          (cache, lbls, results)
      end.
Proof.
  unfold computeCIDRLabels.
  destruct (Z.ltb_spec ones i) as [Hlt|Hge].
  - destruct (Z.to_nat (ones + 1 - i)); cbn [computeCIDRLabels_rec];
      by rewrite (proj2 (Z.ltb_lt ones i)).
  - replace (Z.to_nat (ones + 1 - i))
      with (S (Z.to_nat (ones + 1 - (i + 1)))) by lia.
    cbn [computeCIDRLabels_rec]. by rewrite (proj2 (Z.ltb_ge ones i)).
Qed.

Lemma chain_nil a i n : n < i → chain a i n = [].
Proof. intros. unfold chain. by rewrite seqZ_nil by lia. Qed.

Lemma chain_cons a i n :
  i ≤ n → chain a i n = chainLabel a i :: chain a (i + 1) n.
Proof.
  intros. unfold chain. rewrite seqZ_cons by lia. simpl.
  do 3 f_equal; lia.
Qed.

Lemma length_chain a i n : i ≤ n + 1 → Z.of_nat (length (chain a i n)) = n - i + 1.
Proof. intros. unfold chain. rewrite length_fmap, length_seqZ. lia. Qed.

Lemma elem_of_chain a i n lbl :
  lbl ∈ chain a i n ↔ ∃ j, i ≤ j ≤ n ∧ lbl = chainLabel a j.
Proof.
  unfold chain. rewrite list_elem_of_fmap. setoid_rewrite elem_of_seqZ.
  split; intros (j & ? & ?); exists j; split; (done || lia).
Qed.

Lemma newEntries_nil a i n : n < i → newEntries a i n = [].
Proof. intros. unfold newEntries. by rewrite seqZ_nil by lia. Qed.

Lemma newEntries_cons a i n :
  i ≤ n →
  newEntries a i n = (PrefixFrom a i, chain a i n) :: newEntries a (i + 1) n.
Proof.
  intros. unfold newEntries. rewrite seqZ_cons by lia. simpl.
  do 3 f_equal; lia.
Qed.

Lemma elem_of_newEntries a i n e :
  e ∈ newEntries a i n ↔ ∃ j, i ≤ j ≤ n ∧ e = (PrefixFrom a j, chain a j n).
Proof.
  unfold newEntries. rewrite list_elem_of_fmap. setoid_rewrite elem_of_seqZ.
  split; intros (j & ? & ?); exists j; split; (done || lia).
Qed.

Lemma take_cons_take {A} (m : nat) (x : A) (l : list A) :
  take m (x :: take m l) = take m (x :: l).
Proof.
  destruct m as [|m]; [done|]. simpl. f_equal.
  rewrite take_take. f_equal. lia.
Qed.

(** A run returns at least the labels it is given. *)
Lemma computeCIDRLabels_rec_length fuel :
  ∀ cache lbls results a n i,
    (length results
     ≤ length (computeCIDRLabels_rec fuel cache lbls results a n i).2)%nat.
Proof.
  induction fuel as [|fuel IH]; intros cache lbls results a n i;
    cbn [computeCIDRLabels_rec].
  - by destruct (n <? i).
  - destruct (n <? i); [done|].
    destruct (Get cache (PrefixFrom a i)) as [cache' [cachedLbls|]].
    + destruct results; cbn [snd length]; [lia|]. rewrite length_app.
      cbn [length]. lia.
    + fold (chainLabel a i).
      specialize (IH cache'
        (<[Key (chainLabel a i) := chainLabel a i]> lbls)
        (results ++ [chainLabel a i]) a n (i + 1)).
      destruct (computeCIDRLabels_rec fuel _ _ _ a n (i + 1)) as [[c2 l2] r2].
      cbn [snd] in *. rewrite length_app in IH. cbn [length] in IH. lia.
Qed.

(** A run that finds none of its prefixes in the cache computes
    every label and stores one entry per level. *)
Lemma computeCIDRLabels_rec_miss fuel :
  ∀ cache lbls results a n i,
    fuel = Z.to_nat (n + 1 - i) →
    addrOK a → 0 ≤ i → n ≤ Addr_BitLen a →
    0 ≤ size cache → Z.of_nat (length (evictList cache)) ≤ size cache →
    (∀ j, i ≤ j ≤ n → PrefixFrom a j ∉ (evictList cache).*1) →
    length results = Z.to_nat i →
    computeCIDRLabels_rec fuel cache lbls results a n i
    = (mkLRU (size cache)
         (take (Z.to_nat (size cache)) (newEntries a i n ++ evictList cache)),
       addLabels lbls (chain a i n),
       results ++ chain a i n).
Proof.
  induction fuel as [|fuel IH];
    intros cache lbls results a n i Hfuel Ha Hi Hn Hsz Hlen Hmiss Hres.
  - assert (n < i) as Hlt by lia.
    rewrite chain_nil, newEntries_nil, app_nil_r by done. simpl.
    rewrite take_ge by lia. destruct cache.
    by destruct (n <? i).
  - assert (i ≤ n) as Hle by lia.
    cbn [computeCIDRLabels_rec].
    rewrite (proj2 (Z.ltb_ge n i)) by done.
    rewrite Get_absent by (apply Hmiss; lia).
    rewrite (IH cache _ _ a n (i + 1)); try done; try lia.
    2:{ intros j Hj. apply Hmiss. lia. }
    2:{ rewrite length_app. simpl. lia. }
    cbn zeta beta iota.
    rewrite Add_absent; cbn [size evictList].
    + rewrite <-app_assoc, drop_app_length' by done.
      fold (chainLabel a i). simpl "++" at 1.
      rewrite take_cons_take, <-(chain_cons a i n) by done.
      rewrite (newEntries_cons a i n) by done.
      f_equal; [f_equal|].
      * by rewrite (chain_cons a i n).
      * by rewrite (chain_cons a i n).
    + done.
    + rewrite length_take. lia.
    + intros Hin.
      rewrite fmap_take in Hin. apply subseteq_take in Hin.
      rewrite fmap_app, elem_of_app in Hin. destruct Hin as [Hin|Hin].
      * apply list_elem_of_fmap in Hin as (e & He1 & He2).
        apply elem_of_newEntries in He2 as (j & Hj & ->). simpl in He1.
        rewrite !PrefixFrom_ok in He1 by (done || lia).
        injection He1 as He1. lia.
      * by apply (Hmiss i).
Qed.

End compute_facts.

(** ** The invariant of the cache *)

Section cache_invariant.

Import netip labels cidr simplelru.

Implicit Types (cache : Cache) (lbls : Labels) (results : list Label).
Implicit Types (l : list (Prefix * list Label)) (seen : list Prefix).
Implicit Types (a : Addr) (n i j : Z) (k : Prefix).

Lemma predClosedFrom_mono seen seen' l :
  seen ⊆ seen' → predClosedFrom seen l → predClosedFrom seen' l.
Proof.
  revert seen seen'. induction l as [|e l IH]; intros seen seen' Hsub; [done|].
  simpl. intros [H1 H2]. split; [auto|].
  eapply IH; [|done]. by apply list_subseteq_skip.
Qed.

Lemma predClosedFrom_app seen l1 l2 :
  predClosedFrom seen (l1 ++ l2)
  ↔ predClosedFrom seen l1 ∧ predClosedFrom (reverse l1.*1 ++ seen) l2.
Proof.
  revert seen. induction l1 as [|e l1 IH]; intros seen; simpl.
  - tauto.
  - rewrite IH, reverse_cons, <-app_assoc. simpl. tauto.
Qed.

Lemma predClosedFrom_take seen l (m : nat) :
  predClosedFrom seen l → predClosedFrom seen (take m l).
Proof.
  rewrite <-(take_drop m l) at 1. rewrite predClosedFrom_app. tauto.
Qed.

Lemma predClosedFrom_remove seen l k :
  k ∈ seen → predClosedFrom seen l → predClosedFrom seen (remove k l).
Proof.
  revert seen. induction l as [|[k' v'] l IH]; intros seen Hk; [done|].
  simpl. intros [H1 H2]. case_decide as Hd.
  - subst k'. apply IH; [done|].
    eapply predClosedFrom_mono; [|done].
    intros x [->|?]%elem_of_cons; done.
  - simpl. split; [done|]. apply IH; [by right|done].
Qed.

Lemma predClosedFrom_elem seen l e :
  predClosedFrom seen l → e ∈ l → 0 < Prefix_Bits e.1 →
  shorter e.1 ∈ seen ∨ shorter e.1 ∈ l.*1.
Proof.
  revert seen. induction l as [|e' l IH]; intros seen; [by intros _ ?%elem_of_nil|].
  simpl. intros [H1 H2] Hin Hb.
  apply elem_of_cons in Hin as [->|Hin]; [left; auto|].
  destruct (IH _ H2 Hin Hb) as [Hs|Hs].
  - apply elem_of_cons in Hs as [->|Hs]; [right; left|by left].
  - right. by right.
Qed.

Lemma shorter_PrefixFrom a j :
  addrOK a → 0 < j ≤ Addr_BitLen a →
  shorter (PrefixFrom a j) = PrefixFrom a (j - 1).
Proof.
  intros Ha Hj. unfold shorter. rewrite (PrefixFrom_ok a j) by (done || lia).
  unfold Prefix_Addr, Prefix_Bits. simpl. f_equal. lia.
Qed.

Lemma Prefix_Bits_PrefixFrom a j :
  addrOK a → 0 ≤ j ≤ Addr_BitLen a → Prefix_Bits (PrefixFrom a j) = j.
Proof.
  intros. rewrite PrefixFrom_ok by done. unfold Prefix_Bits. simpl. lia.
Qed.

Lemma predClosedFrom_newEntries a n (m : nat) :
  ∀ i seen,
    addrOK a → n ≤ Addr_BitLen a → 0 ≤ i → m = Z.to_nat (n + 1 - i) →
    (0 < i → PrefixFrom a (i - 1) ∈ seen) →
    predClosedFrom seen (newEntries a i n).
Proof.
  induction m as [|m IH]; intros i seen Ha Hn Hi Hm Hseen.
  - by rewrite newEntries_nil by lia.
  - rewrite newEntries_cons by lia. simpl. split.
    + rewrite Prefix_Bits_PrefixFrom by (done || lia). intros ?.
      rewrite shorter_PrefixFrom by (done || lia). auto.
    + apply IH; try done; try lia.
      intros _. replace (i + 1 - 1) with i by lia. left.
Qed.

(** With an entry of some length of an address, the cache holds the
    entry of length zero of that address. *)
Lemma cacheInv_closed cache a (m : nat) :
  ∀ j, cacheInv cache → addrOK a → m = Z.to_nat j → 0 ≤ j ≤ Addr_BitLen a →
       PrefixFrom a j ∈ (evictList cache).*1 →
       PrefixFrom a 0 ∈ (evictList cache).*1.
Proof.
  induction m as [|m IH]; intros j Hinv Ha Hm Hj Hin.
  - by replace j with 0 in Hin by lia.
  - apply (IH (j - 1)); try done; try lia.
    apply list_elem_of_fmap in Hin as (e & He & Hin).
    destruct Hinv as (_ & _ & _ & Hpc).
    destruct (predClosedFrom_elem [] _ e Hpc Hin) as [?%elem_of_nil|Hs]; [|done|].
    + rewrite <-He, Prefix_Bits_PrefixFrom by (done || lia). lia.
    + rewrite <-He, shorter_PrefixFrom in Hs by (done || lia). done.
Qed.

Lemma addrOK_BitLen a : addrOK a → 32 ≤ Addr_BitLen a ≤ 128.
Proof. unfold Addr_BitLen. intros [-> | ->]; lia. Qed.

Lemma cacheInv_new : cacheInv (NewLRU cidrLabelsCacheMaxSize).
Proof. repeat split; simpl; (done || constructor). Qed.

(** A run that finds the prefix of length zero in the cache takes
    the cached labels and computes nothing. *)
Lemma computeCIDRLabels_hit cache lbls a n v :
  0 ≤ n → find (PrefixFrom a 0) (evictList cache) = Some v →
  computeCIDRLabels cache lbls [] a n 0
  = (mkLRU (size cache)
       ((PrefixFrom a 0, v) :: remove (PrefixFrom a 0) (evictList cache)),
     addLabels lbls v, v).
Proof.
  intros Hn Hf. rewrite computeCIDRLabels_eq.
  rewrite (proj2 (Z.ltb_ge n 0)) by done.
  cbn zeta. unfold Get. by rewrite Hf.
Qed.

Lemma computeCIDRLabels_miss cache lbls a n :
  cacheInv cache → addrOK a → 0 ≤ n ≤ Addr_BitLen a →
  find (PrefixFrom a 0) (evictList cache) = None →
  computeCIDRLabels cache lbls [] a n 0
  = (mkLRU (size cache)
       (take (Z.to_nat (size cache)) (newEntries a 0 n ++ evictList cache)),
     addLabels lbls (chain a 0 n), chain a 0 n).
Proof.
  intros Hinv Ha Hn Hf. unfold computeCIDRLabels.
  destruct (Hinv) as (Hsz & Hlen & _ & _).
  rewrite (computeCIDRLabels_rec_miss _ cache lbls [] a n 0);
    try done; try lia.
  intros j Hj Hin. apply find_None in Hf. apply Hf.
  by apply (cacheInv_closed cache a (Z.to_nat j) j); try lia.
Qed.

Lemma entryOK_newEntries a i n e :
  addrOK a → 0 ≤ i → n ≤ Addr_BitLen a →
  e ∈ newEntries a i n → entryOK e.
Proof.
  intros Ha Hi Hn (j & Hj & ->)%elem_of_newEntries.
  exists a, j, n. repeat split; (done || lia).
Qed.

Lemma cacheInv_hit cache a v :
  cacheInv cache → addrOK a →
  find (PrefixFrom a 0) (evictList cache) = Some v →
  cacheInv (mkLRU (size cache)
              ((PrefixFrom a 0, v) :: remove (PrefixFrom a 0) (evictList cache))).
Proof.
  intros (Hsz & Hlen & Hok & Hpc) Ha Hf.
  apply find_Some in Hf as Hin.
  assert (PrefixFrom a 0 ∈ (evictList cache).*1) as Hk.
  { apply list_elem_of_fmap. by exists (PrefixFrom a 0, v). }
  rewrite Forall_forall in Hok.
  repeat split; cbn [size evictList].
  - done.
  - pose proof (length_remove_lt _ _ Hk). simpl. lia.
  - apply Forall_forall. intros e [->|He]%elem_of_cons; [by apply Hok|].
    apply elem_of_remove in He as [He _]. by apply Hok.
  - simpl. pose proof (addrOK_BitLen a Ha).
    rewrite Prefix_Bits_PrefixFrom; (done || lia).
  - apply predClosedFrom_remove; [left|].
    eapply predClosedFrom_mono; [|done]. apply list_subseteq_nil.
Qed.

Lemma cacheInv_miss cache a n :
  cacheInv cache → addrOK a → 0 ≤ n ≤ Addr_BitLen a →
  cacheInv (mkLRU (size cache)
              (take (Z.to_nat (size cache))
                 (newEntries a 0 n ++ evictList cache))).
Proof.
  intros (Hsz & Hlen & Hok & Hpc) Ha Hn.
  repeat split; cbn [size evictList].
  - done.
  - rewrite length_take. lia.
  - apply Forall_take, Forall_app. split; [|done].
    apply Forall_forall. intros e.
    apply entryOK_newEntries; (done || lia).
  - apply predClosedFrom_take, predClosedFrom_app. split.
    + apply (predClosedFrom_newEntries a n (Z.to_nat (n + 1)));
        try done; try lia.
    + eapply predClosedFrom_mono; [|done]. apply list_subseteq_nil.
Qed.

End cache_invariant.

(** ** Expansions and the states they reach *)

Section expansion.

Import netip labels cidr simplelru.

Implicit Types (cache : Cache) (lbls : Labels) (results : list Label).
Implicit Types (st : option Cache) (p : Prefix) (ds : bool).
Implicit Types (a : Addr) (n i j : Z) (k : Prefix).

(** What a call does, by the length of the prefix and by the cache. *)
Lemma GetCIDRLabels_short ds st p :
  Prefix_Bits p ≤ 0 →
  GetCIDRLabels ds st p
  = (Some (cacheOf st), addWorldLabel ds (Prefix_Addr p) ∅).
Proof.
  intros Hb. unfold GetCIDRLabels. fold (cacheOf st).
  destruct (Z.eqb_spec (Prefix_Bits p) 0) as [|Hne]; [done|].
  rewrite computeCIDRLabels_eq.
  by rewrite (proj2 (Z.ltb_lt (Prefix_Bits p) 0)) by lia.
Qed.

Lemma GetCIDRLabels_hit ds st p v :
  0 < Prefix_Bits p →
  find (PrefixFrom (Prefix_Addr p) 0) (entries st) = Some v →
  GetCIDRLabels ds st p
  = (Some (mkLRU (size (cacheOf st))
             ((PrefixFrom (Prefix_Addr p) 0, v)
                :: remove (PrefixFrom (Prefix_Addr p) 0) (entries st))),
     addWorldLabel ds (Prefix_Addr p) (addLabels ∅ v)).
Proof.
  intros Hb Hf. unfold GetCIDRLabels. fold (cacheOf st).
  destruct (Z.eqb_spec (Prefix_Bits p) 0) as [|Hne]; [lia|].
  by rewrite (computeCIDRLabels_hit _ _ _ _ v) by (done || lia).
Qed.

Lemma GetCIDRLabels_miss ds st p :
  cacheInv (cacheOf st) → wfPrefix p → 0 < Prefix_Bits p →
  find (PrefixFrom (Prefix_Addr p) 0) (entries st) = None →
  GetCIDRLabels ds st p
  = (Some (mkLRU (size (cacheOf st))
             (take (Z.to_nat (size (cacheOf st)))
                (newEntries (Prefix_Addr p) 0 (Prefix_Bits p) ++ entries st))),
     addWorldLabel ds (Prefix_Addr p)
       (addLabels ∅ (chain (Prefix_Addr p) 0 (Prefix_Bits p)))).
Proof.
  intros Hinv Hwf Hb Hf. unfold GetCIDRLabels. fold (cacheOf st).
  destruct (Z.eqb_spec (Prefix_Bits p) 0) as [|Hne]; [lia|].
  destruct (wfPrefix_valid p Hwf) as [Ha Hn]; [lia|].
  by rewrite computeCIDRLabels_miss by (done || lia).
Qed.

Lemma GetCIDRLabels_expansion ds st p :
  cacheInv (cacheOf st) → wfPrefix p →
  expansion ds st p (GetCIDRLabels ds st p).
Proof.
  intros Hinv Hwf.
  destruct (Z.le_gt_cases (Prefix_Bits p) 0) as [Hb|Hb].
  { rewrite GetCIDRLabels_short by done. by constructor. }
  destruct (find (PrefixFrom (Prefix_Addr p) 0) (entries st)) as [v|] eqn:Hf.
  - rewrite (GetCIDRLabels_hit _ _ _ v) by done. by constructor.
  - rewrite GetCIDRLabels_miss by done. by constructor.
Qed.

Lemma GetCIDRLabels_inv ds st p :
  cacheInv (cacheOf st) → wfPrefix p →
  cacheInv (cacheOf (GetCIDRLabels ds st p).1).
Proof.
  intros Hinv Hwf.
  destruct (GetCIDRLabels_expansion ds st p Hinv Hwf) as [Hb|v Hb Hf|Hb Hf];
    [done|..];
    destruct (wfPrefix_valid p Hwf) as [Ha Hn]; try lia; cbn [fst cacheOf].
  - by apply cacheInv_hit.
  - apply cacheInv_miss; (done || lia).
Qed.

Lemma reachable_inv st : reachable st → cacheInv (cacheOf st).
Proof.
  induction 1 as [|ds st p _ IH Hwf]; [apply cacheInv_new|].
  by apply GetCIDRLabels_inv.
Qed.

End expansion.

(** ** Label sets *)

Section label_sets.

Import netip labels cidr.

Implicit Types (lbls : Labels) (l : list Label) (lbl : Label).
Implicit Types (a : Addr) (n i j : Z).

Lemma addLabels_nil lbls : addLabels lbls [] = lbls.
Proof. done. Qed.

Lemma addLabels_cons lbls lbl l :
  addLabels lbls (lbl :: l) = addLabels (<[Key lbl := lbl]> lbls) l.
Proof. done. Qed.

Lemma addLabels_snoc lbls l lbl :
  addLabels lbls (l ++ [lbl]) = <[Key lbl := lbl]> (addLabels lbls l).
Proof. unfold addLabels. by rewrite foldl_app. Qed.

(** A key none of the added labels has keeps its entry. *)
Lemma addLabels_lookup_other lbls l k :
  (∀ lbl, lbl ∈ l → Key lbl ≠ k) →
  addLabels lbls l !! k = lbls !! k.
Proof.
  revert lbls. induction l as [|lbl l IH]; intros lbls Hk; [done|].
  rewrite addLabels_cons, IH.
  - apply lookup_insert_ne, Hk. left.
  - intros lbl' Hin. apply Hk. by right.
Qed.

(** When equal keys mean equal labels, every added label is found
    under its key. *)
Lemma addLabels_lookup lbls l lbl :
  (∀ x y : Label, x ∈ l → y ∈ l → Key x = Key y → x = y) →
  lbl ∈ l → addLabels lbls l !! Key lbl = Some lbl.
Proof.
  induction l as [|x l IH] using rev_ind; intros Hinj Hin.
  { by apply elem_of_nil in Hin. }
  rewrite addLabels_snoc.
  destruct (decide (Key x = Key lbl)) as [Heq|Hne].
  - rewrite (Hinj x lbl); [by rewrite lookup_insert_eq| |done|done].
    apply elem_of_app. right. left.
  - rewrite lookup_insert_ne by done. apply IH.
    + intros y1 y2 H1 H2. apply Hinj; apply elem_of_app; by left.
    + apply elem_of_app in Hin as [?|Hin]; [done|].
      apply list_elem_of_singleton in Hin. by subst.
Qed.

(** Every key of the set comes from the set before or from an added
    label. *)
Lemma addLabels_lookup_Some lbls l k lbl :
  addLabels lbls l !! k = Some lbl →
  lbls !! k = Some lbl ∨ (lbl ∈ l ∧ Key lbl = k).
Proof.
  revert lbls. induction l as [|x l IH]; intros lbls; [by left|].
  rewrite addLabels_cons. intros [Hl|[Hin Hk]]%IH.
  - destruct (decide (Key x = k)) as [<-|Hne].
    + rewrite lookup_insert_eq in Hl. injection Hl as <-. right. split; [left|done].
    + rewrite lookup_insert_ne in Hl by done. by left.
  - right. split; [by right|done].
Qed.

Lemma addLabels_size lbls l :
  NoDup (Key <$> l) → (∀ lbl, lbl ∈ l → lbls !! Key lbl = None) →
  size (addLabels lbls l) = (size lbls + length l)%nat.
Proof.
  revert lbls. induction l as [|x l IH]; intros lbls Hnd Hfresh.
  { simpl. lia. }
  rewrite fmap_cons in Hnd. apply NoDup_cons in Hnd as [Hx Hnd].
  rewrite addLabels_cons, IH; [|done|].
  - rewrite map_size_insert_None; [simpl; lia|]. apply Hfresh. left.
  - intros lbl Hin. rewrite lookup_insert_ne; [apply Hfresh; by right|].
    intros Heq. apply Hx. rewrite Heq. by apply list_elem_of_fmap_2.
Qed.

Lemma chainLabel_Key_inj a j1 j2 :
  Key (chainLabel a j1) = Key (chainLabel a j2) → j1 = j2.
Proof. apply maskedIPToLabel_Key_inj. Qed.

Lemma chain_Key_inj a i n (x y : Label) :
  x ∈ chain a i n → y ∈ chain a i n → Key x = Key y → x = y.
Proof.
  intros (j1 & _ & ->)%elem_of_chain (j2 & _ & ->)%elem_of_chain Hk.
  by rewrite (chainLabel_Key_inj _ _ _ Hk).
Qed.

Lemma chain_Key_NoDup a i n : NoDup (Key <$> chain a i n).
Proof.
  unfold chain. rewrite <-list_fmap_compose.
  apply NoDup_fmap_2_strong; [|apply NoDup_seqZ].
  intros j1 j2 _ _. apply chainLabel_Key_inj.
Qed.

Lemma cidrOnly_empty : cidrOnly ∅.
Proof. intros k lbl. by rewrite lookup_empty. Qed.

Lemma cidrOnly_addLabels_chain lbls a i n :
  cidrOnly lbls → cidrOnly (addLabels lbls (chain a i n)).
Proof.
  intros Hc k lbl [Hl|[Hin <-]]%addLabels_lookup_Some; [by eapply Hc|].
  apply elem_of_chain in Hin as (j & _ & ->).
  apply maskedIPToLabel_Key_slash.
Qed.

Lemma addWorldLabel_lookup_slash ds a lbls k :
  bytes.mem "/" k = true → addWorldLabel ds a lbls !! k = lbls !! k.
Proof.
  intros Hk. unfold addWorldLabel.
  repeat case_match; apply lookup_insert_ne; intros <-; done.
Qed.

End label_sets.

(** ** The labels of an expansion *)

Section expansion_labels.

Import netip labels cidr.

Implicit Types (st : option Cache) (p : Prefix) (ds : bool).
Implicit Types (a : Addr) (n i j : Z) (k : Prefix).

(** The labels a cached entry holds are the labels of a chain. *)
Lemma reachable_find st k v :
  reachable st → simplelru.find k (entries st) = Some v →
  ∃ a j n, v = chain a j n.
Proof.
  intros (_ & _ & Hok & _)%reachable_inv Hf%find_Some.
  rewrite Forall_forall in Hok.
  destruct (Hok _ Hf) as (a & j & n & _ & _ & _ & [= _ ->]).
  by exists a, j, n.
Qed.

(** The labels of an expansion: the world label added to labels of
    prefixes. *)
Lemma GetCIDRLabels_labels ds st p :
  reachable st → wfPrefix p →
  ∃ lbls, cidrOnly lbls
          ∧ (GetCIDRLabels ds st p).2 = addWorldLabel ds (Prefix_Addr p) lbls.
Proof.
  intros Hr Hwf.
  destruct (GetCIDRLabels_expansion ds st p (reachable_inv st Hr) Hwf)
    as [Hb|v Hb Hf|Hb Hf];
    (eexists; split; [|done]).
  - apply cidrOnly_empty.
  - destruct (reachable_find _ _ _ Hr Hf) as (a & j & n & ->).
    apply cidrOnly_addLabels_chain, cidrOnly_empty.
  - apply cidrOnly_addLabels_chain, cidrOnly_empty.
Qed.

(** An expansion that is computed (its first lookup in the cache
    misses) returns one label per length and the world label. *)
Lemma GetCIDRLabels_computed_size ds st p :
  reachable st → wfPrefix p → 0 < Prefix_Bits p →
  simplelru.find (PrefixFrom (Prefix_Addr p) 0) (entries st) = None →
  Z.of_nat (size (GetCIDRLabels ds st p).2) = Prefix_Bits p + 2.
Proof.
  intros Hr Hwf Hb Hf.
  rewrite GetCIDRLabels_miss by (done || by apply reachable_inv). simpl.
  set (l := chain (Prefix_Addr p) 0 (Prefix_Bits p)).
  assert (size (addLabels ∅ l) = length l) as Hsz.
  { rewrite addLabels_size; [by rewrite map_size_empty| |].
    - apply chain_Key_NoDup.
    - intros lbl _. apply lookup_empty. }
  assert (cidrOnly (addLabels ∅ l)) as Hc.
  { apply cidrOnly_addLabels_chain, cidrOnly_empty. }
  assert (∀ w, bytes.mem "/" (Key w) = false →
               size (<[Key w := w]> (addLabels ∅ l)) = S (length l)) as Hw.
  { intros w Hk. rewrite map_size_insert_None; [by rewrite Hsz|].
    destruct (addLabels ∅ l !! Key w) as [lbl|] eqn:Hl; [|done].
    apply Hc in Hl. congruence. }
  pose proof (length_chain (Prefix_Addr p) 0 (Prefix_Bits p)) as Hlen.
  fold l in Hlen.
  unfold addWorldLabel. repeat case_match; rewrite Hw by done; lia.
Qed.

(** The expansion of a prefix of length zero holds one label. *)
Lemma GetCIDRLabels_world_size ds st p :
  Prefix_Bits p = 0 → size (GetCIDRLabels ds st p).2 = 1%nat.
Proof.
  intros Hb. rewrite GetCIDRLabels_short by lia. cbn [snd].
  unfold addWorldLabel.
  repeat case_match; by rewrite map_size_insert_None, map_size_empty.
Qed.

(** Two computed expansions of one prefix return the same labels. *)
Lemma GetCIDRLabels_computed_eq ds st1 st2 p :
  reachable st1 → reachable st2 → wfPrefix p → 0 < Prefix_Bits p →
  simplelru.find (PrefixFrom (Prefix_Addr p) 0) (entries st1) = None →
  simplelru.find (PrefixFrom (Prefix_Addr p) 0) (entries st2) = None →
  (GetCIDRLabels ds st1 p).2 = (GetCIDRLabels ds st2 p).2.
Proof.
  intros Hr1 Hr2 Hwf Hb Hf1 Hf2.
  by rewrite !GetCIDRLabels_miss by (done || by apply reachable_inv).
Qed.

End expansion_labels.

(** ** Eviction *)

Section eviction.

Import netip labels cidr.

Implicit Types (st : option Cache) (p q : Prefix) (ps : list Prefix).
Implicit Types (a : Addr) (n i j : Z) (k : Prefix).

Lemma reachable_after8 : reachable after8.
Proof. apply reachable_step; [apply reachable_init|apply PrefixFrom_wf]. Qed.

Lemma reachable_after16 : reachable after16.
Proof. apply reachable_step; [apply reachable_init|apply PrefixFrom_wf]. Qed.

Lemma take_app_take {A} (m : nat) (l1 l2 : list A) :
  take m (l1 ++ take m l2) = take m (l1 ++ l2).
Proof.
  rewrite !take_app, take_take. do 2 f_equal. lia.
Qed.

Lemma reachable_expandAll st ps :
  reachable st → Forall wfPrefix ps → reachable (expandAll st ps).
Proof.
  intros Hr Hwf. revert st Hr.
  induction Hwf as [|p ps Hp _ IH]; intros st Hr; [done|].
  simpl. apply IH. by apply reachable_step.
Qed.

Lemma allEntries_cons p ps :
  allEntries (p :: ps)
  = allEntries ps ++ newEntries (Prefix_Addr p) 0 (Prefix_Bits p).
Proof.
  unfold allEntries. rewrite fmap_cons, reverse_cons, join_app.
  f_equal. apply app_nil_r.
Qed.

Lemma newEntries_Addr a i n e :
  addrOK a → 0 ≤ i → n ≤ Addr_BitLen a →
  e ∈ newEntries a i n → Prefix_Addr e.1 = a.
Proof.
  intros Ha Hi Hn (j & Hj & ->)%elem_of_newEntries. cbn [fst].
  by rewrite PrefixFrom_ok by (done || lia).
Qed.

(** Computed expansions of prefixes with addresses that differ from
    one another and from the addresses in the cache put their
    entries before the entries of the cache. *)
Lemma entries_expandAll ps :
  ∀ st,
    reachable st →
    Forall (fun p => wfPrefix p ∧ 0 < Prefix_Bits p) ps →
    NoDup (Prefix_Addr <$> ps) →
    (∀ p e, p ∈ ps → e ∈ entries st → Prefix_Addr e.1 ≠ Prefix_Addr p) →
    entries (expandAll st ps)
    = take (Z.to_nat cidrLabelsCacheMaxSize) (allEntries ps ++ entries st).
Proof.
  induction ps as [|p ps IH]; intros st Hr Hps Hnd Hfresh.
  - change (expandAll st []) with st. change (allEntries []) with (@nil (Prefix * list Label)).
    rewrite app_nil_l, take_ge; [done|].
    destruct (reachable_inv st Hr) as (Hsz & Hlen & _). fold (entries st) in Hlen.
    rewrite Hsz in Hlen. lia.
  - apply Forall_cons in Hps as [[Hwf Hb] Hps].
    rewrite fmap_cons in Hnd. apply NoDup_cons in Hnd as [Hp Hnd].
    destruct (wfPrefix_valid p Hwf) as [Ha Hn]; [lia|].
    assert (simplelru.find (PrefixFrom (Prefix_Addr p) 0) (entries st) = None)
      as Hf.
    { apply find_None. intros (e & He1 & He2)%list_elem_of_fmap.
      apply (Hfresh p e); [left|done|].
      rewrite <-He1. by rewrite PrefixFrom_ok by (done || lia). }
    pose proof (reachable_inv st Hr) as Hinv.
    assert (entries (GetCIDRLabels false st p).1
            = take (Z.to_nat cidrLabelsCacheMaxSize)
                (newEntries (Prefix_Addr p) 0 (Prefix_Bits p) ++ entries st))
      as Hstep.
    { rewrite GetCIDRLabels_miss by done.
      unfold entries at 1. cbn [fst cacheOf simplelru.evictList].
      by destruct Hinv as (-> & _). }
    change (expandAll st (p :: ps))
      with (expandAll (GetCIDRLabels false st p).1 ps).
    rewrite (IH (GetCIDRLabels false st p).1).
    + rewrite Hstep, take_app_take, allEntries_cons. by rewrite <-app_assoc.
    + by apply reachable_step.
    + exact Hps.
    + exact Hnd.
    + intros q e Hq He. rewrite Hstep in He.
      apply subseteq_take, elem_of_app in He as [He|He].
      * rewrite (newEntries_Addr _ _ _ _ Ha ltac:(done) Hn He).
        intros Heq. apply Hp. rewrite Heq. by apply list_elem_of_fmap_2.
      * apply Hfresh; [by right|exact He].
Qed.

Lemma elem_of_allEntries ps e :
  e ∈ allEntries ps →
  ∃ p, p ∈ ps ∧ e ∈ newEntries (Prefix_Addr p) 0 (Prefix_Bits p).
Proof.
  unfold allEntries. intros (l & He & Hl)%list_elem_of_join.
  apply elem_of_reverse, list_elem_of_fmap in Hl as (p & -> & Hp). eauto.
Qed.

Lemma length_allEntries ps n :
  0 ≤ n → Forall (fun p => Prefix_Bits p = n) ps →
  length (allEntries ps) = (Z.to_nat (n + 1) * length ps)%nat.
Proof.
  intros Hn. induction 1 as [|p ps Hp _ IH]; [done|].
  rewrite allEntries_cons, length_app, IH. cbn [length].
  unfold newEntries. rewrite length_fmap, length_seqZ, Hp.
  replace (n - 0 + 1) with (n + 1) by lia. lia.
Qed.

Lemma hosts6_spec p :
  p ∈ hosts6 →
  wfPrefix p ∧ Prefix_Bits p = 128 ∧ addrOK (Prefix_Addr p)
  ∧ ∃ j, 1 ≤ j ≤ 128 ∧ Prefix_Addr p = mkAddr j z6noz.
Proof.
  unfold hosts6. intros (j & -> & Hj)%list_elem_of_fmap.
  apply elem_of_seqZ in Hj.
  assert (addrOK (mkAddr j z6noz)) as Ha by (by right).
  split; [apply PrefixFrom_wf|].
  rewrite Prefix_Bits_PrefixFrom by done.
  rewrite PrefixFrom_ok by done.
  split; [done|]. split; [done|]. exists j. split; [lia|done].
Qed.

Lemma hosts6_NoDup : NoDup (Prefix_Addr <$> hosts6).
Proof.
  unfold hosts6. rewrite <-list_fmap_compose.
  apply NoDup_fmap_2_strong; [|apply NoDup_seqZ].
  intros j1 j2 _ _. unfold compose.
  rewrite !PrefixFrom_ok by (done || by right).
  by intros [= ->].
Qed.

Lemma reachable_flushed : reachable flushed.
Proof.
  apply reachable_expandAll.
  - apply reachable_step; [apply reachable_after16|apply PrefixFrom_wf].
  - apply Forall_forall. intros p Hp. by apply hosts6_spec.
Qed.

(** The 128 expansions add 16512 entries to a cache that holds 16384:
    no entry of the address 10.0.0.0 is left. *)
Lemma flushed_find :
  simplelru.find (PrefixFrom (Prefix_Addr slash8) 0) (entries flushed) = None.
Proof.
  unfold flushed. rewrite entries_expandAll.
  - rewrite take_app_le.
    2:{ rewrite (length_allEntries hosts6 128); [|done|].
        - unfold hosts6. rewrite length_fmap, length_seqZ.
          unfold cidrLabelsCacheMaxSize. lia.
        - apply Forall_forall. intros p Hp. by apply hosts6_spec. }
    apply find_None. intros (e & He1 & He2)%list_elem_of_fmap.
    apply subseteq_take, elem_of_allEntries in He2 as (p & Hp & He2).
    destruct (hosts6_spec p Hp) as (_ & Hb & Ha & j & _ & Hj).
    apply newEntries_Addr in He2; [|done|done|].
    2:{ rewrite Hb. destruct (addrOK_BitLen _ Ha). rewrite Hj. by vm_compute. }
    rewrite <-He1, Hj in He2. vm_compute in He2. discriminate.
  - apply reachable_step; [apply reachable_after16|apply PrefixFrom_wf].
  - apply Forall_forall. intros p Hp.
    destruct (hosts6_spec p Hp) as (? & -> & _). split; [done|lia].
  - apply hosts6_NoDup.
  - intros p e Hp He. destruct (hosts6_spec p Hp) as (_ & _ & _ & j & _ & ->).
    assert (Forall (fun e : Prefix * list Label => z (Prefix_Addr e.1) = z4)
              (entries (GetCIDRLabels false after16 slash8).1)) as Hz4.
    { vm_compute. repeat constructor. }
    rewrite Forall_forall in Hz4. specialize (Hz4 e He).
    intros Heq. rewrite Heq in Hz4. discriminate.
Qed.

End eviction.

(** ** Properties of the expansion *)

Section expansion_properties.

Import netip labels cidr.

Implicit Types (st : option Cache) (p : Prefix) (ds : bool).
Implicit Types (a : Addr) (n i j : Z) (k : Prefix).

(** C1 (code defect).  The expansion of a prefix of length [n > 0]
    should have [n + 2] keys.  After an expansion of 10.0.0.0/8 the
    expansion of 10.0.0.0/16 is served from the cache entry of the
    length-zero prefix of the address: it is the label set of
    10.0.0.0/8 again, with 10 keys, not 18, and the label of
    10.0.0.0/16 itself is not among them. *)
Theorem C1_cached_expansion_size :
  reachable after8
  ∧ Prefix_Bits slash16 = 16
  ∧ size (GetCIDRLabels false after8 slash16).2 = 10%nat
  ∧ (GetCIDRLabels false after8 slash16).2 !! "10.0.0.0/16" = None
  ∧ (GetCIDRLabels false after8 slash16).2
    = (GetCIDRLabels false None slash8).2.
Proof.
  split; [apply reachable_after8|].
  split; [reflexivity|]. repeat split; vm_compute; reflexivity.
Qed.

(** C2 does not hold as stated: the expansion of a prefix of length
    zero holds the world label only, not the label of length zero. *)
Lemma C2_counterexample :
  ¬ (∀ ds st p i,
       reachable st → wfPrefix p → 0 ≤ i ≤ Prefix_Bits p →
       is_Some ((GetCIDRLabels ds st p).2
                  !! Key (maskedIPToLabel
                            (Prefix_Addr (Prefix_Masked (PrefixFrom (Prefix_Addr p) i)))
                            i))).
Proof.
  intros H.
  specialize (H false None (PrefixFrom addr10 0) 0 reachable_init
                (PrefixFrom_wf _ _) ltac:(by vm_compute)).
  vm_compute in H. by destruct H.
Qed.

(** What an expansion leaves in the cache: the entries it found, or
    the entries of its own levels. *)
Lemma GetCIDRLabels_entries ds st p e :
  reachable st → wfPrefix p →
  e ∈ entries (GetCIDRLabels ds st p).1 →
  e ∈ entries st
  ∨ ∃ i, 0 ≤ i ≤ Prefix_Bits p
         ∧ e = (PrefixFrom (Prefix_Addr p) i,
                chain (Prefix_Addr p) i (Prefix_Bits p)).
Proof.
  intros Hr Hwf.
  destruct (GetCIDRLabels_expansion ds st p (reachable_inv st Hr) Hwf)
    as [Hb|v Hb Hf|Hb Hf];
    unfold entries at 1; cbn [fst cacheOf simplelru.evictList].
  - by left.
  - intros [->|[He _]%elem_of_remove]%elem_of_cons; left; [|done].
    by apply find_Some.
  - intros He%subseteq_take. apply elem_of_app in He as [He|He]; [|by left].
    right. by apply elem_of_newEntries in He.
Qed.

(** Every entry of a cache that expansions have filled holds the
    labels of its prefix and of longer ones, up to some length. *)
Lemma reachable_entry_shape st k (v : list Label) :
  reachable st → (k, v) ∈ entries st →
  ∃ n, 0 ≤ Prefix_Bits k ≤ n
       ∧ Z.of_nat (length v) = n - Prefix_Bits k + 1
       ∧ head v = Some (maskedIPToLabel (Prefix_Addr (Prefix_Masked k))
                          (Prefix_Bits k)).
Proof.
  intros (_ & _ & Hok & _)%reachable_inv Hin.
  rewrite Forall_forall in Hok.
  destruct (Hok _ Hin) as (a & j & n & Ha & Hj & Hn & [= -> ->]).
  exists n. rewrite Prefix_Bits_PrefixFrom by (done || lia).
  split; [done|]. split.
  - rewrite length_chain; lia.
  - by rewrite chain_cons by lia.
Qed.

(** C4 does not hold as stated: the expansion of 10.0.0.0/8 stores an
    entry under the address 10.0.0.0 with length zero, which is not
    a masked prefix. *)
Lemma C4_counterexample :
  ¬ (∀ ds st p k,
       reachable st → wfPrefix p →
       k ∈ (entries (GetCIDRLabels ds st p).1).*1 →
       Prefix_Masked k = k).
Proof.
  intros H.
  specialize (H false None slash8 (PrefixFrom addr10 0) reachable_init
                (PrefixFrom_wf _ _)).
  assert (PrefixFrom addr10 0 ∈ (entries (GetCIDRLabels false None slash8).1).*1)
    as Hin.
  { apply list_elem_of_lookup. exists 0%nat. vm_compute. reflexivity. }
  specialize (H Hin). vm_compute in H. discriminate.
Qed.

(** C4 (amended).  A key that an expansion of a prefix of length [n]
    adds to the cache is made of the address of that prefix as it is,
    host bits included, and of a length from 0 to [n]. *)
Theorem C4_cache_keys ds st p k :
  reachable st → wfPrefix p →
  k ∈ (entries (GetCIDRLabels ds st p).1).*1 →
  k ∉ (entries st).*1 →
  Prefix_Addr k = Prefix_Addr p
  ∧ 0 ≤ Prefix_Bits k ≤ Prefix_Bits p
  ∧ k = PrefixFrom (Prefix_Addr p) (Prefix_Bits k).
Proof.
  intros Hr Hwf (e & -> & Hin)%list_elem_of_fmap Hnew.
  destruct (GetCIDRLabels_entries _ _ _ _ Hr Hwf Hin)
    as [He|(i & Hi & ->)].
  { destruct Hnew. by apply list_elem_of_fmap_2. }
  destruct (wfPrefix_valid p Hwf) as [Ha Hn]; [lia|].
  cbn [fst]. rewrite Prefix_Bits_PrefixFrom by (done || lia).
  split; [|done].
  by rewrite PrefixFrom_ok by (done || lia).
Qed.

(** The expansion of 10.0.0.0/8 from the start stores an entry under
    the address 10.0.0.0 with length zero. *)
Lemma C4_cache_keys_witness :
  Prefix_Addr (PrefixFrom addr10 0) = Prefix_Addr slash8
  ∧ 0 ≤ Prefix_Bits (PrefixFrom addr10 0) ≤ Prefix_Bits slash8
  ∧ PrefixFrom addr10 0
    = PrefixFrom (Prefix_Addr slash8) (Prefix_Bits (PrefixFrom addr10 0)).
Proof.
  apply (C4_cache_keys false None slash8 (PrefixFrom addr10 0)).
  - apply reachable_init.
  - apply PrefixFrom_wf.
  - apply list_elem_of_lookup. exists 0%nat. vm_compute. reflexivity.
  - apply not_elem_of_nil.
Defined.

(** C5 (code defect).  Two expansions of one prefix should return
    equal label sets whatever the cache holds.  The expansion of
    10.0.0.0/8 has 10 labels from the start and 18 after an expansion
    of 10.0.0.0/16.  In one run as well: after the expansion of
    10.0.0.0/16 that of 10.0.0.0/8 has 18 labels, and after the
    expansions of 128 more prefixes, which evict the entries of
    10.0.0.0, the expansion of 10.0.0.0/8 has 10 labels. *)
Theorem C5_history_dependence :
  reachable None ∧ reachable after16
  ∧ size (GetCIDRLabels false None slash8).2 = 10%nat
  ∧ size (GetCIDRLabels false after16 slash8).2 = 18%nat
  ∧ (GetCIDRLabels false None slash8).2
    ≠ (GetCIDRLabels false after16 slash8).2
  ∧ reachable flushed
  ∧ size (GetCIDRLabels false flushed slash8).2 = 10%nat.
Proof.
  split; [apply reachable_init|]. split; [apply reachable_after16|].
  split; [by vm_compute|]. split; [by vm_compute|].
  split.
  { intros Heq. apply (f_equal size) in Heq. vm_compute in Heq. discriminate. }
  split; [apply reachable_flushed|].
  apply Nat2Z.inj.
  rewrite GetCIDRLabels_computed_size.
  - reflexivity.
  - apply reachable_flushed.
  - apply PrefixFrom_wf.
  - by vm_compute.
  - apply flushed_find.
Qed.

(** The lookups of the three world keys in a set that got one world
    label: the inserted key is found, the other two are looked up in
    the set before. *)
Local Ltac lookup_world :=
  cbn [negb]; rewrite lookup_insert_eq, !lookup_insert_ne by done.

(** C6.  An expansion holds exactly one of the three world labels:
    ["world"] when dual-stack is off, else ["world-ipv4"] for an
    IPv4 address and ["world-ipv6"] for any other; the three labels
    have the source ["reserved"]. *)
Theorem C6_world_label ds st p :
  reachable st → wfPrefix p →
  let lbls := (GetCIDRLabels ds st p).2 in
  let world := mkLabel "world" "reserved" in
  let world4 := mkLabel "world-ipv4" "reserved" in
  let world6 := mkLabel "world-ipv6" "reserved" in
  (ds = false →
   lbls !! "world" = Some world
   ∧ lbls !! "world-ipv4" = None ∧ lbls !! "world-ipv6" = None)
  ∧ (ds = true → Addr_Is4 (Prefix_Addr p) = true →
     lbls !! "world-ipv4" = Some world4
     ∧ lbls !! "world" = None ∧ lbls !! "world-ipv6" = None)
  ∧ (ds = true → Addr_Is4 (Prefix_Addr p) = false →
     lbls !! "world-ipv6" = Some world6
     ∧ lbls !! "world" = None ∧ lbls !! "world-ipv4" = None)
  ∧ worldLabelNonDualStack = world
  ∧ worldLabelV4 = world4
  ∧ worldLabelV6 = world6.
Proof.
  intros Hr Hwf lbls world world4 world6.
  destruct (GetCIDRLabels_labels ds st p Hr Hwf) as (X & Hc & HX).
  subst lbls. rewrite HX. clear HX.
  assert (∀ key : string, bytes.mem "/" key = false → X !! key = None)
    as Hnone.
  { intros key Hk. destruct (X !! key) as [lbl|] eqn:Hl; [|done].
    apply Hc in Hl. congruence. }
  unfold addWorldLabel.
  split; [|split; [|split; [|done]]].
  - intros ->. lookup_world. by rewrite !Hnone.
  - intros -> ->. lookup_world. by rewrite !Hnone.
  - intros -> ->. lookup_world. by rewrite !Hnone.
Qed.

(** With dual-stack on, the expansion of 10.0.0.0/16 after that of
    10.0.0.0/8 holds the IPv4 world label and no other. *)
Lemma C6_world_label_witness :
  let lbls := (GetCIDRLabels true after8 slash16).2 in
  let world := mkLabel "world" "reserved" in
  let world4 := mkLabel "world-ipv4" "reserved" in
  let world6 := mkLabel "world-ipv6" "reserved" in
  (true = false →
   lbls !! "world" = Some world
   ∧ lbls !! "world-ipv4" = None ∧ lbls !! "world-ipv6" = None)
  ∧ (true = true → Addr_Is4 (Prefix_Addr slash16) = true →
     lbls !! "world-ipv4" = Some world4
     ∧ lbls !! "world" = None ∧ lbls !! "world-ipv6" = None)
  ∧ (true = true → Addr_Is4 (Prefix_Addr slash16) = false →
     lbls !! "world-ipv6" = Some world6
     ∧ lbls !! "world" = None ∧ lbls !! "world-ipv4" = None)
  ∧ worldLabelNonDualStack = world
  ∧ worldLabelV4 = world4
  ∧ worldLabelV6 = world6.
Proof.
  apply (C6_world_label true after8 slash16).
  - apply reachable_step; [apply reachable_init|apply PrefixFrom_wf].
  - apply PrefixFrom_wf.
Defined.

End expansion_properties.

(** ** The codec and the parser *)

Section codec_properties.

Import netip labels cidr.

Lemma keyBody_last ip : bytes.last (keyBody ip) ≠ Some "-"%char.
Proof.
  unfold keyBody.
  pose proof (Replace_nonempty _ ":" "-" (Addr_String_nonempty ip)) as Hne.
  set (s := strings.Replace (Addr_String ip) ":" "-") in *.
  destruct (bool_decide (bytes.last s = Some "-"%char)) eqn:Hl.
  - rewrite (last_app_s _ (s +:+ "0")) by (by apply app_nonempty_r_s).
    by rewrite last_app_s.
  - rewrite app_nil_r_s, last_app_s by done.
    by apply bool_decide_eq_false in Hl.
Qed.

Lemma maskedIPToLabel_Key_first ip prefix :
  bytes.first (Key (maskedIPToLabel ip prefix)) ≠ Some "-"%char.
Proof.
  rewrite maskedIPToLabel_Key, first_app_s by apply keyBody_nonempty.
  apply keyBody_first.
Qed.

Lemma maskedIPToLabel_Key_last ip prefix :
  bytes.last (Key (maskedIPToLabel ip prefix)) ≠ Some "-"%char.
Proof.
  rewrite maskedIPToLabel_Key, last_app_s by done.
  rewrite app_cons_s, app_nil_l_s, last_cons_s by apply Itoa_nonempty.
  intros Hl%Itoa_last. done.
Qed.

(** C9.  The key of [maskedIPToLabel] is the address text with ['-']
    for [':'], after a ["0"] when that text starts with ['-'] and
    before a ["0"] when it ends with ['-'], then ['/'] and the
    length.  Neither the key nor its part before the ['/'] starts or
    ends with ['-'].  For the address [::] both zeros are written. *)
Theorem C9_hyphen_guard ip prefix :
  let ipNoColons := strings.Replace (Addr_String ip) ":" "-" in
  let preZero :=
    if bool_decide (bytes.first ipNoColons = Some "-"%char)
    then "0" else EmptyString in
  let postZero :=
    if bool_decide (bytes.last ipNoColons = Some "-"%char)
    then "0" else EmptyString in
  let body := preZero +:+ ipNoColons +:+ postZero in
  let key := Key (maskedIPToLabel ip prefix) in
  key = body +:+ "/" +:+ strconv.Itoa prefix
  ∧ bytes.first key ≠ Some "-"%char
  ∧ bytes.last key ≠ Some "-"%char
  ∧ bytes.first body ≠ Some "-"%char
  ∧ bytes.last body ≠ Some "-"%char
  ∧ Key (maskedIPToLabel IPv6Unspecified 0) = "0--0/0".
Proof.
  cbv zeta. split; [apply maskedIPToLabel_Key|].
  split; [apply maskedIPToLabel_Key_first|].
  split; [apply maskedIPToLabel_Key_last|].
  split; [apply keyBody_first|].
  split; [apply keyBody_last|]. reflexivity.
Qed.

(** C10.  Every key of [maskedIPToLabel] holds a ['/'] and no world
    key does, so [addWorldLabel] leaves the entry under the key of a
    prefix label as it is. *)
Theorem C10_world_key_disjoint :
  (∀ ip prefix, bytes.mem "/" (Key (maskedIPToLabel ip prefix)) = true)
  ∧ bytes.mem "/" (Key worldLabelNonDualStack) = false
  ∧ bytes.mem "/" (Key worldLabelV4) = false
  ∧ bytes.mem "/" (Key worldLabelV6) = false
  ∧ (∀ ds addr (lbls : Labels) ip prefix,
       addWorldLabel ds addr lbls !! Key (maskedIPToLabel ip prefix)
       = lbls !! Key (maskedIPToLabel ip prefix)).
Proof.
  split; [apply maskedIPToLabel_Key_slash|]. do 3 (split; [reflexivity|]).
  intros. apply addWorldLabel_lookup_slash, maskedIPToLabel_Key_slash.
Qed.

Lemma LastIndexByte_ltb s :
  (strings.LastIndexByte s "/" <? 0) = negb (hasSlash s).
Proof.
  unfold hasSlash. pose proof (LastIndexByte_neg "/" s) as [H1 H2].
  destruct (Z.ltb_spec (strings.LastIndexByte s "/") 0) as [Hlt|Hge].
  - by rewrite H1.
  - destruct (bytes.mem "/" s); [done|]. specialize (H2 eq_refl). lia.
Qed.

(** C7.  A string without ['/'] that [ParseAddr] accepts gives the
    label of the address with its bit length; a string with ['/']
    that [ParsePrefix] accepts gives the label of the masked address
    with the length of the prefix; no other string gives a label, and
    a label given has the source ["cidr"]. *)
Theorem C7_parse_label s :
  (∀ a, hasSlash s = false → ParseAddr s = inl a →
        IPStringToLabel s = (maskedIPToLabel a (Addr_BitLen a), None))
  ∧ (∀ p, hasSlash s = true → ParsePrefix s = inl p →
          IPStringToLabel s
          = (maskedIPToLabel (Prefix_Addr (Prefix_Masked p)) (Prefix_Bits p),
             None))
  ∧ (∀ lbl, IPStringToLabel s = (lbl, None) →
            Source lbl = "cidr"
            ∧ ((hasSlash s = false ∧ ∃ a, ParseAddr s = inl a)
               ∨ (hasSlash s = true ∧ ∃ p, ParsePrefix s = inl p)))
  ∧ IPStringToLabel "10.0.0.1" = (mkLabel "10.0.0.1/32" "cidr", None)
  ∧ IPStringToLabel "10.0.0.0/8" = (mkLabel "10.0.0.0/8" "cidr", None)
  ∧ IPStringToLabel "10.1.2.3/8" = (mkLabel "10.0.0.0/8" "cidr", None).
Proof.
  unfold IPStringToLabel. rewrite LastIndexByte_ltb.
  split; [|split; [|split; [|by vm_compute]]].
  - intros a -> ->. done.
  - intros p -> ->. done.
  - intros lbl. destruct (hasSlash s); cbn [negb].
    + destruct (ParsePrefix s) as [p|err]; [|done].
      intros [= <-]. split; [done|]. right. eauto.
    + destruct (ParseAddr s) as [a|err]; [|done].
      intros [= <-]. split; [done|]. left. eauto.
Qed.

Lemma quoteBody_plain s : plain s = true → strconv.quoteBody s = s.
Proof.
  induction s as [|c s IH]; [done|]. simpl.
  intros [Hc Hs]%andb_true_iff. rewrite IH by done.
  unfold plainByte in Hc.
  apply andb_true_iff in Hc as [[Hr Hq]%andb_true_iff Hb].
  unfold strconv.quoteByte.
  apply negb_true_iff in Hq, Hb. by rewrite Hq, Hb, Hr.
Qed.

Lemma prefix_app s t : bytes.prefix s (s +:+ t) = true.
Proof.
  induction s as [|c s IH]; [done|]. rewrite app_cons_s. simpl.
  by rewrite bool_decide_eq_true_2, IH.
Qed.

Lemma Contains_Quote_plain s t :
  plain s = true → strings.Contains (strconv.Quote s +:+ t) s = true.
Proof.
  intros Hs. unfold strconv.Quote. rewrite (quoteBody_plain s Hs).
  rewrite app_cons_s, app_assoc_s.
  cbn [strings.Contains]. apply orb_true_iff. right.
  destruct s; simpl; [done|].
  by rewrite bool_decide_eq_true_2, prefix_app.
Qed.

(** C8 does not hold as stated: the message of the error for the
    input made of [a], a quote and [b] holds the input with a
    backslash before the quote, and nowhere the input as it is. *)
Lemma C8_counterexample :
  ¬ (∀ s e, (IPStringToLabel s).2 = Some e →
            strings.Contains (fmt.Error e) s = true).
Proof.
  intros H. specialize (H quoted_input _ eq_refl).
  vm_compute in H. discriminate.
Qed.

(** C8 (amended).  [IPStringToLabel] fails with the error of the
    first kind exactly for an input without ['/'] that [ParseAddr]
    rejects, with the error of the second kind exactly for an input
    with ['/'] that [ParsePrefix] rejects, and succeeds on every
    other input.  The message of either error starts with the input
    as [%q] prints it, in quotes and with Go's escapes; this holds
    the input as it is when the input is made of printable ASCII
    bytes other than the quote and the backslash. *)
Theorem C8_parse_errors s :
  let r := (IPStringToLabel s).2 in
  ((∃ e, r = Some e ∧ NotAnAddress s e)
   ↔ hasSlash s = false ∧ ∀ a, ParseAddr s ≠ inl a)
  ∧ ((∃ e, r = Some e ∧ NotACIDR s e)
     ↔ hasSlash s = true ∧ ∀ p, ParsePrefix s ≠ inl p)
  ∧ (r = None
     ↔ (hasSlash s = false ∧ ∃ a, ParseAddr s = inl a)
       ∨ (hasSlash s = true ∧ ∃ p, ParsePrefix s = inl p))
  ∧ (∀ e, r = Some e →
          (NotAnAddress s e ∨ NotACIDR s e)
          ∧ bytes.prefix (strconv.Quote s) (fmt.Error e) = true
          ∧ (plain s = true → strings.Contains (fmt.Error e) s = true)).
Proof.
  cbv zeta. unfold IPStringToLabel. rewrite LastIndexByte_ltb.
  unfold NotAnAddress, NotACIDR, fmt.Errorf_q_w.
  destruct (hasSlash s); cbn [negb].
  - destruct (ParsePrefix s) as [p|err]; cbn [snd].
    + split; [|split; [|split]].
      * split; [by intros (e & ? & _)|by intros [? _]].
      * split; [by intros (e & ? & _)|]. intros [_ Hp]. by destruct (Hp p).
      * split; [intros _; right; eauto|done].
      * done.
    + split; [|split; [|split]].
      * split; [|by intros [? _]].
        intros (e & [= <-] & err0 & _ & Heq). by injection Heq.
      * split; [done|]. intros _. eexists. split; [done|]. eauto.
      * split; [done|]. by intros [[? _]|[_ [p ?]]].
      * intros e [= <-]. split; [right; eauto|].
        cbn [fmt.Error]. split; [apply prefix_app|].
        apply Contains_Quote_plain.
  - destruct (ParseAddr s) as [a|err]; cbn [snd].
    + split; [|split; [|split]].
      * split; [by intros (e & ? & _)|]. intros [_ Ha]. by destruct (Ha a).
      * split; [by intros (e & ? & _)|by intros [? _]].
      * split; [intros _; left; eauto|done].
      * done.
    + split; [|split; [|split]].
      * split; [done|]. intros _. eexists. split; [done|]. eauto.
      * split; [|by intros [? _]].
        intros (e & [= <-] & err0 & _ & Heq). by injection Heq.
      * split; [done|]. by intros [[_ [a ?]]|[? _]].
      * intros e [= <-]. split; [left; eauto|].
        cbn [fmt.Error]. split; [apply prefix_app|].
        apply Contains_Quote_plain.
Qed.

End codec_properties.

(** * Further properties of the cache and of the labels *)

Section cache_keys.

Import netip labels cidr.

Implicit Types (st : option Cache) (p : Prefix) (ds : bool).
Implicit Types (l : list (Prefix * list Label)).
Implicit Types (a : Addr) (n i j : Z) (k : Prefix).

Lemma PrefixFrom_inj a1 a2 j1 j2 :
  addrOK a1 → addrOK a2 → 0 ≤ j1 ≤ Addr_BitLen a1 → 0 ≤ j2 ≤ Addr_BitLen a2 →
  PrefixFrom a1 j1 = PrefixFrom a2 j2 → a1 = a2 ∧ j1 = j2.
Proof.
  intros Ha1 Ha2 Hj1 Hj2. rewrite !PrefixFrom_ok by done.
  intros [= -> ?]. split; [done|lia].
Qed.

Lemma Prefix_Addr_PrefixFrom a j :
  addrOK a → 0 ≤ j ≤ Addr_BitLen a → Prefix_Addr (PrefixFrom a j) = a.
Proof. intros. by rewrite PrefixFrom_ok. Qed.

Lemma remove_NoDup k l : NoDup l.*1 → NoDup (simplelru.remove k l).*1.
Proof.
  induction l as [|[k' v'] l IH]; [done|]. simpl.
  intros [Hk Hl]%NoDup_cons. case_decide; [by apply IH|].
  simpl. apply NoDup_cons. split; [|by apply IH].
  intros (e & He1 & [He2 _]%elem_of_remove)%list_elem_of_fmap.
  apply Hk. rewrite He1. by apply list_elem_of_fmap_2.
Qed.

Lemma newEntries_NoDup a i n :
  addrOK a → 0 ≤ i → n ≤ Addr_BitLen a → NoDup (newEntries a i n).*1.
Proof.
  intros Ha Hi Hn. unfold newEntries. rewrite <-list_fmap_compose.
  apply NoDup_fmap_2_strong; [|apply NoDup_seqZ].
  intros j1 j2 Hj1%elem_of_seqZ Hj2%elem_of_seqZ. unfold compose. cbn [fst].
  intros Heq. by apply PrefixFrom_inj in Heq as [_ ?]; try lia.
Qed.

(** With an entry of some length of an address, the cache holds the
    entries of all shorter lengths of that address. *)
Lemma cacheInv_closed_le cache a (m : nat) :
  ∀ i j, cacheInv cache → addrOK a → m = Z.to_nat (j - i) →
         0 ≤ i ≤ j → j ≤ Addr_BitLen a →
         PrefixFrom a j ∈ (simplelru.evictList cache).*1 →
         PrefixFrom a i ∈ (simplelru.evictList cache).*1.
Proof.
  induction m as [|m IH]; intros i j Hinv Ha Hm Hij Hj Hin.
  - by replace i with j by lia.
  - apply (IH i (j - 1)); try done; try lia.
    apply list_elem_of_fmap in Hin as (e & He & Hin).
    destruct Hinv as (_ & _ & _ & Hpc).
    destruct (predClosedFrom_elem [] _ e Hpc Hin) as [?%elem_of_nil|Hs]; [|done|].
    + rewrite <-He, Prefix_Bits_PrefixFrom by (done || lia). lia.
    + rewrite <-He, shorter_PrefixFrom in Hs by (done || lia). done.
Qed.

(** No entry of the address is in the cache when the one of length
    zero is not. *)
Lemma cacheInv_absent cache a e :
  cacheInv cache → addrOK a →
  simplelru.find (PrefixFrom a 0) (simplelru.evictList cache) = None →
  e ∈ simplelru.evictList cache → Prefix_Addr e.1 ≠ a.
Proof.
  intros Hinv Ha Hf He Heq. apply find_None in Hf. apply Hf.
  destruct (Hinv) as (_ & _ & Hok & _). rewrite Forall_forall in Hok.
  destruct (Hok _ He) as (a' & j & n & Ha' & Hj & Hn & ->).
  cbn [fst] in Heq. rewrite Prefix_Addr_PrefixFrom in Heq by (done || lia).
  subst a'.
  apply (cacheInv_closed_le cache a (Z.to_nat j) 0 j); try done; try lia.
  by apply (list_elem_of_fmap_2 fst) in He.
Qed.

Lemma drop_chain a (m : nat) :
  ∀ i j n, m = Z.to_nat (j - i) → i ≤ j ≤ n + 1 →
           drop m (chain a i n) = chain a j n.
Proof.
  induction m as [|m IH]; intros i j n Hm Hj.
  - by replace j with i by lia.
  - rewrite chain_cons by lia. cbn [drop]. apply IH; lia.
Qed.

Lemma coherent_subseteq l l' : l' ⊆ l → coherent l → coherent l'.
Proof. intros Hsub Hc e1 e2 H1 H2. apply Hc; by apply Hsub. Qed.

Lemma coherent_newEntries a n l :
  addrOK a → 0 ≤ n ≤ Addr_BitLen a →
  (∀ e, e ∈ l → Prefix_Addr e.1 ≠ a) →
  coherent l → coherent (newEntries a 0 n ++ l).
Proof.
  intros Ha Hn Hfresh Hc e1 e2 H1 H2 Haddr Hbits.
  apply elem_of_app in H1 as [H1|H1]; apply elem_of_app in H2 as [H2|H2].
  - apply elem_of_newEntries in H1 as (j1 & Hj1 & ->).
    apply elem_of_newEntries in H2 as (j2 & Hj2 & ->).
    cbn [fst snd] in *.
    rewrite !Prefix_Bits_PrefixFrom in * by (done || lia).
    symmetry. apply drop_chain; lia.
  - apply elem_of_newEntries in H1 as (j1 & Hj1 & ->). cbn [fst] in Haddr.
    rewrite Prefix_Addr_PrefixFrom in Haddr by (done || lia).
    by destruct (Hfresh e2 H2).
  - apply elem_of_newEntries in H2 as (j2 & Hj2 & ->). cbn [fst] in Haddr.
    rewrite Prefix_Addr_PrefixFrom in Haddr by (done || lia).
    by destruct (Hfresh e1 H1).
  - by apply Hc.
Qed.

(** The keys of the cache differ from one another, and the entries
    of one address agree. *)
Lemma reachable_keys st :
  reachable st → NoDup (entries st).*1 ∧ coherent (entries st).
Proof.
  induction 1 as [|ds st p Hr [Hnd Hc] Hwf].
  { split; [constructor|]. by intros e1 e2 ?%elem_of_nil. }
  pose proof (reachable_inv st Hr) as Hinv.
  destruct (GetCIDRLabels_expansion ds st p Hinv Hwf) as [Hb|v Hb Hf|Hb Hf];
    unfold entries at 1 2; cbn [fst cacheOf simplelru.evictList];
    [done|..];
    destruct (wfPrefix_valid p Hwf) as [Ha Hn]; try lia.
  - apply find_Some in Hf as Hin. split.
    + cbn [fmap list_fmap fst]. apply NoDup_cons. split; [|by apply remove_NoDup].
      intros (e & He1 & [_ He2]%elem_of_remove)%list_elem_of_fmap. done.
    + eapply coherent_subseteq; [|exact Hc].
      intros e [->|[He _]%elem_of_remove]%elem_of_cons; done.
  - assert (∀ e, e ∈ entries st → Prefix_Addr e.1 ≠ Prefix_Addr p) as Hfresh.
    { intros e He. by apply (cacheInv_absent (cacheOf st)). }
    split.
    + rewrite fmap_take.
      eapply sublist_NoDup; [|apply sublist_take].
      rewrite fmap_app. apply NoDup_app. split; [|split; [|done]].
      * apply newEntries_NoDup; (done || lia).
      * intros k (e1 & -> & H1)%list_elem_of_fmap (e2 & He2 & H2)%list_elem_of_fmap.
        apply (Hfresh e2 H2). rewrite <-He2.
        apply elem_of_newEntries in H1 as (j & Hj & ->). cbn [fst].
        by rewrite Prefix_Addr_PrefixFrom by (done || lia).
    + eapply coherent_subseteq; [apply subseteq_take|].
      by apply coherent_newEntries; try lia.
Qed.

End cache_keys.

Section expansion_shape.

Import netip labels cidr.

Implicit Types (st : option Cache) (p q : Prefix) (ds : bool).
Implicit Types (l : list (Prefix * list Label)) (lbls : Labels).
Implicit Types (a : Addr) (n m i j : Z) (k : Prefix).

Lemma addWorldLabel_insert ds a lbls :
  addWorldLabel ds a lbls
  = <[Key (worldLabelFor ds a) := worldLabelFor ds a]> lbls.
Proof. unfold addWorldLabel, worldLabelFor. by repeat case_match. Qed.

Lemma worldLabelFor_no_slash ds a :
  bytes.mem "/" (Key (worldLabelFor ds a)) = false.
Proof. unfold worldLabelFor. by repeat case_match. Qed.

(** The entry of length zero of an address holds the labels of the
    lengths zero to some [m]. *)
Lemma reachable_find_zero st a v :
  reachable st → addrOK a →
  simplelru.find (PrefixFrom a 0) (entries st) = Some v →
  ∃ m, 0 ≤ m ≤ Addr_BitLen a ∧ v = chain a 0 m.
Proof.
  intros (_ & _ & Hok & _)%reachable_inv Ha Hf%find_Some.
  rewrite Forall_forall in Hok.
  destruct (Hok _ Hf) as (a' & j & m & Ha' & Hj & Hm & Heq).
  pose proof (f_equal fst Heq) as Hk. pose proof (f_equal snd Heq) as Hv.
  cbn [fst snd] in Hk, Hv. subst v.
  pose proof (addrOK_BitLen a Ha).
  apply PrefixFrom_inj in Hk as [<- <-]; try done; try lia.
  exists m. split; [lia|done].
Qed.

Lemma find_head {K V} `{EqDecision K} (k : K) (v : V) (l : list (K * V)) :
  head l = Some (k, v) → simplelru.find k l = Some v.
Proof.
  destruct l as [|[k' v'] l]; [done|]. intros [= -> ->]. simpl.
  by rewrite decide_True.
Qed.

(** What an expansion of a prefix of positive length returns and
    leaves in front of the cache: the labels of the address for the
    lengths zero to some [m], which is the length of the prefix when
    the expansion is computed. *)
Lemma GetCIDRLabels_chain ds st p :
  reachable st → wfPrefix p → 0 < Prefix_Bits p →
  ∃ m, 0 ≤ m ≤ Addr_BitLen (Prefix_Addr p)
       ∧ (simplelru.find (PrefixFrom (Prefix_Addr p) 0) (entries st) = None →
          m = Prefix_Bits p)
       ∧ (GetCIDRLabels ds st p).2
         = addWorldLabel ds (Prefix_Addr p)
             (addLabels ∅ (chain (Prefix_Addr p) 0 m))
       ∧ head (entries (GetCIDRLabels ds st p).1)
         = Some (PrefixFrom (Prefix_Addr p) 0, chain (Prefix_Addr p) 0 m).
Proof.
  intros Hr Hwf Hb.
  destruct (wfPrefix_valid p Hwf) as [Ha Hn]; [lia|].
  pose proof (reachable_inv st Hr) as Hinv.
  destruct (GetCIDRLabels_expansion ds st p Hinv Hwf) as [?|v _ Hf|_ Hf];
    [lia|..]; unfold entries at 2; cbn [fst snd cacheOf simplelru.evictList].
  - destruct (reachable_find_zero st _ v Hr Ha Hf) as (m & Hm & ->).
    exists m. split; [done|]. split; [by rewrite Hf|]. done.
  - exists (Prefix_Bits p). split; [lia|]. split; [done|]. split; [done|].
    destruct Hinv as (-> & _).
    replace (Z.to_nat cidrLabelsCacheMaxSize)
      with (S (Z.to_nat (cidrLabelsCacheMaxSize - 1)))
      by (unfold cidrLabelsCacheMaxSize; lia).
    by rewrite newEntries_cons by lia.
Qed.

Lemma expansion_lookup ds a m key lbl :
  addWorldLabel ds a (addLabels ∅ (chain a 0 m)) !! key = Some lbl
  ↔ key = Key lbl ∧ (lbl = worldLabelFor ds a ∨ lbl ∈ chain a 0 m).
Proof.
  rewrite addWorldLabel_insert. split.
  - destruct (decide (Key (worldLabelFor ds a) = key)) as [<-|Hne].
    + rewrite lookup_insert_eq. intros [= <-]. auto.
    + rewrite lookup_insert_ne by done.
      intros [Hl|[Hin <-]]%addLabels_lookup_Some; [|auto].
      by rewrite lookup_empty in Hl.
  - intros [-> [->|Hin]]; [by rewrite lookup_insert_eq|].
    rewrite lookup_insert_ne.
    + by apply addLabels_lookup; [apply chain_Key_inj|].
    + intros Heq. pose proof (worldLabelFor_no_slash ds a) as Hw.
      rewrite Heq in Hw. apply elem_of_chain in Hin as (j & _ & ->).
      unfold chainLabel in Hw. by rewrite maskedIPToLabel_Key_slash in Hw.
Qed.

Lemma expansion_size ds a m :
  -1 ≤ m →
  Z.of_nat (size (addWorldLabel ds a (addLabels ∅ (chain a 0 m)))) = m + 2.
Proof.
  intros Hm. rewrite addWorldLabel_insert.
  set (l := chain a 0 m).
  assert (size (addLabels ∅ l) = length l) as Hsz.
  { rewrite addLabels_size; [by rewrite map_size_empty| |].
    - apply chain_Key_NoDup.
    - intros lbl _. apply lookup_empty. }
  rewrite map_size_insert_None.
  - rewrite Hsz. pose proof (length_chain a 0 m). fold l in H. lia.
  - destruct (addLabels ∅ l !! _) as [lbl|] eqn:Hl; [|done].
    apply (cidrOnly_addLabels_chain ∅ a 0 m cidrOnly_empty) in Hl.
    by rewrite worldLabelFor_no_slash in Hl.
Qed.

End expansion_shape.

Section expansion_results.

Import netip labels cidr.

Implicit Types (st : option Cache) (p q : Prefix) (ds : bool).
Implicit Types (l : list (Prefix * list Label)) (lbls : Labels).
Implicit Types (a : Addr) (n m i j : Z) (k : Prefix).

(** X2.  An expansion holds at least one label and at most two more
    than the address has bits, so at most 130; it holds at least two
    for a prefix of positive length and exactly one otherwise. *)
Theorem X2_expansion_size ds st p :
  reachable st → wfPrefix p →
  let s := Z.of_nat (size (GetCIDRLabels ds st p).2) in
  1 ≤ s ≤ Addr_BitLen (Prefix_Addr p) + 2
  ∧ s ≤ 130
  ∧ (0 < Prefix_Bits p → 2 ≤ s)
  ∧ (Prefix_Bits p ≤ 0 → s = 1).
Proof.
  intros Hr Hwf s. subst s.
  destruct (Z.le_gt_cases (Prefix_Bits p) 0) as [Hb|Hb].
  - rewrite GetCIDRLabels_short by done. cbn [snd].
    change (∅ : Labels) with (addLabels ∅ []).
    rewrite <-(chain_nil (Prefix_Addr p) 0 (-1)) by lia.
    rewrite expansion_size by lia.
    assert (0 ≤ Addr_BitLen (Prefix_Addr p) ≤ 128).
    { unfold Addr_BitLen. case_match; lia. }
    lia.
  - destruct (GetCIDRLabels_chain ds st p Hr Hwf Hb) as (m & Hm & _ & -> & _).
    rewrite expansion_size by lia.
    destruct (wfPrefix_valid p Hwf) as [Ha _]; [lia|].
    pose proof (addrOK_BitLen _ Ha). lia.
Qed.

Lemma X2_expansion_size_witness :
  let s := Z.of_nat (size (GetCIDRLabels true after8 slash16).2) in
  1 ≤ s ≤ Addr_BitLen (Prefix_Addr slash16) + 2
  ∧ s ≤ 130
  ∧ (0 < Prefix_Bits slash16 → 2 ≤ s)
  ∧ (Prefix_Bits slash16 ≤ 0 → s = 1).
Proof.
  apply (X2_expansion_size true after8 slash16).
  - apply reachable_step; [apply reachable_init|apply PrefixFrom_wf].
  - apply PrefixFrom_wf.
Defined.

(** X3.  An expansion that follows an expansion of the same prefix
    returns the same labels. *)
Theorem X3_repeated_expansion ds st p :
  reachable st → wfPrefix p →
  (GetCIDRLabels ds (GetCIDRLabels ds st p).1 p).2
  = (GetCIDRLabels ds st p).2.
Proof.
  intros Hr Hwf.
  destruct (Z.le_gt_cases (Prefix_Bits p) 0) as [Hb|Hb].
  { by rewrite !GetCIDRLabels_short by done. }
  destruct (GetCIDRLabels_chain ds st p Hr Hwf Hb) as (m & _ & _ & -> & Hhd).
  by rewrite (GetCIDRLabels_hit ds _ p _ Hb (find_head _ _ _ Hhd)).
Qed.

Lemma X3_repeated_expansion_witness :
  (GetCIDRLabels false (GetCIDRLabels false after8 slash16).1 slash16).2
  = (GetCIDRLabels false after8 slash16).2.
Proof.
  apply (X3_repeated_expansion false after8 slash16).
  - apply reachable_step; [apply reachable_init|apply PrefixFrom_wf].
  - apply PrefixFrom_wf.
Defined.

(** X4.  While the cache holds the entry of length zero of an
    address, the expansions of all prefixes of positive length of
    that address return the same labels and leave the same cache:
    the length of the prefix plays no part. *)
Theorem X4_cached_expansion_ignores_length ds st p q (v : list Label) :
  Prefix_Addr p = Prefix_Addr q →
  0 < Prefix_Bits p → 0 < Prefix_Bits q →
  simplelru.find (PrefixFrom (Prefix_Addr p) 0) (entries st) = Some v →
  GetCIDRLabels ds st p = GetCIDRLabels ds st q
  ∧ (GetCIDRLabels ds st p).2 = addWorldLabel ds (Prefix_Addr p) (addLabels ∅ v).
Proof.
  intros Ha Hp Hq Hf.
  rewrite (GetCIDRLabels_hit ds st p v Hp Hf).
  rewrite Ha in Hf. rewrite (GetCIDRLabels_hit ds st q v Hq Hf).
  by rewrite Ha.
Qed.

Lemma X4_cached_expansion_ignores_length_witness :
  GetCIDRLabels false after8 slash8 = GetCIDRLabels false after8 slash16
  ∧ (GetCIDRLabels false after8 slash8).2
    = addWorldLabel false (Prefix_Addr slash8)
        (addLabels ∅ (chain addr10 0 8)).
Proof.
  apply (X4_cached_expansion_ignores_length false after8 slash8 slash16
           (chain addr10 0 8)); by vm_compute.
Defined.

End expansion_results.

Section lru_order.

Context {K V : Type} `{EqDecision K}.
Implicit Types (k : K) (v : V) (l : list (K * V)).

Lemma remove_absent k l : k ∉ l.*1 → simplelru.remove k l = l.
Proof.
  induction l as [|[k' v'] l IH]; [done|]. cbn [simplelru.remove fmap list_fmap fst].
  rewrite not_elem_of_cons. intros [Hne Hl].
  destruct (decide (k' = k)); [congruence|]. by rewrite IH.
Qed.

Lemma move_front_Permutation k v l :
  NoDup l.*1 → simplelru.find k l = Some v →
  (k, v) :: simplelru.remove k l ≡ₚ l.
Proof.
  induction l as [|[k' v'] l IH]; [done|].
  cbn [simplelru.find simplelru.remove fmap list_fmap fst].
  rewrite NoDup_cons. intros [Hk' Hl].
  destruct (decide (k' = k)) as [->|Hne].
  - intros [= ->]. by rewrite remove_absent.
  - intros Hf. rewrite <-(IH Hl Hf) at 2. apply Permutation_swap.
Qed.

End lru_order.

Section cache_contents.

Import netip labels cidr.

Implicit Types (st : option Cache) (p q : Prefix) (ds : bool).
Implicit Types (l : list (Prefix * list Label)) (lbls : Labels).
Implicit Types (a : Addr) (n m i j : Z) (k : Prefix).

(** X5.  The cache never holds more than 16384 entries, and no two
    of its entries have the same key. *)
Theorem X5_cache_bounded st :
  reachable st →
  Z.of_nat (length (entries st)) ≤ 16384 ∧ NoDup (entries st).*1.
Proof.
  intros Hr. split; [|by apply reachable_keys].
  destruct (reachable_inv st Hr) as (Hs & Hl & _).
  unfold entries. rewrite Hs in Hl. exact Hl.
Qed.

Lemma X5_cache_bounded_witness :
  Z.of_nat (length (entries after16)) ≤ 16384 ∧ NoDup (entries after16).*1.
Proof.
  apply (X5_cache_bounded after16).
  apply reachable_step; [apply reachable_init|apply PrefixFrom_wf].
Defined.

(** X6.  An expansion served from the cache adds no entry and
    removes none: the entries after it are the entries before it,
    the entry of length zero of the address moved to the front. *)
Theorem X6_cached_expansion_keeps_entries ds st p (v : list Label) :
  reachable st → 0 < Prefix_Bits p →
  simplelru.find (PrefixFrom (Prefix_Addr p) 0) (entries st) = Some v →
  entries (GetCIDRLabels ds st p).1 ≡ₚ entries st
  ∧ head (entries (GetCIDRLabels ds st p).1)
    = Some (PrefixFrom (Prefix_Addr p) 0, v).
Proof.
  intros Hr Hb Hf. rewrite (GetCIDRLabels_hit ds st p v Hb Hf).
  split; [|done]. cbn [fst]. unfold entries at 1. cbn [cacheOf simplelru.evictList].
  apply move_front_Permutation; [|done]. by apply reachable_keys.
Qed.

Lemma X6_cached_expansion_keeps_entries_witness :
  entries (GetCIDRLabels false after8 slash16).1 ≡ₚ entries after8
  ∧ head (entries (GetCIDRLabels false after8 slash16).1)
    = Some (PrefixFrom (Prefix_Addr slash16) 0, chain addr10 0 8).
Proof.
  apply (X6_cached_expansion_keeps_entries false after8 slash16).
  - apply reachable_step; [apply reachable_init|apply PrefixFrom_wf].
  - by vm_compute.
  - by vm_compute.
Defined.

(** X7.  For a prefix whose length is not positive (the prefix of
    length zero, and the zero value of the prefix type, whose length
    reads -1) the expansion holds the world label and nothing else,
    and the cache is not touched. *)
Theorem X7_no_positive_length ds st p :
  Prefix_Bits p ≤ 0 →
  let world :=
    if negb ds then worldLabelNonDualStack
    else if Addr_Is4 (Prefix_Addr p) then worldLabelV4 else worldLabelV6 in
  (GetCIDRLabels ds st p).2 = {[ Key world := world ]}
  ∧ entries (GetCIDRLabels ds st p).1 = entries st.
Proof.
  intros Hb world. rewrite GetCIDRLabels_short by done. split; [|done].
  cbn [snd]. subst world. unfold addWorldLabel.
  destruct (negb ds); [done|]. by destruct (Addr_Is4 _).
Qed.

Lemma X7_no_positive_length_witness :
  let world :=
    if negb true then worldLabelNonDualStack
    else if Addr_Is4 (Prefix_Addr (mkPrefix (mkAddr 0 z0) 0))
         then worldLabelV4 else worldLabelV6 in
  (GetCIDRLabels true after8 (mkPrefix (mkAddr 0 z0) 0)).2
  = {[ Key world := world ]}
  ∧ entries (GetCIDRLabels true after8 (mkPrefix (mkAddr 0 z0) 0)).1
    = entries after8.
Proof.
  apply (X7_no_positive_length true after8 (mkPrefix (mkAddr 0 z0) 0)).
  by vm_compute.
Defined.

(** X8.  Every entry of the cache holds, under a key of an address
    and a length [j], the labels of that address masked to the
    lengths [j], [j + 1], ... up to some length [n] within the bit
    length of the address, in this order. *)
Theorem X8_cache_entry_labels st k (v : list Label) :
  reachable st → (k, v) ∈ entries st →
  ∃ n, 0 ≤ Prefix_Bits k ≤ n ∧ n ≤ Addr_BitLen (Prefix_Addr k)
       ∧ Z.of_nat (length v) = n - Prefix_Bits k + 1
       ∧ ∀ i, 0 ≤ i ≤ n - Prefix_Bits k →
              v !! Z.to_nat i
              = Some (maskedIPToLabel
                        (Prefix_Addr
                           (Prefix_Masked
                              (PrefixFrom (Prefix_Addr k) (Prefix_Bits k + i))))
                        (Prefix_Bits k + i)).
Proof.
  intros Hr Hin.
  destruct (reachable_inv st Hr) as (_ & _ & Hok & _).
  rewrite Forall_forall in Hok.
  destruct (Hok _ Hin) as (a & j & n & Ha & Hj & Hn & [= -> ->]).
  rewrite Prefix_Addr_PrefixFrom, Prefix_Bits_PrefixFrom by (done || lia).
  exists n. split; [lia|]. split; [done|].
  split; [by rewrite length_chain by lia|].
  intros i Hi. unfold chain. rewrite list_lookup_fmap.
  rewrite (lookup_seqZ_lt j (n - j + 1) (Z.to_nat i)) by lia.
  cbn [fmap option_fmap option_map]. unfold chainLabel.
  by rewrite Z2Nat.id by lia.
Qed.

Lemma X8_cache_entry_labels_witness :
  ∃ n, 0 ≤ Prefix_Bits (PrefixFrom addr10 3) ≤ n
       ∧ n ≤ Addr_BitLen (Prefix_Addr (PrefixFrom addr10 3))
       ∧ Z.of_nat (length (chain addr10 3 8))
         = n - Prefix_Bits (PrefixFrom addr10 3) + 1
       ∧ ∀ i, 0 ≤ i ≤ n - Prefix_Bits (PrefixFrom addr10 3) →
              chain addr10 3 8 !! Z.to_nat i
              = Some (maskedIPToLabel
                        (Prefix_Addr
                           (Prefix_Masked
                              (PrefixFrom (Prefix_Addr (PrefixFrom addr10 3))
                                 (Prefix_Bits (PrefixFrom addr10 3) + i))))
                        (Prefix_Bits (PrefixFrom addr10 3) + i)).
Proof.
  apply (X8_cache_entry_labels after8 (PrefixFrom addr10 3) (chain addr10 3 8)).
  - apply reachable_step; [apply reachable_init|apply PrefixFrom_wf].
  - vm_compute. repeat constructor.
Defined.

End cache_contents.

Section compute_results.

Import netip labels cidr.

Implicit Types (cache : Cache) (st : option Cache) (p q : Prefix) (ds : bool).
Implicit Types (l : list (Prefix * list Label)) (lbls : Labels).
Implicit Types (a : Addr) (n m i j : Z) (k : Prefix).

Lemma addLabels_is_Some lbls (v : list Label) (key : string) :
  is_Some (lbls !! key) → is_Some (addLabels lbls v !! key).
Proof.
  revert lbls. induction v as [|x v IH]; intros lbls Hs; [done|].
  rewrite addLabels_cons. apply IH.
  destruct (decide (Key x = key)) as [<-|Hne].
  - by rewrite lookup_insert_eq.
  - by rewrite lookup_insert_ne.
Qed.

Lemma addLabels_elem_is_Some lbls (v : list Label) (x : Label) :
  x ∈ v → is_Some (addLabels lbls v !! Key x).
Proof.
  revert lbls. induction v as [|y v IH]; intros lbls Hin.
  { by apply elem_of_nil in Hin. }
  rewrite addLabels_cons. apply elem_of_cons in Hin as [->|Hin].
  - apply addLabels_is_Some. by rewrite lookup_insert_eq.
  - by apply IH.
Qed.

Lemma addLabels_keyed lbls (v : list Label) :
  (∀ (key : string) (x : Label), lbls !! key = Some x → Key x = key) →
  ∀ (key : string) (x : Label), addLabels lbls v !! key = Some x → Key x = key.
Proof.
  intros Hk key x [Hl|[_ Hx]]%addLabels_lookup_Some; [by eapply Hk|done].
Qed.

(** What a run of [computeCIDRLabels_rec] keeps, for any cache and
    any arguments. *)
Lemma computeCIDRLabels_rec_keeps fuel :
  ∀ cache lbls (results : list Label) a n i,
    let r := computeCIDRLabels_rec fuel cache lbls results a n i in
    simplelru.size r.1.1 = simplelru.size cache
    ∧ Z.of_nat (length (simplelru.evictList r.1.1))
      ≤ Z.max (Z.of_nat (length (simplelru.evictList cache)))
          (simplelru.size cache)
    ∧ results `prefix_of` r.2
    ∧ (∀ key : string, is_Some (lbls !! key) → is_Some (r.1.2 !! key))
    ∧ (∀ x : Label, x ∈ drop (length results) r.2 → is_Some (r.1.2 !! Key x))
    ∧ ((∀ (key : string) (x : Label), lbls !! key = Some x → Key x = key) →
       ∀ (key : string) (x : Label), r.1.2 !! key = Some x → Key x = key).
Proof.
  induction fuel as [|fuel IH]; intros cache lbls results a n i.
  - cbn [computeCIDRLabels_rec]. destruct (n <? i); cbn [fst snd].
    all: repeat split; try done; try lia.
    all: rewrite drop_all; by intros x ?%elem_of_nil.
  - cbn [computeCIDRLabels_rec]. destruct (n <? i); cbn [fst snd].
    { repeat split; try done; try lia.
      rewrite drop_all; by intros x ?%elem_of_nil. }
    unfold simplelru.Get.
    destruct (simplelru.find (PrefixFrom a i) (simplelru.evictList cache))
      as [v|] eqn:Hf.
    + assert (Z.of_nat (length ((PrefixFrom a i, v)
                :: simplelru.remove (PrefixFrom a i) (simplelru.evictList cache)))
              ≤ Z.of_nat (length (simplelru.evictList cache))) as Hlen.
      { pose proof (length_remove_lt (PrefixFrom a i) (simplelru.evictList cache)) as Hlt.
        cbn [length]. apply find_Some in Hf.
        assert (PrefixFrom a i ∈ (simplelru.evictList cache).*1) as Hin.
        { apply list_elem_of_fmap. by exists (PrefixFrom a i, v). }
        specialize (Hlt Hin). lia. }
      destruct results as [|x0 results]; cbn [fst snd simplelru.size simplelru.evictList].
      * split; [done|]. split; [lia|]. split; [apply prefix_nil|].
        split; [intros key; apply addLabels_is_Some|].
        split; [intros x; rewrite drop_0; apply addLabels_elem_is_Some|].
        intros Hk. by apply addLabels_keyed.
      * split; [done|]. split; [lia|].
        split; [by apply prefix_app_r|].
        split; [intros key; apply addLabels_is_Some|].
        split; [|intros Hk; by apply addLabels_keyed].
        intros x. rewrite drop_app_length. apply addLabels_elem_is_Some.
    + set (lbl := maskedIPToLabel _ i).
      specialize (IH cache (<[Key lbl := lbl]> lbls) (results ++ [lbl]) a n (i + 1)).
      destruct (computeCIDRLabels_rec fuel cache _ _ a n (i + 1))
        as [[cache' lbls'] results'] eqn:Hrec.
      cbn [fst snd] in IH |- *.
      destruct IH as (Hs & Hl & Hp & Hm & Hd & Hk).
      split; [|split; [|split; [|split; [|split]]]].
      * unfold simplelru.Add. repeat case_match; cbn [simplelru.size]; done.
      * unfold simplelru.Add.
        destruct (simplelru.find _ (simplelru.evictList cache')) as [w|] eqn:Hf'.
        -- cbn [simplelru.evictList].
           pose proof (length_remove_lt (PrefixFrom a i) (simplelru.evictList cache')) as Hlt.
           apply find_Some in Hf'.
           assert (PrefixFrom a i ∈ (simplelru.evictList cache').*1) as Hin.
           { apply list_elem_of_fmap. by exists (PrefixFrom a i, w). }
           specialize (Hlt Hin). cbn [length]. lia.
        -- cbv zeta.
           destruct (Z.ltb_spec (simplelru.size cache')
                       (Z.of_nat (length ((PrefixFrom a i, drop (Z.to_nat i) results')
                                            :: simplelru.evictList cache')))) as [Hlt|Hge];
             cbn [simplelru.evictList].
           ++ rewrite removelast_firstn_len, length_take. cbn [length]. lia.
           ++ cbn [length] in Hge |- *. lia.
      * etrans; [|exact Hp]. by apply prefix_app_r.
      * intros key Hsome. apply Hm.
        destruct (decide (Key lbl = key)) as [<-|Hne].
        -- by rewrite lookup_insert_eq.
        -- by rewrite lookup_insert_ne.
      * intros x Hx. destruct Hp as [t ->].
        rewrite <-app_assoc, drop_app_length in Hx.
        apply elem_of_cons in Hx as [->|Hx].
        -- apply Hm. by rewrite lookup_insert_eq.
        -- apply Hd. by rewrite <-app_assoc, length_app, <-drop_drop, drop_app_length.
      * intros Hkeyed. apply Hk. intros key x.
        destruct (decide (Key lbl = key)) as [<-|Hne].
        -- rewrite lookup_insert_eq. by intros [= <-].
        -- rewrite lookup_insert_ne by done. apply Hkeyed.
Qed.

(** X9.  Called at a level [i] with a list of at least [i] labels,
    as the slice [results[i:]] needs, and whatever the cache holds,
    [computeCIDRLabels] keeps the capacity of the cache and never
    lets it grow beyond the larger of its capacity and its length
    before; the list it returns starts with the list it was given;
    no key of the label map is lost; every label that the list gains
    is a key of the map; and a map that holds each label under the
    key of the label still does after the call. *)
Theorem X9_computeCIDRLabels_keeps cache lbls (results : list Label) a n i :
  0 ≤ i ≤ Z.of_nat (length results) →
  let r := computeCIDRLabels cache lbls results a n i in
  simplelru.size r.1.1 = simplelru.size cache
  ∧ Z.of_nat (length (simplelru.evictList r.1.1))
    ≤ Z.max (Z.of_nat (length (simplelru.evictList cache)))
        (simplelru.size cache)
  ∧ results `prefix_of` r.2
  ∧ (∀ key : string, is_Some (lbls !! key) → is_Some (r.1.2 !! key))
  ∧ (∀ x : Label, x ∈ drop (length results) r.2 → is_Some (r.1.2 !! Key x))
  ∧ ((∀ (key : string) (x : Label), lbls !! key = Some x → Key x = key) →
     ∀ (key : string) (x : Label), r.1.2 !! key = Some x → Key x = key).
Proof. intros _. apply computeCIDRLabels_rec_keeps. Qed.

(** The call of [GetCIDRLabels] for 10.0.0.0/8 on the empty cache. *)
Lemma X9_computeCIDRLabels_keeps_witness :
  let cache : Cache := simplelru.NewLRU cidrLabelsCacheMaxSize in
  let lbls : Labels := ∅ in
  let results : list Label := [] in
  let r := computeCIDRLabels cache lbls results addr10 8 0 in
  simplelru.size r.1.1 = simplelru.size cache
  ∧ Z.of_nat (length (simplelru.evictList r.1.1))
    ≤ Z.max (Z.of_nat (length (simplelru.evictList cache)))
        (simplelru.size cache)
  ∧ results `prefix_of` r.2
  ∧ (∀ key : string, is_Some (lbls !! key) → is_Some (r.1.2 !! key))
  ∧ (∀ x : Label, x ∈ drop (length results) r.2 → is_Some (r.1.2 !! Key x))
  ∧ ((∀ (key : string) (x : Label), lbls !! key = Some x → Key x = key) →
     ∀ (key : string) (x : Label), r.1.2 !! key = Some x → Key x = key).
Proof.
  apply (X9_computeCIDRLabels_keeps
           (simplelru.NewLRU cidrLabelsCacheMaxSize) ∅ [] addr10 8 0).
  cbn [length]. lia.
Defined.

(** X11.  After an expansion of a prefix of positive length the
    most recently used entry of the cache is the entry of length
    zero of the address of the prefix, and the labels returned are
    the labels of that entry and the world label. *)
Theorem X11_front_entry ds st p :
  reachable st → wfPrefix p → 0 < Prefix_Bits p →
  ∃ v : list Label,
    head (entries (GetCIDRLabels ds st p).1)
    = Some (PrefixFrom (Prefix_Addr p) 0, v)
    ∧ (GetCIDRLabels ds st p).2
      = addWorldLabel ds (Prefix_Addr p) (addLabels ∅ v).
Proof.
  intros Hr Hwf Hb.
  destruct (GetCIDRLabels_chain ds st p Hr Hwf Hb) as (m & _ & _ & Hl & Hhd).
  eauto.
Qed.

Lemma X11_front_entry_witness :
  ∃ v : list Label,
    head (entries (GetCIDRLabels false after16 slash8).1)
    = Some (PrefixFrom (Prefix_Addr slash8) 0, v)
    ∧ (GetCIDRLabels false after16 slash8).2
      = addWorldLabel false (Prefix_Addr slash8) (addLabels ∅ v).
Proof.
  apply (X11_front_entry false after16 slash8).
  - apply reachable_step; [apply reachable_init|apply PrefixFrom_wf].
  - apply PrefixFrom_wf.
  - by vm_compute.
Defined.

(** X12.  When every call returns before the next one starts, the
    keys of the cache are closed under shortening between the calls:
    with the key of an address and a length the cache holds the key
    of that address and every shorter length.  (A call stores the
    longest length first, so calls that overlap see less.) *)
Theorem X12_shorter_keys_cached st k i :
  reachable st → k ∈ (entries st).*1 → 0 ≤ i ≤ Prefix_Bits k →
  PrefixFrom (Prefix_Addr k) i ∈ (entries st).*1.
Proof.
  intros Hr Hk Hi.
  pose proof (reachable_inv st Hr) as Hinv.
  destruct (Hinv) as (Hs & Hl & Hok & Hc).
  apply list_elem_of_fmap in Hk as (e & -> & He).
  rewrite Forall_forall in Hok.
  destruct (Hok _ He) as (a & j & n & Ha & Hj & Hn & ->).
  cbn [fst] in Hi |- *.
  rewrite Prefix_Addr_PrefixFrom by (done || lia).
  rewrite Prefix_Bits_PrefixFrom in Hi by (done || lia).
  apply (cacheInv_closed_le (cacheOf st) a (Z.to_nat (j - i)) i j);
    try done; try lia.
  apply list_elem_of_fmap. by exists (PrefixFrom a j, chain a j n).
Qed.

Lemma X12_shorter_keys_cached_witness :
  PrefixFrom (Prefix_Addr slash8) 5 ∈ (entries after8).*1.
Proof.
  apply (X12_shorter_keys_cached after8 slash8 5).
  - apply reachable_step; [apply reachable_init|apply PrefixFrom_wf].
  - vm_compute. repeat constructor.
  - by vm_compute.
Defined.

(** X13.  When every call returns before the next one starts, two
    entries of the cache on the same address hold labels of one
    expansion: the labels of the entry of the longer key are the
    labels of the entry of the shorter key without the first ones,
    as many as the lengths differ. *)
Theorem X13_entries_share_labels st k1 k2 (v1 v2 : list Label) :
  reachable st → (k1, v1) ∈ entries st → (k2, v2) ∈ entries st →
  Prefix_Addr k1 = Prefix_Addr k2 → Prefix_Bits k1 ≤ Prefix_Bits k2 →
  v2 = drop (Z.to_nat (Prefix_Bits k2 - Prefix_Bits k1)) v1.
Proof.
  intros Hr H1 H2 Ha Hb.
  destruct (reachable_keys st Hr) as [_ Hc].
  exact (Hc (k1, v1) (k2, v2) H1 H2 Ha Hb).
Qed.

Lemma X13_entries_share_labels_witness :
  chain addr10 5 8
  = drop (Z.to_nat (Prefix_Bits (PrefixFrom addr10 5)
                    - Prefix_Bits (PrefixFrom addr10 2)))
      (chain addr10 2 8).
Proof.
  apply (X13_entries_share_labels after8 (PrefixFrom addr10 2)
           (PrefixFrom addr10 5)).
  - apply reachable_step; [apply reachable_init|apply PrefixFrom_wf].
  - vm_compute. repeat constructor.
  - vm_compute. repeat constructor.
  - reflexivity.
  - by vm_compute.
Defined.

(** X14.  When every call returns before the next one starts, an
    expansion of a prefix of length [n] whose lookup of length zero
    finds no entry puts [n + 1] entries at the front of the cache,
    the key of length zero first, and the cache drops from its end
    what exceeds 16384 entries; when the entries before and the new
    ones fit, nothing is dropped. *)
Theorem X14_computed_expansion_cache ds st p :
  reachable st → wfPrefix p → 0 < Prefix_Bits p →
  simplelru.find (PrefixFrom (Prefix_Addr p) 0) (entries st) = None →
  let a := Prefix_Addr p in
  let n := Prefix_Bits p in
  let new :=
    (fun j => (PrefixFrom a j,
               (fun i => maskedIPToLabel
                           (Prefix_Addr (Prefix_Masked (PrefixFrom a i))) i)
                 <$> seqZ j (n - j + 1)))
      <$> seqZ 0 (n + 1) in
  entries (GetCIDRLabels ds st p).1
  = take (Z.to_nat 16384) (new ++ entries st)
  ∧ (Z.of_nat (length (entries st)) + n + 1 ≤ 16384 →
     entries (GetCIDRLabels ds st p).1 = new ++ entries st).
Proof.
  intros Hr Hwf Hb Hf a n new.
  pose proof (reachable_inv st Hr) as Hinv.
  rewrite (GetCIDRLabels_miss ds st p Hinv Hwf Hb Hf).
  destruct Hinv as (Hs & _).
  cbn [fst]. unfold entries at 1 3. cbn [cacheOf simplelru.evictList].
  rewrite Hs. fold (entries st).
  assert (newEntries (Prefix_Addr p) 0 (Prefix_Bits p) = new) as ->.
  { unfold newEntries, new, chain, chainLabel. fold a. fold n.
    by replace (n - 0 + 1) with (n + 1) by lia. }
  split; [done|]. intros Hfit. apply take_ge.
  rewrite length_app. subst new. rewrite length_fmap, length_seqZ.
  unfold cidrLabelsCacheMaxSize. lia.
Qed.

Lemma X14_computed_expansion_cache_witness :
  let a := Prefix_Addr slash8 in
  let n := Prefix_Bits slash8 in
  let new :=
    (fun j => (PrefixFrom a j,
               (fun i => maskedIPToLabel
                           (Prefix_Addr (Prefix_Masked (PrefixFrom a i))) i)
                 <$> seqZ j (n - j + 1)))
      <$> seqZ 0 (n + 1) in
  entries (GetCIDRLabels false None slash8).1
  = take (Z.to_nat 16384) (new ++ entries None)
  ∧ (Z.of_nat (length (entries None)) + n + 1 ≤ 16384 →
     entries (GetCIDRLabels false None slash8).1 = new ++ entries None).
Proof.
  apply (X14_computed_expansion_cache false None slash8).
  - apply reachable_init.
  - apply PrefixFrom_wf.
  - by vm_compute.
  - reflexivity.
Defined.

End compute_results.


Section ipv4_text.

Import netip labels cidr.

Implicit Types (s t rest : string) (c : ascii) (x d : Z) (a : Addr).

Lemma digit_cases d :
  0 ≤ d ≤ 9 →
  d = 0 ∨ d = 1 ∨ d = 2 ∨ d = 3 ∨ d = 4 ∨ d = 5 ∨ d = 6 ∨ d = 7 ∨ d = 8 ∨ d = 9.
Proof. lia. Qed.

Lemma lowerhex_digit d :
  0 ≤ d ≤ 9 →
  bytes.isDigit (strconv.lowerhex d) = true
  ∧ bytes.code (strconv.lowerhex d) - bytes.code "0" = d.
Proof.
  intros Hd. destruct (digit_cases d Hd) as [->|[->|[->|[->|[->|[->|[->|[->|[->| ->]]]]]]]]];
    by vm_compute.
Qed.

Lemma appendDecimal_dec s x : appendDecimal s x = s +:+ decimal x.
Proof.
  unfold decimal, appendDecimal.
  destruct (100 <=? x), (10 <=? x);
    rewrite ?app_nil_l_s, ?app_assoc_s; reflexivity.
Qed.

Lemma dec_cases x :
  0 ≤ x ≤ 255 →
  (x ≤ 9 ∧ decimal x = digits x)
  ∨ (10 ≤ x ≤ 99 ∧ decimal x = digits (x / 10) +:+ digits (x mod 10))
  ∨ (100 ≤ x ∧ decimal x = digits (x / 100) +:+ digits (x / 10 mod 10)
                        +:+ digits (x mod 10)).
Proof.
  intros Hx. unfold decimal, appendDecimal.
  destruct (Z.leb_spec 100 x) as [H100|H100].
  - right. right. split; [done|].
    destruct (Z.leb_spec 10 x); [|lia]. by rewrite ?app_nil_l_s, ?app_assoc_s.
  - destruct (Z.leb_spec 10 x) as [H10|H10].
    + right. left. split; [lia|]. rewrite app_nil_l_s.
      by rewrite (Z.mod_small (x / 10) 10)
        by (split; [apply Z.div_pos; lia|apply Z.div_lt_upper_bound; lia]).
    + left. split; [lia|]. rewrite app_nil_l_s.
      by rewrite Z.mod_small by lia.
Qed.

Lemma string4_dec a :
  string4 a
  = decimal (v4 a 0) +:+ "." +:+ decimal (v4 a 1) +:+ "."
      +:+ decimal (v4 a 2) +:+ "." +:+ decimal (v4 a 3).
Proof.
  unfold string4. cbv zeta. rewrite !appendDecimal_dec.
  rewrite app_nil_l_s. by rewrite !app_assoc_s.
Qed.

Lemma uint8_range x : 0 ≤ uint8 x ≤ 255.
Proof.
  unfold uint8. change (Z.land x 255) with (Z.land x (Z.ones 8)).
  rewrite Z.land_ones by lia.
  change (2 ^ 8) with 256. pose proof (Z.mod_pos_bound x 256). lia.
Qed.

Lemma uint8_small x : 0 ≤ x ≤ 255 → uint8 x = x.
Proof.
  intros Hx. unfold uint8. change (Z.land x 255) with (Z.land x (Z.ones 8)).
  rewrite Z.land_ones by lia. change (2 ^ 8) with 256. apply Z.mod_small. lia.
Qed.

Lemma v4_range a i : 0 ≤ v4 a i ≤ 255.
Proof. apply uint8_range. Qed.


Lemma len_cons c s : bytes.len (String c s) = bytes.len s + 1.
Proof. unfold bytes.len. cbn [String.length]. lia. Qed.

Lemma len_app s t : bytes.len (s +:+ t) = bytes.len s + bytes.len t.
Proof.
  induction s as [|c s IH].
  - rewrite app_nil_l_s. unfold bytes.len. cbn [String.length]. lia.
  - rewrite app_cons_s, !len_cons, IH. lia.
Qed.

Lemma len_nonneg s : 0 ≤ bytes.len s.
Proof. unfold bytes.len. lia. Qed.

Lemma len_digits d : bytes.len (digits d) = 1.
Proof. done. Qed.

Lemma len_dec x : 0 ≤ x ≤ 255 → 1 ≤ bytes.len (decimal x) ≤ 3.
Proof.
  intros Hx. destruct (dec_cases x Hx) as [[_ ->]|[[_ ->]|[_ ->]]];
    rewrite ?len_app, ?len_digits; lia.
Qed.

(** One digit of a field. *)
Lemma parseIPv4Fields_loop_digit in_ n d rest i prev val pos digLen
    (fields : list Z) :
  0 ≤ d ≤ 9 → ¬ (digLen = 1 ∧ val = 0) → val * 10 + d ≤ 255 →
  parseIPv4Fields_loop in_ n (digits d +:+ rest) i prev val pos digLen fields
  = parseIPv4Fields_loop in_ n rest (i + 1) (Some (strconv.lowerhex d))
      (val * 10 + d) pos (digLen + 1) fields.
Proof.
  intros Hd Hz Hv. unfold digits. rewrite app_cons_s, app_nil_l_s.
  cbn [parseIPv4Fields_loop].
  destruct (lowerhex_digit d Hd) as [-> ->].
  destruct (andb (digLen =? 1) (val =? 0)) eqn:Hlz.
  { apply andb_true_iff in Hlz as [?%Z.eqb_eq ?%Z.eqb_eq]. tauto. }
  destruct (Z.ltb_spec 255 (val * 10 + d)); [lia|done].
Qed.

(** The digits of one field. *)
Lemma parseIPv4Fields_loop_dec in_ n x rest i prev pos (fields : list Z) :
  0 ≤ x ≤ 255 →
  ∃ c, bytes.isDigit c = true ∧
       parseIPv4Fields_loop in_ n (decimal x +:+ rest) i prev 0 pos 0 fields
       = parseIPv4Fields_loop in_ n rest (i + bytes.len (decimal x)) (Some c)
           x pos (bytes.len (decimal x)) fields.
Proof.
  intros Hx. destruct (dec_cases x Hx) as [[H1 ->]|[[H1 ->]|[H1 ->]]].
  - exists (strconv.lowerhex x). split; [apply lowerhex_digit; lia|].
    rewrite parseIPv4Fields_loop_digit by lia. done.
  - assert (0 < x / 10 ≤ 9) as Hq.
    { split; [apply Z.div_str_pos; lia|].
      apply Z.lt_succ_r, Z.div_lt_upper_bound; lia. }
    pose proof (Z.mod_pos_bound x 10 ltac:(lia)) as Hr.
    pose proof (Z.div_mod x 10 ltac:(lia)) as Hdm.
    exists (strconv.lowerhex (x mod 10)).
    split; [apply lowerhex_digit; lia|].
    rewrite app_assoc_s.
    rewrite parseIPv4Fields_loop_digit by lia.
    rewrite parseIPv4Fields_loop_digit by lia.
    rewrite len_app, !len_digits. f_equal; lia.
  - assert (0 < x / 100 ≤ 2) as Hq.
    { split; [apply Z.div_str_pos; lia|].
      apply Z.lt_succ_r, Z.div_lt_upper_bound; lia. }
    pose proof (Z.mod_pos_bound x 10 ltac:(lia)) as Hr.
    pose proof (Z.mod_pos_bound (x / 10) 10 ltac:(lia)) as Hr2.
    pose proof (Z.div_mod x 10 ltac:(lia)) as Hdm.
    pose proof (Z.div_mod (x / 10) 10 ltac:(lia)) as Hdm2.
    assert (x / 10 / 10 = x / 100) as Hdd.
    { rewrite Z.div_div by lia. done. }
    rewrite Hdd in Hdm2.
    exists (strconv.lowerhex (x mod 10)).
    split; [apply lowerhex_digit; lia|].
    rewrite !app_assoc_s.
    rewrite parseIPv4Fields_loop_digit by lia.
    rewrite parseIPv4Fields_loop_digit by lia.
    rewrite parseIPv4Fields_loop_digit by lia.
    rewrite !len_app, !len_digits. f_equal; lia.
Qed.

(** The dot after a field. *)
Lemma parseIPv4Fields_loop_dot in_ n rest i c val pos digLen
    (fields : list Z) :
  bytes.isDigit c = true → 0 < i → i + 1 < n → pos < 3 →
  parseIPv4Fields_loop in_ n ("." +:+ rest) i (Some c) val pos digLen fields
  = parseIPv4Fields_loop in_ n rest (i + 1) (Some "."%char) 0 (pos + 1) 0
      (<[Z.to_nat pos := uint8 val]> fields).
Proof.
  intros Hc Hi Hn Hp. rewrite app_cons_s, app_nil_l_s.
  cbn [parseIPv4Fields_loop].
  change (bytes.isDigit ".") with false. cbv iota.
  rewrite bool_decide_eq_true_2 by done.
  destruct (Z.eqb_spec i 0); [lia|].
  destruct (Z.eqb_spec i (n - 1)); [lia|].
  rewrite bool_decide_eq_false_2; [|intros [= ->]; done].
  cbn [orb]. destruct (Z.eqb_spec pos 3); [lia|done].
Qed.

Lemma parseIPv4Fields_string4 in_ a :
  parseIPv4Fields in_ (string4 a) = inl [v4 a 0; v4 a 1; v4 a 2; v4 a 3].
Proof.
  unfold parseIPv4Fields. rewrite string4_dec.
  pose proof (v4_range a 0) as H0. pose proof (v4_range a 1) as H1.
  pose proof (v4_range a 2) as H2. pose proof (v4_range a 3) as H3.
  pose proof (len_dec _ H0) as L0. pose proof (len_dec _ H1) as L1.
  pose proof (len_dec _ H2) as L2. pose proof (len_dec _ H3) as L3.
  set (n := bytes.len _).
  assert (n = bytes.len (decimal (v4 a 0)) + bytes.len (decimal (v4 a 1))
              + bytes.len (decimal (v4 a 2)) + bytes.len (decimal (v4 a 3)) + 3) as Hn.
  { subst n. rewrite !len_app. change (bytes.len ".") with 1. lia. }
  clearbody n.
  destruct (parseIPv4Fields_loop_dec in_ n (v4 a 0)
              ("." +:+ decimal (v4 a 1) +:+ "." +:+ decimal (v4 a 2) +:+ "."
                 +:+ decimal (v4 a 3)) 0 None 0 [0; 0; 0; 0] H0) as (c0 & Hc0 & ->).
  rewrite parseIPv4Fields_loop_dot by (done || lia).
  destruct (parseIPv4Fields_loop_dec in_ n (v4 a 1)
              ("." +:+ decimal (v4 a 2) +:+ "." +:+ decimal (v4 a 3))
              (0 + bytes.len (decimal (v4 a 0)) + 1) (Some "."%char) (0 + 1)
              (<[Z.to_nat 0 := uint8 (v4 a 0)]> [0; 0; 0; 0]) H1)
    as (c1 & Hc1 & ->).
  rewrite parseIPv4Fields_loop_dot by (done || lia).
  destruct (parseIPv4Fields_loop_dec in_ n (v4 a 2)
              ("." +:+ decimal (v4 a 3))
              (0 + bytes.len (decimal (v4 a 0)) + 1 + bytes.len (decimal (v4 a 1)) + 1)
              (Some "."%char) (0 + 1 + 1)
              (<[Z.to_nat (0 + 1) := uint8 (v4 a 1)]>
                 (<[Z.to_nat 0 := uint8 (v4 a 0)]> [0; 0; 0; 0])) H2)
    as (c2 & Hc2 & ->).
  rewrite parseIPv4Fields_loop_dot by (done || lia).
  rewrite <-(app_nil_r_s (decimal (v4 a 3))).
  destruct (parseIPv4Fields_loop_dec in_ n (v4 a 3) EmptyString
              (0 + bytes.len (decimal (v4 a 0)) + 1 + bytes.len (decimal (v4 a 1)) + 1
                 + bytes.len (decimal (v4 a 2)) + 1)
              (Some "."%char) (0 + 1 + 1 + 1)
              (<[Z.to_nat (0 + 1 + 1) := uint8 (v4 a 2)]>
                 (<[Z.to_nat (0 + 1) := uint8 (v4 a 1)]>
                    (<[Z.to_nat 0 := uint8 (v4 a 0)]> [0; 0; 0; 0]))) H3)
    as (c3 & Hc3 & ->).
  cbn [parseIPv4Fields_loop].
  change (0 + 1 + 1 + 1 <? 3) with false. cbv iota.
  change (Z.to_nat (0 + 1 + 1)) with 2%nat.
  change (Z.to_nat (0 + 1)) with 1%nat.
  change (Z.to_nat 0) with 0%nat.
  cbn [insert list_insert]. rewrite !uint8_small by done. done.
Qed.

Lemma parseIPv4_string4 a :
  parseIPv4 (string4 a)
  = inl (AddrFrom4 (v4 a 0) (v4 a 1) (v4 a 2) (v4 a 3)).
Proof. unfold parseIPv4. by rewrite parseIPv4Fields_string4. Qed.


Lemma digitsOnly_app s t :
  digitsOnly (s +:+ t) = digitsOnly s && digitsOnly t.
Proof.
  induction s as [|c s IH]; [done|].
  rewrite app_cons_s. cbn [digitsOnly]. by rewrite IH, andb_assoc.
Qed.

Lemma digitsOnly_digits d : 0 ≤ d ≤ 9 → digitsOnly (digits d) = true.
Proof.
  intros Hd. unfold digits. cbn [digitsOnly].
  by destruct (lowerhex_digit d Hd) as [-> _].
Qed.

Lemma digitsOnly_dec x : 0 ≤ x ≤ 255 → digitsOnly (decimal x) = true.
Proof.
  intros Hx.
  pose proof (Z.mod_pos_bound x 10 ltac:(lia)) as Hr.
  pose proof (Z.mod_pos_bound (x / 10) 10 ltac:(lia)) as Hr2.
  destruct (dec_cases x Hx) as [[H1 ->]|[[H1 ->]|[H1 ->]]];
    rewrite ?digitsOnly_app, ?andb_true_iff; repeat split;
    apply digitsOnly_digits; try lia.
  - split; [apply Z.div_pos; lia|].
    apply Z.lt_succ_r, Z.div_lt_upper_bound; lia.
  - split; [apply Z.div_pos; lia|].
    apply Z.lt_succ_r, Z.div_lt_upper_bound; lia.
Qed.

Lemma dotDigits_app s t : dotDigits (s +:+ t) = dotDigits s && dotDigits t.
Proof.
  induction s as [|c s IH]; [done|].
  rewrite app_cons_s. cbn [dotDigits]. by rewrite IH, andb_assoc.
Qed.

Lemma digitsOnly_dotDigits s : digitsOnly s = true → dotDigits s = true.
Proof.
  induction s as [|c s IH]; [done|]. cbn [digitsOnly dotDigits].
  intros [Hc Hs]%andb_true_iff. unfold dotDigit. by rewrite Hc, IH.
Qed.

Lemma dotDigits_string4 a : dotDigits (string4 a) = true.
Proof.
  rewrite string4_dec, !dotDigits_app.
  rewrite (digitsOnly_dotDigits (decimal (v4 a 0))),
    (digitsOnly_dotDigits (decimal (v4 a 1))),
    (digitsOnly_dotDigits (decimal (v4 a 2))),
    (digitsOnly_dotDigits (decimal (v4 a 3)))
    by apply digitsOnly_dec, v4_range.
  reflexivity.
Qed.

Lemma dotDigits_mem c s :
  dotDigits s = true → dotDigit c = false → bytes.mem c s = false.
Proof.
  intros Hs Hc. induction s as [|b s IH]; [done|].
  cbn [dotDigits bytes.mem] in *.
  apply andb_true_iff in Hs as [Hb Hs]. rewrite IH by done.
  case_bool_decide; [congruence|done].
Qed.

Lemma Replace_absent s old new :
  bytes.mem old s = false → strings.Replace s old new = s.
Proof.
  induction s as [|c s IH]; [done|]. cbn [bytes.mem strings.Replace].
  intros [Hc Hs]%orb_false_iff. rewrite IH by done.
  by rewrite Hc.
Qed.

Lemma first_mem s c : bytes.first s = Some c → bytes.mem c s = true.
Proof.
  destruct s as [|b s]; [done|]. intros [= ->]. cbn [bytes.mem].
  by rewrite bool_decide_eq_true_2.
Qed.

Lemma last_mem s c : bytes.last s = Some c → bytes.mem c s = true.
Proof.
  induction s as [|b s IH]; [done|]. destruct s as [|b' s].
  - intros [= ->]. cbn [bytes.mem]. by rewrite bool_decide_eq_true_2.
  - intros Hl. cbn [bytes.mem] in IH |- *. rewrite (IH Hl).
    apply orb_true_r.
Qed.

(** The part of the key before the slash is, for an IPv4 address,
    the text of the address. *)
Lemma keyBody_v4 a : z a = z4 → keyBody a = string4 a.
Proof.
  intros Hz. unfold keyBody, Addr_String. rewrite Hz.
  pose proof (dotDigits_string4 a) as Hd.
  rewrite Replace_absent by (by apply dotDigits_mem).
  rewrite bool_decide_eq_false_2.
  2:{ intros Hf%first_mem. by rewrite dotDigits_mem in Hf. }
  rewrite bool_decide_eq_false_2.
  2:{ intros Hf%last_mem. by rewrite dotDigits_mem in Hf. }
  by rewrite app_nil_l_s, app_nil_r_s.
Qed.

Lemma maskedIPToLabel_Key_v4 a n :
  z a = z4 →
  Key (maskedIPToLabel a n) = string4 a +:+ "/" +:+ strconv.Itoa n.
Proof. intros Hz. by rewrite maskedIPToLabel_Key, keyBody_v4. Qed.

(** [ParseAddr] takes a text that starts with digits and a dot for
    an IPv4 address. *)
Lemma ParseAddr_scan_digits s t rest :
  digitsOnly t = true →
  ParseAddr_scan s (t +:+ "." +:+ rest) = parseIPv4 s.
Proof.
  induction t as [|c t IH]; intros Hd.
  - rewrite app_nil_l_s. done.
  - cbn [digitsOnly] in Hd. apply andb_true_iff in Hd as [Hc Hd].
    rewrite app_cons_s. cbn [ParseAddr_scan].
    rewrite !bool_decide_eq_false_2 by (intros ->; done).
    by apply IH.
Qed.

Lemma ParseAddr_string4 a :
  ParseAddr (string4 a)
  = inl (AddrFrom4 (v4 a 0) (v4 a 1) (v4 a 2) (v4 a 3)).
Proof.
  unfold ParseAddr. rewrite <-parseIPv4_string4.
  rewrite string4_dec at 2.
  apply ParseAddr_scan_digits, digitsOnly_dec, v4_range.
Qed.

End ipv4_text.

Section ipv4_bits.

Import netip labels cidr.

Implicit Types (a b : Addr) (n i t u : Z).

Lemma v4_testbit a i t :
  Z.testbit (v4 a i) t
  = (0 <=? t) && (t <? 8) && Z.testbit (addr a) (t + (3 - i) * 8).
Proof.
  destruct (Z.leb_spec 0 t) as [Ht|Ht]; [|by rewrite Z.testbit_neg_r by lia].
  unfold v4, uint8. change 255 with (Z.ones 8).
  rewrite Z.land_spec, Z.shiftr_spec, Z.testbit_ones_nonneg by lia.
  cbn [andb]. apply andb_comm.
Qed.

(** The bytes of an IPv4 address are its 32 low bits. *)
Lemma v4_ext a b i :
  (∀ u, 0 ≤ u < 32 → Z.testbit (addr a) u = Z.testbit (addr b) u) →
  0 ≤ i ≤ 3 → v4 a i = v4 b i.
Proof.
  intros Hab Hi. apply Z.bits_inj'. intros t Ht. rewrite !v4_testbit.
  destruct (Z.ltb_spec t 8) as [H8|H8]; [|by rewrite !andb_false_r].
  f_equal. apply Hab. lia.
Qed.

Lemma AddrFrom4_testbit (b0 b1 b2 b3 : Z) u :
  0 ≤ u < 32 →
  Z.testbit (addr (AddrFrom4 b0 b1 b2 b3)) u
  = Z.testbit b0 (u - 24) || Z.testbit b1 (u - 16)
    || (Z.testbit b2 (u - 8) || Z.testbit b3 u).
Proof.
  intros Hu. unfold AddrFrom4. cbn [addr].
  rewrite !Z.lor_spec, !Z.shiftl_spec by lia.
  change 281470681743360 with (Z.shiftl 65535 32).
  rewrite Z.shiftl_spec_low by lia. done.
Qed.

Lemma AddrFrom4_v4_testbit a u :
  0 ≤ u < 32 →
  Z.testbit (addr (AddrFrom4 (v4 a 0) (v4 a 1) (v4 a 2) (v4 a 3))) u
  = Z.testbit (addr a) u.
Proof.
  intros Hu. rewrite AddrFrom4_testbit, !v4_testbit by done.
  destruct (Z.le_gt_cases 24 u); [|destruct (Z.le_gt_cases 16 u);
    [|destruct (Z.le_gt_cases 8 u)]].
  - rewrite (proj2 (Z.leb_le 0 (u - 24))), (proj2 (Z.ltb_lt (u - 24) 8)) by lia.
    rewrite (proj2 (Z.ltb_ge (u - 16) 8)), (proj2 (Z.ltb_ge (u - 8) 8)),
      (proj2 (Z.ltb_ge u 8)) by lia.
    rewrite !andb_false_r, !orb_false_r. cbn [andb]. f_equal. lia.
  - rewrite (proj2 (Z.leb_gt 0 (u - 24))) by lia.
    rewrite (proj2 (Z.leb_le 0 (u - 16))), (proj2 (Z.ltb_lt (u - 16) 8)) by lia.
    rewrite (proj2 (Z.ltb_ge (u - 8) 8)), (proj2 (Z.ltb_ge u 8)) by lia.
    rewrite !andb_false_r, !orb_false_r. cbn [andb orb]. f_equal. lia.
  - rewrite (proj2 (Z.leb_gt 0 (u - 24))), (proj2 (Z.leb_gt 0 (u - 16))) by lia.
    rewrite (proj2 (Z.leb_le 0 (u - 8))), (proj2 (Z.ltb_lt (u - 8) 8)) by lia.
    rewrite (proj2 (Z.ltb_ge u 8)) by lia.
    rewrite !andb_false_r, !orb_false_r. cbn [andb orb]. f_equal. lia.
  - rewrite (proj2 (Z.leb_gt 0 (u - 24))), (proj2 (Z.leb_gt 0 (u - 16))),
      (proj2 (Z.leb_gt 0 (u - 8))) by lia.
    rewrite (proj2 (Z.leb_le 0 u)), (proj2 (Z.ltb_lt u 8)) by lia.
    cbn [andb orb]. f_equal. lia.
Qed.

(** The address [ParseAddr] gives for the text of an IPv4 address
    has the bytes of that address. *)
Lemma v4_AddrFrom4_v4 a i :
  0 ≤ i ≤ 3 →
  v4 (AddrFrom4 (v4 a 0) (v4 a 1) (v4 a 2) (v4 a 3)) i = v4 a i.
Proof. intros Hi. apply v4_ext; [|done]. apply AddrFrom4_v4_testbit. Qed.

Lemma string4_ext a b :
  (∀ i, 0 ≤ i ≤ 3 → v4 a i = v4 b i) → string4 a = string4 b.
Proof.
  intros H. rewrite !string4_dec.
  by rewrite (H 0), (H 1), (H 2), (H 3) by lia.
Qed.

(** Two IPv4 addresses with the same bytes have the same labels. *)
Lemma maskedIPToLabel_v4_ext a b n :
  z a = z4 → z b = z4 → (∀ i, 0 ≤ i ≤ 3 → v4 a i = v4 b i) →
  maskedIPToLabel a n = maskedIPToLabel b n.
Proof.
  intros Ha Hb H.
  assert (Key (maskedIPToLabel a n) = Key (maskedIPToLabel b n)) as Hk.
  { rewrite !maskedIPToLabel_Key_v4 by done. by rewrite (string4_ext a b). }
  unfold maskedIPToLabel in *. cbn [Key] in Hk. cbv zeta. by rewrite Hk.
Qed.

(** The masked address of an IPv4 prefix. *)
Lemma Masked_v4 a n :
  z a = z4 → 0 ≤ n ≤ 32 →
  Prefix_Addr (Prefix_Masked (PrefixFrom a n))
  = mkAddr (Z.land (addr a) (mask6 (n + 96))) z4.
Proof.
  intros Hz Hn. destruct a as [x zz]. cbn [z] in Hz. subst zz.
  rewrite PrefixFrom_ok by (by left || done).
  unfold Prefix_Masked, Prefix_Bits, Addr_Prefix. cbn [ip bitsPlusOne z addr].
  replace (n + 1 - 1) with n by lia.
  destruct (Z.ltb_spec n 0); [lia|]. destruct (Z.ltb_spec 32 n); [lia|].
  rewrite PrefixFrom_ok by (by left || done). done.
Qed.

Lemma Masked_v4_bits a b n :
  z a = z4 → z b = z4 → 0 ≤ n ≤ 32 →
  (∀ u, 0 ≤ u < 32 → Z.testbit (addr a) u = Z.testbit (addr b) u) →
  maskedIPToLabel (Prefix_Addr (Prefix_Masked (PrefixFrom a n))) n
  = maskedIPToLabel (Prefix_Addr (Prefix_Masked (PrefixFrom b n))) n.
Proof.
  intros Ha Hb Hn Hab. rewrite !Masked_v4 by done.
  apply maskedIPToLabel_v4_ext; [done|done|].
  intros i Hi. apply v4_ext; [|done]. intros u Hu. cbn [addr].
  by rewrite !Z.land_spec, Hab.
Qed.

(** Masking twice is masking once. *)
Lemma Masked_v4_idemp a n :
  z a = z4 → 0 ≤ n ≤ 32 →
  Prefix_Addr (Prefix_Masked
                 (PrefixFrom (Prefix_Addr (Prefix_Masked (PrefixFrom a n))) n))
  = Prefix_Addr (Prefix_Masked (PrefixFrom a n)).
Proof.
  intros Hz Hn. rewrite (Masked_v4 a n) by done.
  rewrite Masked_v4 by done. cbn [addr].
  by rewrite <-Z.land_assoc, Z.land_diag.
Qed.

End ipv4_bits.

Section parse_facts.

Import netip labels cidr.

Implicit Types (s t : string) (c : ascii) (a : Addr) (n : Z).

Lemma LastIndexByte_app_slash s t :
  bytes.mem "/" t = false →
  strings.LastIndexByte (s +:+ "/" +:+ t) "/" = bytes.len s.
Proof.
  intros Ht. induction s as [|c s IH].
  - rewrite app_nil_l_s, app_cons_s, app_nil_l_s. cbn [strings.LastIndexByte].
    apply LastIndexByte_neg in Ht.
    destruct (Z.leb_spec 0 (strings.LastIndexByte t "/")); [lia|].
    by rewrite bool_decide_eq_true_2.
  - rewrite app_cons_s. cbn [strings.LastIndexByte]. rewrite IH, len_cons.
    pose proof (len_nonneg s).
    destruct (Z.leb_spec 0 (bytes.len s)); [done|lia].
Qed.

Lemma take_len_app s t : bytes.take (Z.to_nat (bytes.len s)) (s +:+ t) = s.
Proof.
  unfold bytes.len. rewrite Nat2Z.id.
  induction s as [|c s IH]; [by destruct t|].
  rewrite app_cons_s. cbn [String.length bytes.take]. by rewrite IH.
Qed.

Lemma drop_len_app s t :
  bytes.drop (Z.to_nat (bytes.len s + 1)) (s +:+ "/" +:+ t) = t.
Proof.
  unfold bytes.len. replace (Z.of_nat (String.length s) + 1)
    with (Z.of_nat (S (String.length s))) by lia.
  rewrite Nat2Z.id.
  induction s as [|c s IH]; [by destruct t|].
  rewrite app_cons_s. cbn [String.length bytes.drop]. exact IH.
Qed.

(** The text of a length from 0 to 128 is read back by
    [ParsePrefix]: it has no leading zero, and [Atoi] gives the
    length. *)
Lemma bits_text n :
  0 ≤ n ≤ 128 →
  strconv.Atoi (strconv.Itoa n) = Some n
  ∧ (1 <? bytes.len (strconv.Itoa n))
    && match bytes.first (strconv.Itoa n) with
       | Some c => (bytes.code c <? bytes.code "1")
                   || (bytes.code "9" <? bytes.code c)
       | None => false
       end = false.
Proof.
  intros Hn.
  set (ok := fun n =>
         bool_decide (strconv.Atoi (strconv.Itoa n) = Some n)
         && negb ((1 <? bytes.len (strconv.Itoa n))
                  && match bytes.first (strconv.Itoa n) with
                     | Some c => (bytes.code c <? bytes.code "1")
                                 || (bytes.code "9" <? bytes.code c)
                     | None => false
                     end)).
  assert (forallb ok (seqZ 0 129) = true) as Hall by (by vm_compute).
  rewrite forallb_forall in Hall.
  assert (ok n = true) as Hok.
  { apply Hall, list_elem_of_In, elem_of_seqZ. lia. }
  unfold ok in Hok. apply andb_true_iff in Hok as [H1 H2].
  apply bool_decide_eq_true in H1. apply negb_true_iff in H2. done.
Qed.

Lemma AddrFrom4_z (b0 b1 b2 b3 : Z) : z (AddrFrom4 b0 b1 b2 b3) = z4.
Proof. done. Qed.

Lemma ParsePrefix_v4 a n :
  0 ≤ n ≤ 32 →
  ParsePrefix (string4 a +:+ "/" +:+ strconv.Itoa n)
  = inl (PrefixFrom (AddrFrom4 (v4 a 0) (v4 a 1) (v4 a 2) (v4 a 3)) n).
Proof.
  intros Hn. unfold ParsePrefix.
  rewrite LastIndexByte_app_slash by apply Itoa_no_slash.
  pose proof (len_nonneg (string4 a)).
  destruct (Z.ltb_spec (bytes.len (string4 a)) 0); [lia|].
  rewrite take_len_app, ParseAddr_string4.
  unfold Addr_Is6. rewrite AddrFrom4_z.
  rewrite (bool_decide_eq_true_2 (z4 = z4)) by done.
  rewrite andb_false_r. cbn [andb negb].
  rewrite drop_len_app.
  destruct (bits_text n ltac:(lia)) as [-> ->].
  destruct (Z.ltb_spec n 0); [lia|]. destruct (Z.ltb_spec 32 n); [lia|].
  done.
Qed.

Lemma Prefix_Bits_PrefixFrom_v4 a n :
  z a = z4 → 0 ≤ n ≤ 32 → Prefix_Bits (PrefixFrom a n) = n.
Proof.
  intros Hz Hn. apply Prefix_Bits_PrefixFrom; [by left|].
  unfold Addr_BitLen. by rewrite Hz.
Qed.

(** The key of the label of an IPv4 address and a length is read by
    [IPStringToLabel] as the label of the address masked to the
    length. *)
Lemma IPStringToLabel_Key_v4 a n :
  z a = z4 → 0 ≤ n ≤ 32 →
  IPStringToLabel (Key (maskedIPToLabel a n))
  = (maskedIPToLabel (Prefix_Addr (Prefix_Masked (PrefixFrom a n))) n, None).
Proof.
  intros Hz Hn. rewrite maskedIPToLabel_Key_v4 by done.
  unfold IPStringToLabel.
  rewrite LastIndexByte_app_slash by apply Itoa_no_slash.
  pose proof (len_nonneg (string4 a)).
  destruct (Z.ltb_spec (bytes.len (string4 a)) 0); [lia|].
  rewrite ParsePrefix_v4 by done.
  rewrite Prefix_Bits_PrefixFrom_v4 by done.
  f_equal. apply Masked_v4_bits; try done.
  apply AddrFrom4_v4_testbit.
Qed.

Lemma IPStringToLabel_string4 a :
  z a = z4 →
  IPStringToLabel (Addr_String a) = (maskedIPToLabel a 32, None).
Proof.
  intros Hz. unfold Addr_String. rewrite Hz. unfold IPStringToLabel.
  assert (strings.LastIndexByte (string4 a) "/" < 0) as Hl.
  { apply LastIndexByte_neg, dotDigits_mem; [apply dotDigits_string4|done]. }
  destruct (Z.ltb_spec (strings.LastIndexByte (string4 a) "/") 0); [|lia].
  rewrite ParseAddr_string4. f_equal.
  change (Addr_BitLen (AddrFrom4 _ _ _ _)) with 32.
  apply maskedIPToLabel_v4_ext; [done|done|].
  intros i Hi. by apply v4_AddrFrom4_v4.
Qed.

End parse_facts.

Section parse_shape.

Import netip labels cidr.

Implicit Types (s t : string) (c : ascii) (a : Addr) (n : Z) (p : Prefix).

Lemma Addr_WithZone_z (x : Z) (zone : string) :
  z (Addr_WithZone (mkAddr x z6noz) zone) ≠ z0.
Proof. unfold Addr_WithZone. cbn. by case_bool_decide. Qed.

Lemma parseIPv4_z s a : parseIPv4 s = inl a → z a = z4.
Proof.
  unfold parseIPv4.
  destruct (parseIPv4Fields s s) as [[|? [|? [|? [|? [|? ?]]]]]|]; try done.
  by intros [= <-].
Qed.

Lemma parseIPv6_z s a : parseIPv6 s = inl a → z a ≠ z0.
Proof.
  unfold parseIPv6. cbv zeta.
  repeat case_match; try done; intros [= <-]; apply Addr_WithZone_z.
Qed.

Lemma ParseAddr_scan_z s rest a : ParseAddr_scan s rest = inl a → z a ≠ z0.
Proof.
  induction rest as [|c rest IH]; [done|]. cbn [ParseAddr_scan].
  repeat case_bool_decide; try done.
  - by intros ->%parseIPv4_z.
  - apply parseIPv6_z.
Qed.

(** [ParseAddr] never gives the zero address. *)
Lemma ParseAddr_z s a : ParseAddr s = inl a → z a ≠ z0.
Proof. apply ParseAddr_scan_z. Qed.

(** A prefix [ParsePrefix] gives has an address without a zone and
    a length within the bit length of the address. *)
Lemma ParsePrefix_shape s p :
  ParsePrefix s = inl p →
  ∃ a n, p = PrefixFrom a n ∧ addrOK a ∧ 0 ≤ n ≤ Addr_BitLen a.
Proof.
  unfold ParsePrefix. cbv zeta.
  destruct (_ <? 0); [done|].
  destruct (ParseAddr _) as [a|err] eqn:Ha; [|done].
  apply ParseAddr_z in Ha.
  destruct (Addr_Is6 a && negb (bool_decide (z a = z6noz))) eqn:Hz; [done|].
  destruct ((1 <? _) && _); [done|].
  destruct (strconv.Atoi _) as [n|]; [|done].
  destruct (Z.ltb_spec n 0); [done|]. cbn [orb].
  destruct (Z.ltb_spec (if Addr_Is6 a then 128 else 32) n) as [|Hle]; [done|].
  intros [= <-]. exists a, n. split; [done|].
  destruct a as [x zz]. cbn [z] in *. unfold addrOK, Addr_BitLen. cbn [z].
  destruct zz; try done; cbn in Hle, Hz |- *; auto with lia.
Qed.

Lemma Masked_ok a n :
  addrOK a → 0 ≤ n ≤ Addr_BitLen a →
  addrOK (Prefix_Addr (Prefix_Masked (PrefixFrom a n)))
  ∧ Addr_BitLen (Prefix_Addr (Prefix_Masked (PrefixFrom a n))) = Addr_BitLen a.
Proof.
  intros Ha Hn. rewrite PrefixFrom_ok by done.
  unfold Prefix_Masked, Prefix_Bits, Addr_Prefix. cbn [ip bitsPlusOne].
  replace (n + 1 - 1) with n by lia.
  destruct (Z.ltb_spec n 0); [lia|].
  destruct a as [x zz]. unfold addrOK, Addr_BitLen in *. cbn [z addr] in *.
  destruct Ha as [-> | ->].
  - destruct (Z.ltb_spec 32 n); [lia|].
    rewrite PrefixFrom_ok by (by left || done). cbn. auto.
  - destruct (Z.ltb_spec 128 n); [lia|].
    rewrite PrefixFrom_ok by (by right || done). cbn. auto.
Qed.

End parse_shape.

Section codec_round_trip.

Import netip labels cidr.

Implicit Types (s t : string) (c : ascii) (a : Addr) (n i j : Z) (p : Prefix).
Implicit Types (st : option Cache) (ds : bool).

(** X15.  The keys of two labels of IPv4 addresses are equal exactly
    when the lengths are equal and the four bytes of the addresses
    are: different IPv4 prefixes never share a key. *)
Theorem X15_ipv4_key_injective a1 a2 n1 n2 :
  z a1 = z4 → z a2 = z4 →
  Key (maskedIPToLabel a1 n1) = Key (maskedIPToLabel a2 n2)
  ↔ n1 = n2 ∧ ∀ i, 0 ≤ i ≤ 3 → v4 a1 i = v4 a2 i.
Proof.
  intros H1 H2. rewrite !maskedIPToLabel_Key_v4 by done. split.
  - intros Heq. apply app_slash_inj in Heq as [Hs Hn]; auto using Itoa_no_slash.
    split; [by apply Itoa_inj|].
    pose proof (parseIPv4Fields_string4 EmptyString a1) as Hp1.
    pose proof (parseIPv4Fields_string4 EmptyString a2) as Hp2.
    rewrite Hs, Hp2 in Hp1. injection Hp1 as E0 E1 E2 E3.
    intros i Hi.
    assert (i = 0 ∨ i = 1 ∨ i = 2 ∨ i = 3) as [->|[->|[->| ->]]] by lia; done.
  - intros [-> Hb]. by rewrite (string4_ext a1 a2).
Qed.

Lemma X15_ipv4_key_injective_witness :
  Key (maskedIPToLabel (AddrFrom4 10 0 0 0) 8)
  = Key (maskedIPToLabel (mkAddr 167772160 z4) 8)
  ↔ 8 = 8 ∧ ∀ i, 0 ≤ i ≤ 3 →
              v4 (AddrFrom4 10 0 0 0) i = v4 (mkAddr 167772160 z4) i.
Proof.
  apply (X15_ipv4_key_injective (AddrFrom4 10 0 0 0) (mkAddr 167772160 z4) 8 8);
    reflexivity.
Defined.

(** X16.  [IPStringToLabel] reads the key of the label of an IPv4
    address and a length from 0 to 32 as the label of that address
    masked to the length, and the text of an IPv4 address as the
    label of the address with the length 32. *)
Theorem X16_ipv4_key_parses a n :
  z a = z4 → 0 ≤ n ≤ 32 →
  IPStringToLabel (Key (maskedIPToLabel a n))
  = (maskedIPToLabel (Prefix_Addr (Prefix_Masked (PrefixFrom a n))) n, None)
  ∧ IPStringToLabel (Addr_String a) = (maskedIPToLabel a 32, None).
Proof.
  intros Hz Hn. split.
  - by apply IPStringToLabel_Key_v4.
  - by apply IPStringToLabel_string4.
Qed.

Lemma X16_ipv4_key_parses_witness :
  IPStringToLabel (Key (maskedIPToLabel (AddrFrom4 10 1 2 3) 8))
  = (maskedIPToLabel
       (Prefix_Addr (Prefix_Masked (PrefixFrom (AddrFrom4 10 1 2 3) 8))) 8,
     None)
  ∧ IPStringToLabel (Addr_String (AddrFrom4 10 1 2 3))
    = (maskedIPToLabel (AddrFrom4 10 1 2 3) 32, None).
Proof.
  apply (X16_ipv4_key_parses (AddrFrom4 10 1 2 3) 8); [reflexivity|lia].
Defined.

(** X17.  Every label of a prefix in the expansion of an IPv4
    prefix is read back by [IPStringToLabel] from its key: parsing
    the key gives the label itself, without an error. *)
Theorem X17_expansion_keys_parse ds st p (key : string) (lbl : Label) :
  reachable st → wfPrefix p → Addr_Is4 (Prefix_Addr p) = true →
  (GetCIDRLabels ds st p).2 !! key = Some lbl →
  bytes.mem "/" key = true →
  IPStringToLabel key = (lbl, None).
Proof.
  intros Hr Hwf H4 Hl Hs.
  apply bool_decide_eq_true in H4.
  destruct (Z.le_gt_cases (Prefix_Bits p) 0) as [Hb|Hb].
  { rewrite GetCIDRLabels_short in Hl by done. cbn [snd] in Hl.
    rewrite addWorldLabel_lookup_slash in Hl by done.
    by rewrite lookup_empty in Hl. }
  destruct (GetCIDRLabels_chain ds st p Hr Hwf Hb) as (m & Hm & _ & Heq & _).
  rewrite Heq in Hl. apply expansion_lookup in Hl as [-> [->|Hin]].
  { by rewrite worldLabelFor_no_slash in Hs. }
  apply elem_of_chain in Hin as (j & Hj & ->).
  assert (Addr_BitLen (Prefix_Addr p) = 32) as Hlen.
  { unfold Addr_BitLen. by rewrite H4. }
  unfold chainLabel.
  assert (z (Prefix_Addr (Prefix_Masked (PrefixFrom (Prefix_Addr p) j))) = z4)
    as Hz by (by rewrite Masked_v4 by (done || lia)).
  rewrite IPStringToLabel_Key_v4 by (done || lia).
  by rewrite Masked_v4_idemp by (done || lia).
Qed.

Lemma X17_expansion_keys_parse_witness :
  IPStringToLabel "8.0.0.0/6" = (mkLabel "8.0.0.0/6" LabelSourceCIDR, None).
Proof.
  apply (X17_expansion_keys_parse false None slash8).
  - apply reachable_init.
  - apply PrefixFrom_wf.
  - reflexivity.
  - by vm_compute.
  - reflexivity.
Defined.

(** X18.  A label [IPStringToLabel] gives without an error is the
    label of an address that is not the zero address and of a
    length from 0 to the bit length of the address; for an input
    with a slash the address has no zone, for an input without one
    the length is the bit length.  With an error the label is the
    zero label. *)
Theorem X18_parse_result_shape s :
  match IPStringToLabel s with
  | (lbl, Some _) => lbl = mkLabel EmptyString EmptyString
  | (lbl, None) =>
      ∃ a n, lbl = maskedIPToLabel a n
             ∧ z a ≠ z0 ∧ 0 ≤ n ≤ Addr_BitLen a
             ∧ (hasSlash s = true → z a = z4 ∨ z a = z6noz)
             ∧ (hasSlash s = false → n = Addr_BitLen a)
  end.
Proof.
  unfold IPStringToLabel. rewrite LastIndexByte_ltb.
  destruct (hasSlash s); cbn [negb].
  - destruct (ParsePrefix s) as [p|err] eqn:Hp; [|done].
    apply ParsePrefix_shape in Hp as (a & n & -> & Ha & Hn).
    destruct (Masked_ok a n Ha Hn) as [Hok Hlen].
    rewrite Prefix_Bits_PrefixFrom by done.
    eexists _, n. split; [done|]. rewrite Hlen.
    split; [|split; [done|split; [done|done]]].
    by destruct Hok as [-> | ->].
  - destruct (ParseAddr s) as [a|err] eqn:Ha; [|done].
    apply ParseAddr_z in Ha. exists a, (Addr_BitLen a).
    split; [done|]. split; [done|]. split; [|done].
    unfold Addr_BitLen. by destruct (z a); lia.
Qed.

(** X19.  An IPv4 address without a length and the same text with
    [/32] give the same label: an address stands for its host
    prefix. *)
Theorem X19_ipv4_host_prefix s a :
  hasSlash s = false → ParseAddr s = inl a → z a = z4 →
  IPStringToLabel (s +:+ "/32") = IPStringToLabel s.
Proof.
  intros Hs Ha Hz. unfold IPStringToLabel at 2.
  rewrite LastIndexByte_ltb, Hs, Ha. cbn [negb].
  change (s +:+ "/32") with (s +:+ "/" +:+ "32").
  unfold IPStringToLabel, ParsePrefix.
  rewrite (LastIndexByte_app_slash s "32") by done.
  pose proof (len_nonneg s).
  destruct (Z.ltb_spec (bytes.len s) 0); [lia|].
  rewrite take_len_app, Ha. unfold Addr_Is6. rewrite Hz.
  rewrite (bool_decide_eq_true_2 (z4 = z4)) by done.
  rewrite andb_false_r. cbn [andb negb].
  rewrite (drop_len_app s "32").
  change (strconv.Atoi "32") with (Some 32).
  change ((1 <? bytes.len "32") && _) with false. cbv iota.
  change ((32 <? 0) || (32 <? 32)) with false. cbv iota.
  assert (Addr_BitLen a = 32) as ->.
  { unfold Addr_BitLen. by rewrite Hz. }
  rewrite Prefix_Bits_PrefixFrom_v4 by (done || lia).
  f_equal. rewrite Masked_v4 by (done || lia).
  apply maskedIPToLabel_v4_ext; [done|done|].
  intros i Hi. apply v4_ext; [|done]. intros u Hu. cbn [addr].
  rewrite Z.land_spec.
  change (mask6 (32 + 96)) with (Z.ones 128).
  rewrite Z.ones_spec_low by lia. apply andb_true_r.
Qed.

Lemma X19_ipv4_host_prefix_witness :
  IPStringToLabel ("10.0.0.1" +:+ "/32") = IPStringToLabel "10.0.0.1".
Proof.
  apply (X19_ipv4_host_prefix "10.0.0.1" (AddrFrom4 10 0 0 1)); reflexivity.
Defined.

End codec_round_trip.

Section label_keys.

Import netip labels cidr.

Implicit Types (s t : string) (c : ascii) (a : Addr) (n i j : Z) (p k : Prefix).
Implicit Types (st : option Cache) (ds : bool).

Lemma NoDup_fst_eq {K V} (l : list (K * V)) (x : K) (y1 y2 : V) :
  NoDup l.*1 → (x, y1) ∈ l → (x, y2) ∈ l → y1 = y2.
Proof.
  induction l as [|[x' y'] l IH]; [by intros _ ?%elem_of_nil|].
  rewrite fmap_cons, NoDup_cons. cbn [fst]. intros [Hx Hl] H1 H2.
  apply elem_of_cons in H1 as [E1|H1];
    apply elem_of_cons in H2 as [E2|H2].
  - congruence.
  - injection E1 as <- <-. destruct Hx. apply list_elem_of_fmap.
    by exists (x, y2).
  - injection E2 as <- <-. destruct Hx. apply list_elem_of_fmap.
    by exists (x, y1).
  - by apply IH.
Qed.

(** X20.  When every call returns before the next one starts, an
    entry of the cache is never overwritten: as long as a key stays
    in the cache, it holds the labels it was added with. *)
Theorem X20_entries_never_change ds st p k (v v' : list Label) :
  reachable st → wfPrefix p →
  (k, v) ∈ entries st → (k, v') ∈ entries (GetCIDRLabels ds st p).1 →
  v' = v.
Proof.
  intros Hr Hwf Hin Hin'.
  destruct (reachable_keys st Hr) as [Hnd _].
  pose proof (reachable_inv st Hr) as Hinv.
  assert ((k, v') ∈ entries st → v' = v) as Hold.
  { intros Ho. by apply (NoDup_fst_eq (entries st) k). }
  destruct (Z.le_gt_cases (Prefix_Bits p) 0) as [Hb|Hb].
  { rewrite GetCIDRLabels_short in Hin' by done. by apply Hold. }
  destruct (simplelru.find (PrefixFrom (Prefix_Addr p) 0) (entries st))
    as [w|] eqn:Hf.
  - rewrite (GetCIDRLabels_hit ds st p w Hb Hf) in Hin'.
    cbn [fst] in Hin'. unfold entries at 1 in Hin'.
    cbn [cacheOf simplelru.evictList] in Hin'.
    apply elem_of_cons in Hin' as [Heq|Hr'].
    + apply Hold. rewrite Heq. by apply find_Some.
    + apply Hold. by apply elem_of_remove in Hr' as [? _].
  - rewrite (GetCIDRLabels_miss ds st p Hinv Hwf Hb Hf) in Hin'.
    cbn [fst] in Hin'. unfold entries at 1 in Hin'.
    cbn [cacheOf simplelru.evictList] in Hin'.
    apply subseteq_take in Hin'.
    apply elem_of_app in Hin' as [Hnew|Ho]; [|by apply Hold].
    destruct (wfPrefix_valid p Hwf ltac:(lia)) as [Ha Hn].
    pose proof (newEntries_Addr _ _ _ _ Ha (Z.le_refl 0) Hn Hnew) as Hk.
    destruct (cacheInv_absent _ _ (k, v) Hinv Ha Hf Hin). exact Hk.
Qed.

Lemma X20_entries_never_change_witness :
  chain addr10 3 8 = chain addr10 3 8.
Proof.
  apply (X20_entries_never_change false after8 slash16 (PrefixFrom addr10 3)).
  - apply reachable_step; [apply reachable_init|apply PrefixFrom_wf].
  - apply PrefixFrom_wf.
  - vm_compute. repeat constructor.
  - vm_compute. repeat constructor.
Defined.


Lemma Masked_v6 a n :
  z a = z6noz → 0 ≤ n ≤ 128 →
  Prefix_Addr (Prefix_Masked (PrefixFrom a n))
  = mkAddr (Z.land (addr a) (mask6 n)) z6noz.
Proof.
  intros Hz Hn. destruct a as [x zz]. cbn [z] in Hz. subst zz.
  rewrite PrefixFrom_ok by (by right || done).
  unfold Prefix_Masked, Prefix_Bits, Addr_Prefix. cbn [ip bitsPlusOne z addr].
  replace (n + 1 - 1) with n by lia.
  destruct (Z.ltb_spec n 0); [lia|]. destruct (Z.ltb_spec 128 n); [lia|].
  rewrite PrefixFrom_ok by (by right || done). done.
Qed.

(** The label of length zero of an address. *)
Lemma chainLabel_zero a :
  addrOK a →
  chainLabel a 0
  = mkLabel (if Addr_Is4 a then "0.0.0.0/0" else "0--0/0") LabelSourceCIDR.
Proof.
  intros [Hz|Hz]; unfold chainLabel, Addr_Is4; rewrite Hz.
  - rewrite Masked_v4 by (done || lia).
    rewrite (maskedIPToLabel_v4_ext _ (mkAddr 0 z4) 0); [done|done|done|].
    intros i Hi. apply v4_ext; [|done]. intros u Hu. cbn [addr].
    rewrite Z.land_spec, Z.bits_0.
    change (mask6 (0 + 96)) with (Z.shiftl (Z.ones 96) 32).
    rewrite Z.shiftl_spec_low by lia. apply andb_false_r.
  - rewrite Masked_v6 by (done || lia).
    change (mask6 0) with 0. rewrite Z.land_0_r. done.
Qed.

(** X21.  Whatever the cache holds, the expansion of a prefix of
    positive length has the label of length zero: the label with
    the key [0.0.0.0/0] for an IPv4 prefix and with the key [0--0/0]
    for an IPv6 prefix. *)
Theorem X21_zero_length_label ds st p :
  reachable st → wfPrefix p → 0 < Prefix_Bits p →
  let key := if Addr_Is4 (Prefix_Addr p) then "0.0.0.0/0" else "0--0/0" in
  (GetCIDRLabels ds st p).2 !! key = Some (mkLabel key "cidr").
Proof.
  intros Hr Hwf Hb key.
  destruct (GetCIDRLabels_chain ds st p Hr Hwf Hb) as (m & Hm & _ & -> & _).
  destruct (wfPrefix_valid p Hwf ltac:(lia)) as [Ha _].
  pose proof (chainLabel_zero _ Ha) as Hz. fold key in Hz.
  rewrite addWorldLabel_lookup_slash by (subst key; by destruct (Addr_Is4 _)).
  change (mkLabel key "cidr") with (mkLabel key LabelSourceCIDR).
  rewrite <-Hz.
  replace key with (Key (chainLabel (Prefix_Addr p) 0)) by (by rewrite Hz).
  apply addLabels_lookup; [apply chain_Key_inj|].
  apply elem_of_chain. exists 0. split; [lia|done].
Qed.

Lemma X21_zero_length_label_witness :
  let key := if Addr_Is4 (Prefix_Addr slash8) then "0.0.0.0/0" else "0--0/0" in
  (GetCIDRLabels true after16 slash8).2 !! key = Some (mkLabel key "cidr").
Proof.
  apply (X21_zero_length_label true after16 slash8).
  - apply reachable_step; [apply reachable_init|apply PrefixFrom_wf].
  - apply PrefixFrom_wf.
  - by vm_compute.
Defined.

Lemma Replace_mem s (old new : ascii) :
  old ≠ new → bytes.mem old (strings.Replace s old new) = false.
Proof.
  intros Hne. induction s as [|c s IH]; [done|].
  cbn [strings.Replace bytes.mem]. rewrite IH, orb_false_r.
  apply bool_decide_eq_false_2. case_bool_decide; congruence.
Qed.

Lemma Itoa_no_colon n : bytes.mem ":" (strconv.Itoa n) = false.
Proof.
  destruct (Itoa_shape n) as (d & Hd & _ & [-> | ->]).
  - by apply digitsOnly_mem.
  - rewrite mem_app_s. cbn [bytes.mem]. rewrite (digitsOnly_mem ":" d) by done.
    done.
Qed.

Lemma maskedIPToLabel_Key_no_colon a n :
  bytes.mem ":" (Key (maskedIPToLabel a n)) = false.
Proof.
  rewrite maskedIPToLabel_Key. unfold keyBody.
  rewrite !mem_app_s, Replace_mem, Itoa_no_colon by done.
  by do 2 case_bool_decide.
Qed.

(** X22.  No key has a colon: not the key of a label that
    [maskedIPToLabel] makes, whatever the address and its zone, not
    a key of an expansion, and not the key of a label that
    [IPStringToLabel] returns. *)
Theorem X22_keys_without_colon :
  (∀ a n, bytes.mem ":" (Key (maskedIPToLabel a n)) = false)
  ∧ (∀ ds st p (key : string) (lbl : Label),
       reachable st → wfPrefix p →
       (GetCIDRLabels ds st p).2 !! key = Some lbl →
       bytes.mem ":" key = false)
  ∧ (∀ s, bytes.mem ":" (Key (IPStringToLabel s).1) = false).
Proof.
  split; [apply maskedIPToLabel_Key_no_colon|]. split.
  - intros ds st p key lbl Hr Hwf Hl.
    assert (bytes.mem ":" (Key (worldLabelFor ds (Prefix_Addr p))) = false)
      as Hw.
    { unfold worldLabelFor. destruct (negb ds); [done|].
      by destruct (Addr_Is4 _). }
    destruct (Z.le_gt_cases (Prefix_Bits p) 0) as [Hb|Hb].
    + rewrite GetCIDRLabels_short in Hl by done. cbn [snd] in Hl.
      rewrite addWorldLabel_insert in Hl.
      apply lookup_insert_Some in Hl as [[<- _]|[_ Hl]]; [done|].
      by rewrite lookup_empty in Hl.
    + destruct (GetCIDRLabels_chain ds st p Hr Hwf Hb)
        as (m & Hm & _ & Heq & _).
      rewrite Heq in Hl. apply expansion_lookup in Hl as [-> [->|Hin]]; [done|].
      apply elem_of_chain in Hin as (j & _ & ->).
      apply maskedIPToLabel_Key_no_colon.
  - intros s. unfold IPStringToLabel.
    destruct (_ <? 0).
    + destruct (ParseAddr s); [apply maskedIPToLabel_Key_no_colon|done].
    + destruct (ParsePrefix s); [apply maskedIPToLabel_Key_no_colon|done].
Qed.

End label_keys.

(** * Calls that overlap *)

Section steps_invariant.

Import netip labels cidr steps.

Implicit Types (cache : Cache) (c : call) (s : pool).
Implicit Types (l : list (Prefix * list Label)) (lbls : Labels).
Implicit Types (a : Addr) (n m i j : Z) (k : Prefix).

Lemma chain_app a i j n :
  i ≤ j ≤ n + 1 → chain a i (j - 1) ++ chain a j n = chain a i n.
Proof.
  intros Hj. unfold chain. rewrite <-fmap_app. f_equal.
  replace (n - i + 1) with ((j - 1 - i + 1) + (n - j + 1)) by lia.
  rewrite (seqZ_app i (j - 1 - i + 1) (n - j + 1)) by lia.
  do 2 f_equal. lia.
Qed.

Lemma chain_snoc a i n :
  i ≤ n + 1 → chain a i n ++ [chainLabel a (n + 1)] = chain a i (n + 1).
Proof.
  intros Hn. rewrite <-(chain_app a i (n + 1) (n + 1)) by lia.
  replace (n + 1 - 1) with n by lia.
  by rewrite (chain_cons a (n + 1) (n + 1)),
    (chain_nil a (n + 1 + 1) (n + 1)) by lia.
Qed.

Lemma addLabels_app lbls (v w : list Label) :
  addLabels lbls (v ++ w) = addLabels (addLabels lbls v) w.
Proof. unfold addLabels. by rewrite foldl_app. Qed.

Lemma cacheOK_new : cacheOK (simplelru.NewLRU cidrLabelsCacheMaxSize).
Proof. repeat split; simpl; (done || constructor). Qed.

Lemma cacheOK_front cache k (v : list Label) :
  cacheOK cache → entryOK (k, v) →
  k ∈ (simplelru.evictList cache).*1 →
  cacheOK (simplelru.mkLRU (simplelru.size cache)
             ((k, v) :: simplelru.remove k (simplelru.evictList cache))).
Proof.
  intros (Hs & Hl & Hok & Hnd) He Hin. split; [done|].
  cbn [simplelru.size simplelru.evictList]. split; [|split].
  - pose proof (length_remove_lt k _ Hin). cbn [length]. lia.
  - apply Forall_cons. split; [done|]. rewrite Forall_forall in Hok |- *.
    intros e [? _]%elem_of_remove. by apply Hok.
  - rewrite fmap_cons. apply NoDup_cons. split; [|by apply remove_NoDup].
    intros (e & He1 & [_ He2]%elem_of_remove)%list_elem_of_fmap.
    cbn [fst] in He1. congruence.
Qed.

Lemma cacheOK_Get cache k :
  cacheOK cache → cacheOK (simplelru.Get cache k).1.
Proof.
  intros Hc. unfold simplelru.Get.
  destruct (simplelru.find k (simplelru.evictList cache)) as [v|] eqn:Hf;
    [|done].
  cbn [fst]. apply find_Some in Hf. apply cacheOK_front; [done| |].
  - destruct Hc as (_ & _ & Hok & _). rewrite Forall_forall in Hok.
    by apply Hok.
  - apply list_elem_of_fmap. by exists (k, v).
Qed.

Lemma cacheOK_Add cache k (v : list Label) :
  cacheOK cache → entryOK (k, v) → cacheOK (simplelru.Add cache k v).
Proof.
  intros Hc He.
  destruct (simplelru.find k (simplelru.evictList cache)) as [w|] eqn:Hf.
  - unfold simplelru.Add. rewrite Hf.
    apply find_Some in Hf. apply cacheOK_front; [done|done|].
    apply list_elem_of_fmap. by exists (k, w).
  - apply find_None in Hf. destruct Hc as (Hs & Hl & Hok & Hnd).
    rewrite Add_absent; [|rewrite Hs; unfold cidrLabelsCacheMaxSize; lia|done|done].
    split; [done|]. cbn [simplelru.size simplelru.evictList].
    split; [|split].
    + rewrite length_take. lia.
    + apply Forall_take. by apply Forall_cons.
    + rewrite fmap_take.
      apply (sublist_NoDup _ (((k, v) :: simplelru.evictList cache).*1)).
      * rewrite fmap_cons. by apply NoDup_cons.
      * apply sublist_take.
Qed.

(** What a lookup finds under the key of a level is the list of the
    labels from that level on. *)
Lemma cacheOK_find cache a i (v : list Label) :
  cacheOK cache → addrOK a → 0 ≤ i ≤ Addr_BitLen a →
  simplelru.find (PrefixFrom a i) (simplelru.evictList cache) = Some v →
  ∃ m, i ≤ m ≤ Addr_BitLen a ∧ v = chain a i m.
Proof.
  intros (_ & _ & Hok & _) Ha Hi Hf%find_Some.
  rewrite Forall_forall in Hok.
  destruct (Hok _ Hf) as (a' & j & m & Ha' & Hj & Hm & Heq).
  pose proof (f_equal fst Heq) as Hk. pose proof (f_equal snd Heq) as Hv.
  cbn [fst snd] in Hk, Hv. subst v.
  apply PrefixFrom_inj in Hk as [<- <-]; try done; try lia.
  exists m. split; [lia|done].
Qed.

Local Ltac call_simpl :=
  cbn [call_addr call_ones call_lbls call_results call_place call_hit
       call_dualStack fst snd].

Lemma callOK_start ds p : wfPrefix p → callOK (start ds p).
Proof.
  intros Hwf. unfold callOK, start. cbn. split; [done|].
  destruct (Z.eqb_spec (Prefix_Bits p) 0) as [H0|H0].
  - left. split; [lia|done].
  - split; [done|]. split; [by rewrite chain_nil by lia|].
    destruct (Z.lt_ge_cases (Prefix_Bits p) 0); [by left|]. right.
    destruct (wfPrefix_valid p Hwf ltac:(lia)). split; [done|]. lia.
Qed.

(** A step keeps the cache and the call as they should be. *)
Lemma step_OK cache c :
  cacheOK cache → callOK c →
  cacheOK (step cache c).1 ∧ callOK (step cache c).2.
Proof.
  intros Hc Hcall. destruct c as [ds a n pl lbls results hit].
  unfold callOK in Hcall. cbn [call_addr call_ones call_lbls call_results
    call_place call_hit] in Hcall.
  destruct Hcall as [-> Hpl]. destruct pl as [i|i|]; cbn [step].
  - destruct Hpl as (-> & -> & Hcase).
    destruct (Z.ltb_spec n i) as [Hlt|Hge]; cbn [fst snd].
    + split; [done|]. unfold callOK. call_simpl. split; [done|].
      destruct Hcase as [[Hn ->]|(Ha & Hn & Hi)].
      * unfold back. cbn [Z.ltb Z.sub Z.add Z.opp Z.compare Z.pos_sub]. left. split; [lia|]. split; [|done]. by rewrite chain_nil by lia.
      * assert (i = n + 1) as -> by lia.
        replace (n + 1 - 1) with n by lia.
        unfold back. destruct (Z.ltb_spec n 0); [lia|].
        split; [done|]. split; [done|]. split; [lia|]. exists n.
        split; [lia|]. split; [lia|]. done.
    + destruct Hcase as [[Hn ->]|(Ha & Hn & Hi)]; [lia|].
      pose proof (cacheOK_Get cache (PrefixFrom a i) Hc) as HG.
      unfold simplelru.Get in HG |- *.
      destruct (simplelru.find (PrefixFrom a i) (simplelru.evictList cache))
        as [v|] eqn:Hf; cbn [fst snd] in HG |- *.
      * split; [done|].
        destruct (cacheOK_find cache a i v Hc Ha ltac:(lia) Hf)
          as (m & Hm & ->).
        assert (match chain a 0 (i - 1) with
                | [] => chain a i m
                | _ => chain a 0 (i - 1) ++ chain a i m
                end = chain a 0 m) as Hres.
        { rewrite <-(chain_app a 0 i m) by lia.
          by destruct (chain a 0 (i - 1)). }
        unfold callOK. call_simpl. rewrite Hres. split.
        { by rewrite <-(chain_app a 0 i m), addLabels_app by lia. }
        unfold back. destruct (Z.ltb_spec (i - 1) 0).
        -- right. split; [done|]. split; [done|]. exists m.
           split; [lia|]. split; [done|]. done.
        -- split; [done|]. split; [done|]. split; [lia|]. exists m.
           split; [lia|]. split; [lia|]. split; [done|]. done.
      * split; [done|].
        set (lbl := maskedIPToLabel _ i).
        assert (chain a 0 (i - 1) ++ [lbl] = chain a 0 i) as Hsnoc.
        { pose proof (chain_snoc a 0 (i - 1) ltac:(lia)) as Hs.
          replace (i - 1 + 1) with i in Hs by lia. exact Hs. }
        unfold callOK. call_simpl. rewrite Hsnoc.
        replace (i + 1 - 1) with i by lia.
        split; [by rewrite <-Hsnoc, addLabels_snoc|].
        split; [done|]. split; [done|]. right. split; [done|]. lia.
  - destruct Hpl as (Ha & Hn & Hin & m & Hi & Hm & -> & Hhit). cbn [fst snd].
    split.
    + apply cacheOK_Add; [done|]. exists a, i, m.
      split; [done|]. split; [lia|]. split; [done|].
      by rewrite (drop_chain a (Z.to_nat i) 0 i m) by lia.
    + unfold callOK. call_simpl. split; [done|].
      unfold back. destruct (Z.ltb_spec (i - 1) 0).
      * right. split; [done|]. split; [done|]. exists m.
        split; [lia|]. done.
      * split; [done|]. split; [done|]. split; [lia|]. exists m.
        split; [lia|]. done.
  - cbn [fst snd]. split; [done|]. unfold callOK. by call_simpl.
Qed.

Lemma step_at_OK (j : nat) s :
  cacheOK s.1 → Forall callOK s.2 →
  cacheOK (step_at j s).1 ∧ Forall callOK (step_at j s).2.
Proof.
  intros Hc Hp. unfold step_at.
  destruct (s.2 !! j) as [c|] eqn:Hj; [|done].
  pose proof (Forall_lookup_1 _ _ _ _ Hp Hj) as Hcall.
  destruct (step_OK s.1 c Hc Hcall) as [H1 H2].
  destruct (step s.1 c) as [cache' c']. cbn [fst snd] in *.
  split; [done|]. by apply Forall_insert.
Qed.

(** A step changes neither the flag nor the address nor the length
    of a call: a call in a state that calls lead to is the call of
    [GetCIDRLabels] for a prefix. *)
Lemma step_fields cache c :
  call_dualStack (step cache c).2 = call_dualStack c
  ∧ call_addr (step cache c).2 = call_addr c
  ∧ call_ones (step cache c).2 = call_ones c.
Proof.
  destruct c as [ds a n pl lbls results hit]. destruct pl as [i|i|];
    cbn [step]; [|done|done].
  destruct (n <? i); [done|].
  by destruct (simplelru.Get cache (PrefixFrom a i)) as [cache' [v|]].
Qed.

Lemma running_prefix s c :
  running s → c ∈ s.2 →
  ∃ ds p, wfPrefix p ∧ call_dualStack c = ds
          ∧ call_addr c = Prefix_Addr p ∧ call_ones c = Prefix_Bits p.
Proof.
  intros Hr. revert c.
  induction Hr as [|ds p s Hr IH Hwf|t s Hr IH]; intros c Hin.
  - by apply elem_of_nil in Hin.
  - cbn [snd] in Hin. apply elem_of_app in Hin as [Hin|Hin]; [by apply IH|].
    apply list_elem_of_singleton in Hin as ->. by exists ds, p.
  - unfold step_at in Hin. destruct (s.2 !! t) as [c0|] eqn:Ht; [|by apply IH].
    pose proof (step_fields s.1 c0) as (H1 & H2 & H3).
    destruct (step s.1 c0) as [cache' c']. cbn [fst snd] in *.
    apply list_elem_of_lookup in Hin as [t' Ht'].
    destruct (decide (t = t')) as [<-|Hne].
    + rewrite list_lookup_insert_eq in Ht' by (by eapply lookup_lt_Some).
      injection Ht' as <-. rewrite H1, H2, H3.
      apply IH. by eapply list_elem_of_lookup_2.
    + rewrite list_lookup_insert_ne in Ht' by done.
      apply IH. by eapply list_elem_of_lookup_2.
Qed.

(** In every state that overlapping calls lead to the cache and the
    calls are as they should be. *)
Lemma running_OK s : running s → cacheOK s.1 ∧ Forall callOK s.2.
Proof.
  induction 1 as [|ds p s Hr [IH1 IH2] Hwf|t s Hr [IH1 IH2]].
  - split; [apply cacheOK_new|constructor].
  - cbn [fst snd]. split; [done|]. apply Forall_app. split; [done|].
    apply Forall_singleton. by apply callOK_start.
  - by apply step_at_OK.
Qed.

End steps_invariant.

Section steps_refinement.

Import netip labels cidr steps.

Implicit Types (cache : Cache) (c : call) (s : pool) (st : option Cache).
Implicit Types (lbls : Labels) (results : list Label) (hit : option Z).
Implicit Types (a : Addr) (n m i : Z) (p : Prefix) (ds : bool).

Lemma run_S k cache c :
  run (S k) cache c = run k (step cache c).1 (step cache c).2.
Proof. cbn [run]. by destruct (step cache c). Qed.

Lemma run_add k1 k2 cache c :
  run (k1 + k2) cache c
  = run k2 (run k1 cache c).1 (run k1 cache c).2.
Proof.
  revert cache c. induction k1 as [|k1 IH]; intros cache c; [done|].
  cbn [Nat.add]. by rewrite !run_S, IH.
Qed.

(** The steps of a call from the lookup of level [i] to the return
    of that level are one run of [computeCIDRLabels] at level
    [i]. *)
Lemma run_computeCIDRLabels_rec fuel :
  ∀ cache ds a n i lbls results hit,
    0 ≤ i → fuel = Z.to_nat (n + 1 - i) →
    ∃ (k : nat) hit',
      run k cache (mkCall ds a n (Lookup i) lbls results hit)
      = ((computeCIDRLabels_rec fuel cache lbls results a n i).1.1,
         mkCall ds a n (back (i - 1))
           (computeCIDRLabels_rec fuel cache lbls results a n i).1.2
           (computeCIDRLabels_rec fuel cache lbls results a n i).2 hit').
Proof.
  induction fuel as [|fuel IH]; intros cache ds a n i lbls results hit Hi Hf.
  - exists 1%nat, hit. cbn [run step computeCIDRLabels_rec].
    destruct (Z.ltb_spec n i); [done|lia].
  - cbn [computeCIDRLabels_rec].
    destruct (Z.ltb_spec n i) as [Hlt|Hge].
    { exists 1%nat, hit. cbn [run step].
      by rewrite (proj2 (Z.ltb_lt n i)) by done. }
    destruct (simplelru.Get cache (PrefixFrom a i)) as [cache1 [v|]] eqn:HG.
    + exists 1%nat, (Some i). cbn [run step].
      rewrite (proj2 (Z.ltb_ge n i)), HG by done. by destruct results.
    + set (lbl := maskedIPToLabel _ i).
      destruct (IH cache1 ds a n (i + 1) (<[Key lbl := lbl]> lbls)
                  (results ++ [lbl]) hit ltac:(lia) ltac:(lia))
        as (k & hit' & Hrun).
      destruct (computeCIDRLabels_rec fuel cache1 _ _ a n (i + 1))
        as [[cache2 lbls2] results2]. cbn [fst snd] in Hrun |- *.
      exists (S (k + 1)), hit'. rewrite run_S.
      assert (step cache (mkCall ds a n (Lookup i) lbls results hit)
              = (cache1, mkCall ds a n (Lookup (i + 1))
                           (<[Key lbl := lbl]> lbls) (results ++ [lbl]) hit))
        as ->.
      { cbn [step]. by rewrite (proj2 (Z.ltb_ge n i)), HG by done. }
      cbn [fst snd]. rewrite run_add, Hrun. cbn [fst snd run step].
      replace (i + 1 - 1) with i by lia.
      unfold back at 1. by rewrite (proj2 (Z.ltb_ge i 0)) by done.
Qed.

(** A call that takes all its steps with no other call in between
    is [GetCIDRLabels]. *)
Lemma run_GetCIDRLabels ds st p :
  ∃ k : nat,
    call_place (run k (cacheOf st) (start ds p)).2 = Returned
    ∧ GetCIDRLabels ds st p
      = (Some (run k (cacheOf st) (start ds p)).1,
         result (run k (cacheOf st) (start ds p)).2).
Proof.
  unfold GetCIDRLabels, start. fold (cacheOf st).
  destruct (Z.eqb_spec (Prefix_Bits p) 0) as [H0|H0].
  { exists 0%nat. done. }
  unfold computeCIDRLabels.
  destruct (run_computeCIDRLabels_rec
              (Z.to_nat (Prefix_Bits p + 1 - 0)) (cacheOf st) ds
              (Prefix_Addr p) (Prefix_Bits p) 0 ∅ [] None
              ltac:(lia) eq_refl) as (k & hit' & Hrun).
  exists k. rewrite Hrun.
  destruct (computeCIDRLabels_rec _ _ _ _ _ _ _) as [[cache' lbls'] results'].
  done.
Qed.

Lemma step_at_last cache (calls : list call) c :
  step_at (length calls) (cache, calls ++ [c])
  = ((step cache c).1, calls ++ [(step cache c).2]).
Proof.
  unfold step_at. cbn [fst snd].
  rewrite lookup_app_r, Nat.sub_diag by done. cbn [lookup list_lookup].
  destruct (step cache c) as [cache' c']. cbn [fst snd]. f_equal.
  rewrite insert_app_r_alt, Nat.sub_diag by done. done.
Qed.

Lemma running_run (k : nat) cache (calls : list call) c :
  running (cache, calls ++ [c]) →
  running ((run k cache c).1, calls ++ [(run k cache c).2]).
Proof.
  revert cache c. induction k as [|k IH]; intros cache c Hr; [done|].
  rewrite run_S. apply IH. rewrite <-step_at_last. by apply running_step.
Qed.

Lemma running_schedule (js : list nat) s :
  running s → running (schedule js s).
Proof.
  revert s. induction js as [|j js IH]; intros s Hr; [done|].
  cbn [schedule foldl]. apply IH. by apply running_step.
Qed.

(** The states of calls made one after the other are states of
    overlapping calls: those in which every call has returned
    before the next one starts. *)
Lemma reachable_running st :
  reachable st →
  ∃ calls : list call,
    running (cacheOf st, calls)
    ∧ Forall (fun c => call_place c = Returned) calls.
Proof.
  induction 1 as [|ds st p Hr (calls & Hrun & Hret) Hwf].
  - exists []. split; [apply running_init|constructor].
  - destruct (run_GetCIDRLabels ds st p) as (k & Hpl & ->). cbn [fst cacheOf].
    exists (calls ++ [(run k (cacheOf st) (start ds p)).2]). split.
    + apply running_run. by apply (running_start ds p (cacheOf st, calls)).
    + apply Forall_app. split; [done|]. by apply Forall_singleton.
Qed.

End steps_refinement.


Section steps_properties.

Import netip labels cidr steps.

Implicit Types (cache : Cache) (c : call) (s : pool) (st : option Cache).
Implicit Types (lbls : Labels) (results : list Label) (hit : option Z).
Implicit Types (a : Addr) (n m i : Z) (p k : Prefix) (ds : bool).

Lemma running_alone8 : running alone8.
Proof.
  apply running_schedule.
  apply (running_start false slash8 (_, [])); [apply running_init|].
  apply PrefixFrom_wf.
Qed.

Lemma running_overlap : running overlap.
Proof.
  apply running_schedule.
  apply (running_start false slash16 (_, [start false slash8]));
    [|apply PrefixFrom_wf].
  apply (running_start false slash8 (_, [])); [apply running_init|].
  apply PrefixFrom_wf.
Qed.

Lemma running_overlap_returned : running overlap_returned.
Proof. apply running_schedule, running_overlap. Qed.

Lemma running_call s c : running s → c ∈ s.2 → cacheOK s.1 ∧ callOK c.
Proof.
  intros [Hc Hp]%running_OK Hin. split; [done|].
  rewrite Forall_forall in Hp. by apply Hp.
Qed.

Lemma call_world_worldLabelFor c :
  call_world c = worldLabelFor (call_dualStack c) (call_addr c).
Proof. done. Qed.

(** What a call that has returned holds. *)
Lemma returned_result s c :
  running s → c ∈ s.2 → call_place c = Returned →
  ∃ m, -1 ≤ m
       ∧ (0 < call_ones c → 0 ≤ m ≤ Addr_BitLen (call_addr c))
       ∧ (call_ones c ≤ 0 → m = -1)
       ∧ (0 < call_ones c → call_hit c = None → m = call_ones c)
       ∧ call_results c = chain (call_addr c) 0 m
       ∧ result c
         = addWorldLabel (call_dualStack c) (call_addr c)
             (addLabels ∅ (chain (call_addr c) 0 m)).
Proof.
  intros Hr Hin Hpl. destruct (running_call s c Hr Hin) as [_ [Hl Hc]].
  rewrite Hpl in Hc. unfold result. rewrite Hl.
  destruct Hc as [(Hn & Hres & _)|(Ha & Hn & m & Hm & Hres & Hhit)].
  - exists (-1). rewrite Hres. repeat split; try done; lia.
  - exists m. rewrite Hres. repeat split; try done; lia.
Qed.

(** C2 (amended).  In every state that overlapping calls lead to, a
    call for a prefix of length [n > 0] that has returned and none
    of whose lookups found an entry returns, for every [i] from 0 to
    [n], the label of the address masked to length [i], under that
    label's key; and a call for a prefix of length 0 returns the
    world label and nothing else. *)
Theorem C2_computed_chain s c :
  running s → c ∈ s.2 → call_place c = Returned →
  (0 < call_ones c → call_hit c = None →
   ∀ i, 0 ≤ i ≤ call_ones c →
        result c !! Key (call_label c i) = Some (call_label c i))
  ∧ (call_ones c = 0 → result c = {[ Key (call_world c) := call_world c ]}).
Proof.
  intros Hr Hin Hpl.
  destruct (returned_result s c Hr Hin Hpl)
    as (m & Hm & Hpos & Hzero & Hhit & _ & ->).
  split.
  - intros Hn Hnone i Hi. rewrite (Hhit Hn Hnone).
    unfold call_label. fold (chainLabel (call_addr c) i).
    rewrite addWorldLabel_lookup_slash by apply maskedIPToLabel_Key_slash.
    apply addLabels_lookup; [apply chain_Key_inj|].
    apply elem_of_chain. by exists i.
  - intros Hn. rewrite Hzero, chain_nil by lia.
    by rewrite addWorldLabel_insert, call_world_worldLabelFor.
Qed.

(** The call for 10.0.0.0/8 that runs alone from the start: none of
    its lookups finds an entry, and it returns the labels of the
    lengths 0 to 8. *)
Lemma C2_computed_chain_witness :
  call_ones returned8 = 8 ∧ call_hit returned8 = None
  ∧ (0 < call_ones returned8 → call_hit returned8 = None →
     ∀ i, 0 ≤ i ≤ call_ones returned8 →
          result returned8 !! Key (call_label returned8 i)
          = Some (call_label returned8 i))
  ∧ (call_ones returned8 = 0 →
     result returned8
     = {[ Key (call_world returned8) := call_world returned8 ]}).
Proof.
  split; [by vm_compute|]. split; [by vm_compute|].
  apply (C2_computed_chain alone8 returned8).
  - apply running_schedule.
    apply (running_start false slash8 (_, [])); [apply running_init|].
    apply PrefixFrom_wf.
  - apply (list_elem_of_lookup_2 _ 0%nat). by vm_compute.
  - by vm_compute.
Defined.






(** X1.  In every state that overlapping calls lead to, the labels
    that a call for a prefix of positive length returns are the
    world label and the labels of the address of the prefix masked
    to every length from zero to some [m] within the bit length of
    the address, each under its own key, and nothing else; [m] is
    the length of the prefix when none of the lookups of the call
    found an entry. *)
Theorem X1_returned_labels s c :
  running s → c ∈ s.2 → call_place c = Returned → 0 < call_ones c →
  ∃ m, 0 ≤ m ≤ Addr_BitLen (call_addr c)
       ∧ (call_hit c = None → m = call_ones c)
       ∧ ∀ (key : string) (lbl : Label),
           result c !! key = Some lbl
           ↔ key = Key lbl
             ∧ (lbl = call_world c
                ∨ ∃ i, 0 ≤ i ≤ m ∧ lbl = call_label c i).
Proof.
  intros Hr Hin Hpl Hn.
  destruct (returned_result s c Hr Hin Hpl)
    as (m & _ & Hpos & _ & Hhit & _ & ->).
  exists m. split; [auto|]. split; [auto|]. intros key lbl.
  rewrite expansion_lookup, call_world_worldLabelFor.
  by setoid_rewrite elem_of_chain.
Qed.

(** The second of the two overlapping calls, for 10.0.0.0/16, found
    the entry of length 6 and has returned. *)
Lemma X1_returned_labels_witness :
  call_ones returned16 = 16 ∧ call_hit returned16 = Some 6
  ∧ ∃ m, 0 ≤ m ≤ Addr_BitLen (call_addr returned16)
         ∧ (call_hit returned16 = None → m = call_ones returned16)
         ∧ ∀ (key : string) (lbl : Label),
             result returned16 !! key = Some lbl
             ↔ key = Key lbl
               ∧ (lbl = call_world returned16
                  ∨ ∃ i, 0 ≤ i ≤ m ∧ lbl = call_label returned16 i).
Proof.
  split; [by vm_compute|]. split; [by vm_compute|].
  apply (X1_returned_labels overlap_returned returned16).
  - apply running_schedule, running_schedule.
    apply (running_start false slash16 (_, [start false slash8]));
      [|apply PrefixFrom_wf].
    apply (running_start false slash8 (_, [])); [apply running_init|].
    apply PrefixFrom_wf.
  - apply (list_elem_of_lookup_2 _ 1%nat). by vm_compute.
  - by vm_compute.
  - by vm_compute.
Defined.

(** X10.  In every state that overlapping calls lead to, the list
    that [computeCIDRLabels] has returned to a call for a prefix of
    positive length holds the labels of the address masked to the
    lengths 0, 1, ..., [m], the broadest first, for some [m] within
    the bit length of the address, and the map of the call holds
    each of them under its key; [m] is the length of the prefix when
    none of the lookups of the call found an entry. *)
Theorem X10_returned_list s c :
  running s → c ∈ s.2 → call_place c = Returned → 0 < call_ones c →
  ∃ m, 0 ≤ m ≤ Addr_BitLen (call_addr c)
       ∧ (call_hit c = None → m = call_ones c)
       ∧ Z.of_nat (length (call_results c)) = m + 1
       ∧ ∀ i, 0 ≤ i ≤ m →
              call_results c !! Z.to_nat i = Some (call_label c i)
              ∧ call_lbls c !! Key (call_label c i) = Some (call_label c i).
Proof.
  intros Hr Hin Hpl Hn.
  destruct (running_call s c Hr Hin) as [_ [Hl _]].
  destruct (returned_result s c Hr Hin Hpl)
    as (m & _ & Hpos & _ & Hhit & Hres & _).
  exists m. split; [auto|]. split; [auto|].
  rewrite Hl, Hres. specialize (Hpos Hn).
  split; [rewrite length_chain; lia|]. intros i Hi. split.
  - unfold chain. rewrite list_lookup_fmap.
    rewrite (lookup_seqZ_lt 0 (m - 0 + 1) (Z.to_nat i)) by lia.
    cbn [fmap option_fmap option_map]. unfold chainLabel, call_label.
    by rewrite Z.add_0_l, Z2Nat.id by lia.
  - apply addLabels_lookup; [apply chain_Key_inj|].
    apply elem_of_chain. exists i. split; [lia|done].
Qed.

Lemma X10_returned_list_witness :
  call_ones returned8 = 8 ∧ call_hit returned8 = None
  ∧ ∃ m, 0 ≤ m ≤ Addr_BitLen (call_addr returned8)
         ∧ (call_hit returned8 = None → m = call_ones returned8)
         ∧ Z.of_nat (length (call_results returned8)) = m + 1
         ∧ ∀ i, 0 ≤ i ≤ m →
                call_results returned8 !! Z.to_nat i
                = Some (call_label returned8 i)
                ∧ call_lbls returned8 !! Key (call_label returned8 i)
                  = Some (call_label returned8 i).
Proof.
  split; [by vm_compute|]. split; [by vm_compute|].
  apply (X10_returned_list alone8 returned8).
  - apply running_schedule.
    apply (running_start false slash8 (_, [])); [apply running_init|].
    apply PrefixFrom_wf.
  - apply (list_elem_of_lookup_2 _ 0%nat). by vm_compute.
  - by vm_compute.
  - by vm_compute.
Defined.

(** X23.  In every state that overlapping calls lead to, the cache
    holds at most 16384 entries, no two of them under the same key,
    and every entry holds, under the key of an address and a length
    [j], the labels of that address masked to the lengths [j],
    [j + 1], ... up to some length within the bit length of the
    address, in this order. *)
Theorem X23_overlapping_cache s k (v : list Label) :
  running s → (k, v) ∈ simplelru.evictList s.1 →
  Z.of_nat (length (simplelru.evictList s.1)) ≤ 16384
  ∧ NoDup (simplelru.evictList s.1).*1
  ∧ ∃ n, 0 ≤ Prefix_Bits k ≤ n ∧ n ≤ Addr_BitLen (Prefix_Addr k)
         ∧ Z.of_nat (length v) = n - Prefix_Bits k + 1
         ∧ ∀ i, 0 ≤ i ≤ n - Prefix_Bits k →
                v !! Z.to_nat i
                = Some (maskedIPToLabel
                          (Prefix_Addr
                             (Prefix_Masked
                                (PrefixFrom (Prefix_Addr k)
                                   (Prefix_Bits k + i))))
                          (Prefix_Bits k + i)).
Proof.
  intros [(Hs & Hl & Hok & Hnd) _]%running_OK Hin.
  split; [by rewrite Hs in Hl|]. split; [done|].
  rewrite Forall_forall in Hok.
  destruct (Hok _ Hin) as (a & j & n & Ha & Hj & Hn & Heq).
  pose proof (f_equal fst Heq) as Hk. pose proof (f_equal snd Heq) as Hv.
  cbn [fst snd] in Hk, Hv. subst k v.
  rewrite Prefix_Addr_PrefixFrom, Prefix_Bits_PrefixFrom by (done || lia).
  exists n. split; [lia|]. split; [done|].
  split; [by rewrite length_chain by lia|].
  intros i Hi. unfold chain. rewrite list_lookup_fmap.
  rewrite (lookup_seqZ_lt j (n - j + 1) (Z.to_nat i)) by lia.
  cbn [fmap option_fmap option_map]. unfold chainLabel.
  by rewrite Z2Nat.id by lia.
Qed.

(** The entry of length 6 in the cache of the two overlapping
    calls. *)
Lemma X23_overlapping_cache_witness :
  Z.of_nat (length (simplelru.evictList overlap.1)) ≤ 16384
  ∧ NoDup (simplelru.evictList overlap.1).*1
  ∧ ∃ n, 0 ≤ Prefix_Bits (PrefixFrom addr10 6) ≤ n
         ∧ n ≤ Addr_BitLen (Prefix_Addr (PrefixFrom addr10 6))
         ∧ Z.of_nat (length (chain addr10 6 8))
           = n - Prefix_Bits (PrefixFrom addr10 6) + 1
         ∧ ∀ i, 0 ≤ i ≤ n - Prefix_Bits (PrefixFrom addr10 6) →
                chain addr10 6 8 !! Z.to_nat i
                = Some (maskedIPToLabel
                          (Prefix_Addr
                             (Prefix_Masked
                                (PrefixFrom
                                   (Prefix_Addr (PrefixFrom addr10 6))
                                   (Prefix_Bits (PrefixFrom addr10 6) + i))))
                          (Prefix_Bits (PrefixFrom addr10 6) + i)).
Proof.
  apply (X23_overlapping_cache overlap (PrefixFrom addr10 6)
           (chain addr10 6 8)).
  - apply running_schedule.
    apply (running_start false slash16 (_, [start false slash8]));
      [|apply PrefixFrom_wf].
    apply (running_start false slash8 (_, [])); [apply running_init|].
    apply PrefixFrom_wf.
  - apply (list_elem_of_lookup_2 _ 0%nat). by vm_compute.
Defined.

(** X24.  A call that takes all its steps with no step of another
    call in between returns after finitely many steps, and it leaves
    the cache and returns the labels that [GetCIDRLabels] gives as a
    function of the cache and the prefix. *)
Theorem X24_uninterrupted_call ds st p :
  ∃ k : nat,
    call_place (run k (cacheOf st) (start ds p)).2 = Returned
    ∧ GetCIDRLabels ds st p
      = (Some (run k (cacheOf st) (start ds p)).1,
         result (run k (cacheOf st) (start ds p)).2).
Proof. apply run_GetCIDRLabels. Qed.

(** X25.  However the calls overlap, a call makes progress at each
    of its steps and returns after at most [2 * n + 3] of them, [n]
    the length of its prefix: the bound on the steps left is at most
    [2 * n + 3] at the start (1 for a prefix without a positive
    length), it goes down with every step of the call, and it is
    never negative. *)
Theorem X25_call_returns s (j : nat) c :
  running s → s.2 !! j = Some c → call_place c ≠ Returned →
  0 ≤ steps_left (step s.1 c).2 < steps_left c
  ∧ steps_left c ≤ 2 * Z.max 0 (call_ones c + 1) + 1.
Proof.
  intros Hr Hj Hpl.
  destruct (running_call s c Hr (list_elem_of_lookup_2 _ _ _ Hj))
    as [_ [_ Hcase]].
  clear Hr Hj. revert Hcase Hpl. generalize s.1. intros cache.
  destruct c as [ds a n pl lbls results hit].
  cbn [call_addr call_ones call_lbls call_results call_place call_hit].
  intros Hcase Hpl.
  destruct pl as [i|i|]; [| |done]; unfold steps_left;
    cbn [step call_place call_ones].
  - destruct Hcase as (_ & _ & Hi).
    assert (0 ≤ i ≤ Z.max 0 (n + 1)) as Hi'.
    { destruct Hi as [[? ->]|(_ & ? & ?)]; lia. }
    clear Hi Hpl.
    destruct (Z.ltb_spec n i) as [Hlt|Hge]; cbn [snd call_place call_ones].
    + unfold back. destruct (Z.ltb_spec (i - 1) 0); cbv iota; lia.
    + destruct (simplelru.Get cache (PrefixFrom a i)) as [cache' [v|]];
        cbn [snd call_place call_ones].
      * unfold back. destruct (Z.ltb_spec (i - 1) 0); cbv iota; lia.
      * lia.
  - destruct Hcase as (_ & Hn & Hin & m & Hi & _).
    cbn [snd call_place call_ones].
    clear Hpl.
    unfold back. destruct (Z.ltb_spec (i - 1) 0); cbv iota; lia.
Qed.

(** The second of the two overlapping calls before it stores the
    entry of length 5: six steps are left. *)
Lemma X25_call_returns_witness :
  steps_left overlap16 = 6
  ∧ 0 ≤ steps_left (step overlap.1 overlap16).2 < steps_left overlap16
  ∧ steps_left overlap16 ≤ 2 * Z.max 0 (call_ones overlap16 + 1) + 1.
Proof.
  split; [by vm_compute|].
  apply (X25_call_returns overlap 1%nat overlap16).
  - apply running_schedule.
    apply (running_start false slash16 (_, [start false slash8]));
      [|apply PrefixFrom_wf].
    apply (running_start false slash8 (_, [])); [apply running_init|].
    apply PrefixFrom_wf.
  - by vm_compute.
  - by vm_compute.
Defined.

End steps_properties.
